(** * SweRank: the sliding-window reranker of [reranker/utils/rankllm.py]

    A shallow embedding of [RankLLM] and a verification of the properties its
    specification states.  Python objects live in a store of heap objects
    addressed by object identities; methods are computations in a state and
    exception monad over that store; text is a sequence of Unicode code
    points. *)

From Stdlib Require Import ZArith NArith Ascii String.
From Stdlib Require Decimal DecimalPos DecimalN.
From stdpp Require Import gmap strings list fin_maps.

#[local] Set Warnings "-clear-no-such-hyp".

Local Open Scope Z_scope.

(** ** Python text *)

(** A [str] is a sequence of code points. *)
Abbreviation text := (list N).

(** An ASCII literal as text (only ASCII literals are written this way). *)
Definition py (s : string) : text := map N_of_ascii (list_ascii_of_string s).

(** The part of the Unicode character database that [str.isalpha],
    [str.isdigit], [str.isdecimal], [str.isspace] and [int] consult.  The
    only facts about it that the development relies on are the ASCII rows of
    its tables. *)
Class Unicode := {
  isalpha : N → bool;
  isdigit : N → bool;
  isdecimal : N → bool;
  isspace : N → bool;
  decimal_value : N → Z;
  ascii_isalpha : ∀ c, (c < 128)%N →
    isalpha c = ((65 <=? c) && (c <=? 90) || (97 <=? c) && (c <=? 122))%N;
  ascii_isdigit : ∀ c, (c < 128)%N → isdigit c = ((48 <=? c) && (c <=? 57))%N;
  ascii_isdecimal : ∀ c, (c < 128)%N → isdecimal c = ((48 <=? c) && (c <=? 57))%N;
  ascii_isspace : ∀ c, (c < 128)%N →
    isspace c = ((9 <=? c) && (c <=? 13) || (28 <=? c) && (c <=? 32))%N;
  ascii_decimal_value : ∀ c, (48 ≤ c ≤ 57)%N → decimal_value c = Z.of_N c - 48;
}.

(** The tables for the code points below 256 (Latin-1), where they are small
    enough to write out; beyond 255 this instance classifies nothing.  It is
    the instance the concrete runs below evaluate with. *)
Definition latin1_isalpha (c : N) : bool :=
  ((65 <=? c) && (c <=? 90) || (97 <=? c) && (c <=? 122)
   || (c =? 170) || (c =? 181) || (c =? 186)
   || (192 <=? c) && (c <=? 214) || (216 <=? c) && (c <=? 246)
   || (248 <=? c) && (c <=? 255))%N.

Definition latin1_isdecimal (c : N) : bool := ((48 <=? c) && (c <=? 57))%N.

(** [isdigit] also holds of the superscript digits U+00B2, U+00B3, U+00B9. *)
Definition latin1_isdigit (c : N) : bool :=
  (latin1_isdecimal c || (c =? 178) || (c =? 179) || (c =? 185))%N.

Definition latin1_isspace (c : N) : bool :=
  ((9 <=? c) && (c <=? 13) || (28 <=? c) && (c <=? 32) || (c =? 133) || (c =? 160))%N.

Definition latin1_decimal_value (c : N) : Z := Z.of_N c - 48.

(** Case analysis on the comparisons of a goal about the tables. *)
Ltac table_cases :=
  repeat match goal with
  | |- context [(?a <=? ?b)%N] => destruct (N.leb_spec a b); try lia
  | |- context [(?a =? ?b)%N] => destruct (N.eqb_spec a b); try lia
  | H : context [(?a <=? ?b)%N] |- _ => destruct (N.leb_spec a b); try lia
  | H : context [(?a =? ?b)%N] |- _ => destruct (N.eqb_spec a b); try lia
  end; simpl in *; try done; try lia.

#[export] Program Instance latin1 : Unicode := {|
  isalpha := latin1_isalpha;
  isdigit := latin1_isdigit;
  isdecimal := latin1_isdecimal;
  isspace := latin1_isspace;
  decimal_value := latin1_decimal_value;
|}.
Next Obligation. intros c Hc. unfold latin1_isalpha. table_cases. Qed.
Next Obligation. intros c Hc. unfold latin1_isdigit, latin1_isdecimal. table_cases. Qed.
Next Obligation. done. Qed.
Next Obligation. intros c Hc. unfold latin1_isspace. table_cases. Qed.
Next Obligation. done. Qed.

(** ** String methods *)

Section text_methods.
Context {U : Unicode}.

(** The longest prefix of [s] whose characters satisfy [p], and what follows it. *)
Fixpoint take_while (p : N → bool) (s : text) : text :=
  match s with
  | c :: s' => if p c then c :: take_while p s' else []
  | [] => []
  end.

Fixpoint drop_while (p : N → bool) (s : text) : text :=
  match s with
  | c :: s' => if p c then drop_while p s' else s
  | [] => []
  end.

(** [s.strip()]: leading and trailing whitespace removed. *)
Definition strip (s : text) : text :=
  rev (drop_while isspace (rev (drop_while isspace s))).

(** [s.split()]: the maximal runs of non-whitespace characters, in order.
    [cur] holds the current run, last character first. *)
Fixpoint split_from (cur : text) (s : text) : list text :=
  match s with
  | [] => match cur with [] => [] | _ => [rev cur] end
  | c :: s' =>
      if isspace c
      then match cur with [] => split_from [] s' | _ => rev cur :: split_from [] s' end
      else split_from (c :: cur) s'
  end.

Definition split (s : text) : list text := split_from [] s.

(** [sub in s] and [s.index(sub)]: the first position at which [sub] occurs. *)
Fixpoint starts_with (sub s : text) : bool :=
  match sub, s with
  | [], _ => true
  | a :: sub', b :: s' => (a =? b)%N && starts_with sub' s'
  | _ :: _, [] => false
  end.

Fixpoint index (sub s : text) : option nat :=
  if starts_with sub s then Some 0%nat
  else match s with
       | [] => None
       | _ :: s' => S <$> index sub s'
       end.

Definition contains (sub s : text) : bool :=
  match index sub s with Some _ => true | None => false end.

(** [s[i:j]] for positions [i], [j] that [index] returned. *)
Definition substring (s : text) (i j : nat) : text := take (j - i) (drop i s).

(** [s.replace(sub, '')] for a non-empty [sub]: every occurrence, scanning
    from the left, is dropped; [skip] counts the characters of an occurrence
    that are still to be dropped. *)
Fixpoint remove_from (sub : text) (skip : nat) (s : text) : text :=
  match s with
  | [] => []
  | c :: s' =>
      match skip with
      | S k => remove_from sub k s'
      | O => if starts_with sub s
             then remove_from sub (length sub - 1) s'
             else c :: remove_from sub 0 s'
      end
  end.

Definition remove_all (sub s : text) : text := remove_from sub 0 s.

(** [str(n)] for an integer: its decimal digits, after a minus sign if it is
    negative. *)
Fixpoint digits_of_uint (d : Decimal.uint) : text :=
  match d with
  | Decimal.Nil => []
  | Decimal.D0 d' => 48%N :: digits_of_uint d'
  | Decimal.D1 d' => 49%N :: digits_of_uint d'
  | Decimal.D2 d' => 50%N :: digits_of_uint d'
  | Decimal.D3 d' => 51%N :: digits_of_uint d'
  | Decimal.D4 d' => 52%N :: digits_of_uint d'
  | Decimal.D5 d' => 53%N :: digits_of_uint d'
  | Decimal.D6 d' => 54%N :: digits_of_uint d'
  | Decimal.D7 d' => 55%N :: digits_of_uint d'
  | Decimal.D8 d' => 56%N :: digits_of_uint d'
  | Decimal.D9 d' => 57%N :: digits_of_uint d'
  end.

Definition str (n : Z) : text :=
  if n <? 0 then 45%N :: digits_of_uint (N.to_uint (Z.to_N (- n)))
  else digits_of_uint (N.to_uint (Z.to_N n)).

(** [int(x)] for a token [x] of a cleaned response.  Such a token holds no
    whitespace, sign or underscore (only characters that [isdigit] accepts, or
    digits that [str] printed), so [int] either reads its decimal characters
    by their values or raises [ValueError] (here [None]): on a token that is
    empty or holds a character that is not decimal.  (The interpreter's
    optional limit on the length of a decimal literal is outside the model.) *)
Definition int (x : text) : option Z :=
  match x with
  | [] => None
  | _ => if forallb isdecimal x
         then Some (fold_left (λ acc c, acc * 10 + decimal_value c) x 0)
         else None
  end.

End text_methods.

(** ** The permutation parser *)

Section parser.
Context {U : Unicode}.

(** [ALPH_START_IDX = ord('A')-1] *)
Definition ALPH_START_IDX : Z := 65 - 1.

(** *** [ranked_list_pattern] *)

(** The pattern, written with blanks between its parts, is
      \s* ( \[\d+\] (?: \s* > \s* \[\d+\] )* ) \s*
    In a [str] pattern \s is [isspace] and \d is [isdecimal].  No part of the
    pattern can match in two ways, so a match is found without backtracking.

    The part \[\d+\] at the head of [s]: the text it matches, and the rest
    of [s]. *)
Definition bracketed (s : text) : option (text * text) :=
  match s with
  | c :: s1 =>
      if (c =? 91)%N then
        match take_while isdecimal s1, drop_while isdecimal s1 with
        | (_ :: _) as ds, c' :: rest =>
            if (c' =? 93)%N then Some (c :: ds ++ [c'], rest) else None
        | _, _ => None
        end
      else None
  | [] => None
  end.

(** The greedy repetition of (?: \s* > \s* \[\d+\] ): the text it matches,
    and the rest of [s].  Every round takes at least four characters, so
    [length s] rounds of [fuel] are never used up. *)
Fixpoint more_items (fuel : nat) (s : text) : text * text :=
  match fuel with
  | O => ([], s)
  | S fuel' =>
      match drop_while isspace s with
      | c :: s1 =>
          if (c =? 62)%N then
            match bracketed (drop_while isspace s1) with
            | Some (item, rest) =>
                let '(more, rest') := more_items fuel' rest in
                (take_while isspace s ++ [c] ++ take_while isspace s1 ++ item ++ more,
                 rest')
            | None => ([], s)
            end
          else ([], s)
      | [] => ([], s)
      end
  end.

(** A match of the whole pattern at the head of [s]: its group 1, and the
    number of characters the match takes. *)
Definition match_ranked_list (s : text) : option (text * nat) :=
  match bracketed (drop_while isspace s) with
  | Some (item, rest) =>
      let '(more, rest') := more_items (length rest) rest in
      Some (item ++ more,
            (length (take_while isspace s) + length (item ++ more)
             + length (take_while isspace rest'))%nat)
  | None => None
  end.

(** [re.findall(ranked_list_pattern, s)]: group 1 of every match, the matches
    found from left to right without overlap; [skip] counts the characters of
    the last match that are still to be passed.  (The flags [re.DOTALL] and
    [re.MULTILINE] change [.], [^] and [$] only, which the pattern lacks.) *)
Fixpoint findall_from (skip : nat) (s : text) : list text :=
  match s with
  | [] => []
  | _ :: s' =>
      match skip with
      | S k => findall_from k s'
      | O => match match_ranked_list s with
             | Some (g, n) => g :: findall_from (n - 1) s'
             | None => findall_from 0 s'
             end
      end
  end.

Definition findall (s : text) : list text := findall_from 0 s.

(** *** [parse_reasoning_permutation] *)

Definition end_of_reasoning_tag : text := py "</think>".
Definition start_of_answer_tag : text := py "<answer>".
Definition end_of_answer_tag : text := py "</answer>".

(** The loop over [match] that skips a candidate without [">"] and stops at
    the first one with it. *)
Fixpoint first_correct_match (cands : list text) : option text :=
  match cands with
  | [] => None
  | cand :: rest =>
      if negb (contains (py ">") cand) then first_correct_match rest
      else Some cand
  end.

(** Truth value of an optional string: [None] and [''] are false. *)
Definition truthy (o : option text) : bool :=
  match o with
  | Some (_ :: _) => true
  | _ => false
  end.

Definition parse_reasoning_permutation (response : text) : text * bool :=
  let matched_ranked_list :=
    if contains end_of_answer_tag response && contains end_of_reasoning_tag response
    then
      match index end_of_reasoning_tag response, index end_of_answer_tag response with
      | Some i, Some j =>
          let parsed_answer :=
            strip (remove_all start_of_answer_tag (substring response i j)) in
          match findall parsed_answer with
          | m :: _ => Some (strip m)
          | [] => None
          end
      | _, _ => None
      end
    else None in
  if truthy matched_ranked_list
  then (default [] matched_ranked_list, true)
  else
    let first := first_correct_match (findall response) in
    if truthy first
    then (default [] first, true)
    else (response, false).

(** *** [_clean_response] *)

Definition _clean_response (_rerank_type : string) (response : text) (use_alpha : bool)
    : text :=
  let response :=
    if String.eqb _rerank_type "code_reasoning"
    then fst (parse_reasoning_permutation response)
    else response in
  if use_alpha
  then strip (fold_left (λ new_response c,
                if negb (isalpha c) then new_response ++ py " "
                else new_response ++ str (Z.of_N c - ALPH_START_IDX))
              response [])
  else strip (fold_left (λ new_response c,
                if negb (isdigit c) then new_response ++ py " "
                else new_response ++ [c])
              response []).

(** *** [_remove_duplicate] *)

Definition _remove_duplicate (response : list Z) : list Z :=
  fold_left (λ new_response c,
      if bool_decide (c ∈ new_response) then new_response else new_response ++ [c])
    response [].

(** *** The head of [receive_permutation]: from raw text to local indices *)

(** Lines 445 to 447: the cleaned response is split, every token is read as
    an integer and made 0-based, and duplicates are removed.  [None] stands
    for the [ValueError] of [int]. *)
Definition parsed_response (_rerank_type : string) (permutation : text) (use_alpha : bool)
    : option (list Z) :=
  let response := _clean_response _rerank_type permutation use_alpha in
  response ← mapM (λ x, (λ v, v - 1) <$> int x) (split response);
  Some (_remove_duplicate response).

(** Lines 449 to 451, for a slice of [n] hits: the indices outside
    [range(n)] are dropped, and the indices of [range(n)] that the response
    lacks are appended in increasing order. *)
Definition completed_response (n : nat) (response : list Z) : list Z :=
  let original_rank := seqZ 0 (Z.of_nat n) in
  let response := filter (λ ss, ss ∈ original_rank) response in
  response ++ filter (λ tt, tt ∉ response) original_rank.

End parser.

(** ** [_replace_number] *)

Section replace_number.
Context {U : Unicode}.

(** The class [A-z] of the pattern of the alphabetic mode: the code points
    from [A] to [z], with the six that lie between [Z] and [a], the two
    brackets among them. *)
Definition in_A_z (c : N) : bool := ((65 <=? c) && (c <=? 122))%N.

(** The greedy repetition of a class, followed by a closing bracket, on the
    text [s1] that follows an opening bracket: the repetition takes the
    longest run of class characters and gives them back one by one, from [n]
    characters down to one, until a closing bracket follows.  The result is
    the group and the text after the closing bracket. *)
Fixpoint give_back (n : nat) (s1 : text) : option (text * text) :=
  match n with
  | O => None
  | S n' =>
      match drop n s1 with
      | c :: rest => if (c =? 93)%N then Some (take n s1, rest) else give_back n' s1
      | [] => give_back n' s1
      end
  end.

(** A match of  \[ ( class + ) \]  at the head of [s]. *)
Definition bracketed_by (class : N → bool) (s : text) : option (text * text) :=
  match s with
  | c :: s1 =>
      if (c =? 91)%N then give_back (length (take_while class s1)) s1 else None
  | [] => None
  end.

(** [re.sub(pattern, r"(\1)", s)] for such a pattern: the matches are found
    from left to right without overlap and each is replaced by its group in
    round brackets; [skip] counts the characters of the last match that are
    still to be passed. *)
Fixpoint sub_from (class : N → bool) (skip : nat) (s : text) : text :=
  match s with
  | [] => []
  | c :: s' =>
      match skip with
      | S k => sub_from class k s'
      | O => match bracketed_by class s with
             | Some (g, _) => [40%N] ++ g ++ [41%N] ++ sub_from class (length g + 1) s'
             | None => c :: sub_from class 0 s'
             end
      end
  end.

Definition _replace_number (s : text) (use_alpha : bool) : text :=
  if use_alpha then sub_from in_A_z 0 s else sub_from isdecimal 0 s.

End replace_number.

(** ** The object store *)

(** An object identity. *)
Abbreviation loc := positive.

Section objects.
(** [V]: the values that the fields of a hit hold (immutable data);
    [Prompt]: rendered prompts. *)
Context {V Prompt : Type}.

(** [RankingExecInfo(prompt, response, input_token_count, output_token_count)] *)
Record RankingExecInfo := {
  exec_prompt : Prompt;
  exec_response : text;
  input_token_count : Z;
  output_token_count : Z;
}.

(** The objects this module handles.  A [Result] holds a reference to its
    list of hits and, unless it is [None], to its list of execution records;
    a list of hits holds references to dictionaries. *)
Inductive obj :=
| ObjResult (hits : loc) (ranking_exec_summary : option loc)
| ObjList (items : list loc)
| ObjDict (fields : gmap string V)
| ObjTrace (entries : list RankingExecInfo).

(** The calls to the collaborators (prompt renderer and ranking oracle), in
    the order they are made. *)
Inductive event :=
| CreatePrompt (result : loc) (use_alpha : bool) (rank_start rank_end : Z)
| RunLLM (prompt : Prompt) (use_logits use_alpha : bool) (current_window_size : Z)
| CreatePromptBatched (results : list loc) (use_alpha : bool) (rank_start rank_end : Z)
| RunLLMBatched (prompts : list Prompt) (use_logits use_alpha : bool)
    (current_window_size : Z).

Record world := World {
  heap : gmap loc obj;
  calls : list event;
}.

Inductive exn :=
| KeyError (key : string)
| ValueError
| IndexError
| TypeError.

(** How a computation ends: it returns, it raises, or the fuel given to a
    [while] loop has run out before the loop ended. *)
Inductive outcome (A : Type) :=
| Ok (a : A)
| Raise (e : exn)
| OutOfFuel.
Global Arguments Ok {A} a.
Global Arguments Raise {A} e.
Global Arguments OutOfFuel {A}.

(** A computation: from the world before to its outcome and the world after. *)
Definition M (A : Type) : Type := world → outcome A * world.

#[export] Instance M_ret : MRet M := λ A a w, (Ok a, w).

#[export] Instance M_bind : MBind M := λ A B k m w,
  match m w with
  | (Ok a, w') => k a w'
  | (Raise e, w') => (Raise e, w')
  | (OutOfFuel, w') => (OutOfFuel, w')
  end.

#[export] Instance M_fmap : FMap M := λ A B f m, a ← m; mret (f a).

Definition raise {A} (e : exn) : M A := λ w, (Raise e, w).

Definition out_of_fuel {A} : M A := λ w, (OutOfFuel, w).

Definition get_world : M world := λ w, (Ok w, w).

Definition log (e : event) : M unit :=
  λ w, (Ok (), World (heap w) (calls w ++ [e])).

(** A new object: its identity is one that no object of the store has. *)
Definition alloc (o : obj) : M loc :=
  λ w, let l := fresh (dom (heap w)) in (Ok l, World (<[l:=o]> (heap w)) (calls w)).

Definition read (l : loc) : M obj :=
  λ w, match heap w !! l with
       | Some o => (Ok o, w)
       | None => (Raise TypeError, w)
       end.

Definition write (l : loc) (o : obj) : M unit :=
  λ w, (Ok (), World (<[l:=o]> (heap w)) (calls w)).

(** Reading an object as what the code takes it to be. *)
Definition read_result (r : loc) : M (loc * option loc) :=
  o ← read r;
  match o with ObjResult h t => mret (h, t) | _ => raise TypeError end.

Definition read_list (h : loc) : M (list loc) :=
  o ← read h;
  match o with ObjList items => mret items | _ => raise TypeError end.

Definition read_dict (l : loc) : M (gmap string V) :=
  o ← read l;
  match o with ObjDict d => mret d | _ => raise TypeError end.

Definition read_trace (t : loc) : M (list RankingExecInfo) :=
  o ← read t;
  match o with ObjTrace es => mret es | _ => raise TypeError end.

(** *** Attributes of a [Result] *)

(** [result.hits] *)
Definition attr_hits (result : loc) : M loc := fst <$> read_result result.

(** [result.ranking_exec_summary] *)
Definition attr_summary (result : loc) : M (option loc) := snd <$> read_result result.

(** [result.ranking_exec_summary = t] *)
Definition set_summary (result : loc) (t : loc) : M unit :=
  '(h, _) ← read_result result;
  write result (ObjResult h (Some t)).

(** *** Lists and dictionaries *)

(** The position that index [i] names in a list of length [len]: a negative
    index counts from the end; [None] is an [IndexError]. *)
Definition position (len : nat) (i : Z) : option nat :=
  if bool_decide (0 ≤ i < Z.of_nat len) then Some (Z.to_nat i)
  else if bool_decide (- Z.of_nat len ≤ i < 0) then Some (Z.to_nat (i + Z.of_nat len))
  else None.

(** [l[i]] for a list held in a local variable. *)
Definition getitem {A} (l : list A) (i : Z) : M A :=
  match position (length l) i ≫= (l !!.) with
  | Some a => mret a
  | None => raise IndexError
  end.

(** The bound of a slice: a negative bound counts from the end, and a
    bound outside the list is moved to its nearer end. *)
Definition slice_bound (len : nat) (i : Z) : nat :=
  if bool_decide (i < 0) then Z.to_nat (Z.max (i + Z.of_nat len) 0)
  else Z.to_nat (Z.min i (Z.of_nat len)).

(** [l[start:stop]] *)
Definition slice {A} (l : list A) (start stop : Z) : list A :=
  let a := slice_bound (length l) start in
  let b := slice_bound (length l) stop in
  take (b - a) (drop a l).

(** [hits[i]] for the list object [hits]. *)
Definition list_getitem (hits : loc) (i : Z) : M loc :=
  items ← read_list hits;
  getitem items i.

(** [hits[i] = hit] *)
Definition list_setitem (hits : loc) (i : Z) (hit : loc) : M unit :=
  items ← read_list hits;
  match position (length items) i with
  | Some k => write hits (ObjList (<[k:=hit]> items))
  | None => raise IndexError
  end.

(** [t.append(info)] *)
Definition trace_append (t : loc) (info : RankingExecInfo) : M unit :=
  entries ← read_trace t;
  write t (ObjTrace (entries ++ [info])).

(** [key in hit] *)
Definition dict_contains (hit : loc) (key : string) : M bool :=
  d ← read_dict hit;
  mret (bool_decide (is_Some (d !! key))).

(** [hit[key] = v] *)
Definition dict_setitem (hit : loc) (key : string) (v : V) : M unit :=
  d ← read_dict hit;
  write hit (ObjDict (<[key:=v]> d)).

(** [d[key]] for a dictionary of the local snapshot [cut_range]. *)
Definition lookup_key (d : gmap string V) (key : string) : M V :=
  match d !! key with
  | Some v => mret v
  | None => raise (KeyError key)
  end.

(** *** [copy.deepcopy] *)

(** The hits of a list, copied one by one; [memo] maps every dictionary
    copied so far to its copy, so that a dictionary the list holds twice is
    copied once. *)
Fixpoint deepcopy_items (memo : gmap loc loc) (items : list loc) : M (list loc) :=
  match items with
  | [] => mret []
  | l :: items' =>
      match memo !! l with
      | Some l' => rest ← deepcopy_items memo items'; mret (l' :: rest)
      | None =>
          d ← read_dict l;
          l' ← alloc (ObjDict d);
          rest ← deepcopy_items (<[l:=l']> memo) items';
          mret (l' :: rest)
      end
  end.

(** [copy.deepcopy(result)] for a [Result]: a new [Result] whose list of
    hits, hits and list of execution records are all new objects. *)
Definition deepcopy_result (result : loc) : M loc :=
  '(h, t) ← read_result result;
  items ← read_list h;
  items' ← deepcopy_items ∅ items;
  h' ← alloc (ObjList items');
  t' ← match t with
       | None => mret None
       | Some tl =>
           entries ← read_trace tl;
           tl' ← alloc (ObjTrace entries);
           mret (Some tl')
       end;
  alloc (ObjResult h' t').

End objects.

Global Arguments obj : clear implicits.
Global Arguments event : clear implicits.
Global Arguments world : clear implicits.
Global Arguments RankingExecInfo : clear implicits.
Global Arguments M : clear implicits.

(** ** [class RankLLM] *)

Section ranker.
Context {U : Unicode} {V Prompt : Type}.

Local Abbreviation obj := (obj V Prompt).
Local Abbreviation world := (world V Prompt).
Local Abbreviation M := (M V Prompt).
Local Abbreviation RankingExecInfo := (RankingExecInfo Prompt).

(** What a concrete ranker supplies: the attribute [_rerank_type] and the
    abstract methods.  The collaborators observe the world (the objects and
    the calls made so far) and answer; they change no object and return
    normally. *)
Record RankLLM := {
  _rerank_type : string;
  create_prompt : world → loc → bool → Z → Z → Prompt * Z;
  run_llm : world → Prompt → bool → bool → Z → text * Z;
  create_prompt_batched : world → list loc → bool → Z → Z → list (Prompt * Z);
  run_llm_batched : world → list Prompt → bool → bool → Z → list (text * Z);
  get_num_tokens : Prompt → Z;
  num_output_tokens : Z;
}.

(** The calls to the collaborators, each recorded when it is made. *)
Definition call_create_prompt (self : RankLLM) (result : loc) (use_alpha : bool)
    (rank_start rank_end : Z) : M (Prompt * Z) :=
  log (CreatePrompt result use_alpha rank_start rank_end);;
  w ← get_world;
  mret (create_prompt self w result use_alpha rank_start rank_end).

Definition call_run_llm (self : RankLLM) (prompt : Prompt) (use_logits use_alpha : bool)
    (current_window_size : Z) : M (text * Z) :=
  log (RunLLM prompt use_logits use_alpha current_window_size);;
  w ← get_world;
  mret (run_llm self w prompt use_logits use_alpha current_window_size).

Definition call_create_prompt_batched (self : RankLLM) (results : list loc)
    (use_alpha : bool) (rank_start rank_end : Z) : M (list (Prompt * Z)) :=
  log (CreatePromptBatched results use_alpha rank_start rank_end);;
  w ← get_world;
  mret (create_prompt_batched self w results use_alpha rank_start rank_end).

Definition call_run_llm_batched (self : RankLLM) (prompts : list Prompt)
    (use_logits use_alpha : bool) (current_window_size : Z) : M (list (text * Z)) :=
  log (RunLLMBatched prompts use_logits use_alpha current_window_size);;
  w ← get_world;
  mret (run_llm_batched self w prompts use_logits use_alpha current_window_size).

(** *** [receive_permutation] *)

(** Lines 454 to 457 for one key:
    [if key in result.hits[j + rank_start]:
       result.hits[j + rank_start][key] = cut_range[j][key]] *)
Definition set_positional (result : loc) (cut_range : list (gmap string V))
    (rank_start j : Z) (key : string) : M unit :=
  hits ← attr_hits result;
  hit ← list_getitem hits (j + rank_start);
  present ← dict_contains hit key;
  if present : bool then
    old ← getitem cut_range j;
    v ← lookup_key old key;
    hits ← attr_hits result;
    hit ← list_getitem hits (j + rank_start);
    dict_setitem hit key v
  else mret ().

(** The loop [for j, x in enumerate(response)], from index [j] on. *)
Fixpoint reorder (result : loc) (cut_range : list (gmap string V))
    (rank_start j : Z) (response : list Z) : M unit :=
  match response with
  | [] => mret ()
  | x :: rest =>
      d ← getitem cut_range x;
      hit ← alloc (ObjDict d);
      hits ← attr_hits result;
      list_setitem hits (j + rank_start) hit;;
      set_positional result cut_range rank_start j "rank";;
      set_positional result cut_range rank_start j "score";;
      reorder result cut_range rank_start (j + 1) rest
  end.

(** [cut_range] is a deep copy that only this call holds and that is only
    read: it is kept as the list of the dictionaries it holds. *)
Definition receive_permutation (self : RankLLM) (result : loc) (permutation : text)
    (rank_start rank_end : Z) (use_alpha : bool) : M loc :=
  match parsed_response (_rerank_type self) permutation use_alpha with
  | None => raise ValueError
  | Some response =>
      hits ← attr_hits result;
      items ← read_list hits;
      cut_range ← mapM read_dict (slice items rank_start rank_end);
      let response := completed_response (length cut_range) response in
      reorder result cut_range rank_start 0 response;;
      mret result
  end.

(** *** [permutation_pipeline] and [permutation_pipeline_batched] *)

(** The lines both pipelines share: the execution record is appended to the
    result's list, which is created if the attribute is [None], and the
    permutation is applied. *)
Definition record_and_receive (self : RankLLM) (result : loc) (info : RankingExecInfo)
    (rank_start rank_end : Z) (use_alpha : bool) : M loc :=
  summary ← attr_summary result;
  match summary with
  | None => t ← alloc (ObjTrace []); set_summary result t
  | Some _ => mret ()
  end;;
  summary ← attr_summary result;
  match summary with
  | Some t => trace_append t info
  | None => raise TypeError
  end;;
  receive_permutation self result (exec_response info) rank_start rank_end use_alpha.

Definition permutation_pipeline (self : RankLLM) (result : loc)
    (use_logits use_alpha : bool) (rank_start rank_end : Z) : M loc :=
  '(prompt, in_token_count) ← call_create_prompt self result use_alpha rank_start rank_end;
  '(permutation, out_token_count) ←
    call_run_llm self prompt use_logits use_alpha (rank_end - rank_start);
  let ranking_exec_info :=
    {| exec_prompt := prompt; exec_response := permutation;
       input_token_count := in_token_count; output_token_count := out_token_count |} in
  record_and_receive self result ranking_exec_info rank_start rank_end use_alpha.

(** The loop [for index, (result, (prompt, in_token_count)) in
    enumerate(zip(results, prompts))], from index [index] on: [zip] stops at
    the end of the shorter list. *)
Fixpoint batched_loop (self : RankLLM) (batched_results : list (text * Z))
    (use_alpha : bool) (rank_start rank_end : Z) (index : Z)
    (results : list loc) (prompts : list (Prompt * Z)) : M unit :=
  match results, prompts with
  | result :: results', (prompt, in_token_count) :: prompts' =>
      '(permutation, out_token_count) ← getitem batched_results index;
      let ranking_exec_info :=
        {| exec_prompt := prompt; exec_response := permutation;
           input_token_count := in_token_count; output_token_count := out_token_count |} in
      record_and_receive self result ranking_exec_info rank_start rank_end use_alpha;;
      batched_loop self batched_results use_alpha rank_start rank_end (index + 1)
        results' prompts'
  | _, _ => mret ()
  end.

Definition permutation_pipeline_batched (self : RankLLM) (results : list loc)
    (use_logits use_alpha : bool) (rank_start rank_end : Z) : M (list loc) :=
  prompts ← call_create_prompt_batched self results use_alpha rank_start rank_end;
  batched_results ←
    call_run_llm_batched self (fst <$> prompts) use_logits use_alpha (rank_end - rank_start);
  batched_loop self batched_results use_alpha rank_start rank_end 0 results prompts;;
  mret results.

(** *** [sliding_windows] and [sliding_windows_batched] *)

(** The [while] loop of both schedulers; [pipeline] is the call of the loop
    body, on one result or on a batch. *)
Fixpoint sliding_loop {A} (fuel : nat) (pipeline : A → Z → Z → M A) (rerank_result : A)
    (rank_start step start_pos end_pos : Z) : M A :=
  if bool_decide (end_pos > rank_start ∧ start_pos + step ≠ rank_start) then
    match fuel with
    | O => out_of_fuel
    | S fuel' =>
        let start_pos := Z.max start_pos rank_start in
        rerank_result ← pipeline rerank_result start_pos end_pos;
        sliding_loop fuel' pipeline rerank_result rank_start step
          (start_pos - step) (end_pos - step)
    end
  else mret rerank_result.

Definition sliding_windows (self : RankLLM) (fuel : nat) (retrieved_result : loc)
    (use_logits use_alpha : bool) (rank_start rank_end window_size step : Z) : M loc :=
  rerank_result ← deepcopy_result retrieved_result;
  sliding_loop fuel
    (λ rerank_result start_pos end_pos,
       permutation_pipeline self rerank_result use_logits use_alpha start_pos end_pos)
    rerank_result rank_start step (rank_end - window_size) rank_end.

Definition sliding_windows_batched (self : RankLLM) (fuel : nat)
    (retrieved_results : list loc) (use_logits use_alpha : bool)
    (rank_start rank_end window_size step : Z) : M (list loc) :=
  rerank_results ← mapM deepcopy_result retrieved_results;
  sliding_loop fuel
    (λ rerank_results start_pos end_pos,
       permutation_pipeline_batched self rerank_results use_logits use_alpha
         start_pos end_pos)
    rerank_results rank_start step (rank_end - window_size) rank_end.

(** The windows the scheduler's loop passes to its body, in order; [None]
    when [fuel] rounds do not end the loop. *)
Fixpoint windows (fuel : nat) (rank_start step start_pos end_pos : Z)
    : option (list (Z * Z)) :=
  if bool_decide (end_pos > rank_start ∧ start_pos + step ≠ rank_start) then
    match fuel with
    | O => None
    | S fuel' =>
        let start_pos := Z.max start_pos rank_start in
        rest ← windows fuel' rank_start step (start_pos - step) (end_pos - step);
        Some ((start_pos, end_pos) :: rest)
    end
  else Some [].

(** *** [get_ranking_cost] *)

(** The [while] loop for one result: the windows for which a prompt is
    rendered, with the token counts added up.  [tokens_at start end] is
    [get_num_tokens] of the prompt rendered for the window. *)
Fixpoint cost_loop (fuel : nat) (tokens_at : Z → Z → Z) (num_output : Z)
    (rank_start step start_pos end_pos : Z) (input_tokens output_tokens : Z)
    : option (list (Z * Z) * Z * Z) :=
  if bool_decide (start_pos >= rank_start) then
    match fuel with
    | O => None
    | S fuel' =>
        let start_pos := Z.max start_pos rank_start in
        let input_tokens := input_tokens + tokens_at start_pos end_pos in
        '(visited, input_tokens, output_tokens) ←
          cost_loop fuel' tokens_at num_output rank_start step
            (start_pos - step) (end_pos - step) input_tokens (output_tokens + num_output);
        Some ((start_pos, end_pos) :: visited, input_tokens, output_tokens)
    end
  else Some ([], input_tokens, output_tokens).

(** The windows [get_ranking_cost] visits for each result. *)
Definition cost_windows (fuel : nat) (rank_start rank_end window_size step : Z)
    : option (list (Z * Z)) :=
  (λ r, r.1.1) <$>
    cost_loop fuel (λ _ _, 0) 0 rank_start step (rank_end - window_size) rank_end 0 0.

(** The token counts of [get_ranking_cost] (its first component, the price of
    these tokens, is a floating-point product and is left out).
    [render result start end] is the prompt of [create_prompt]. *)
Fixpoint get_ranking_cost {R} (self : RankLLM) (fuel : nat) (render : R → Z → Z → Prompt)
    (retrieved_results : list R) (rank_start rank_end window_size step : Z)
    (input_tokens output_tokens : Z) : option Z :=
  match retrieved_results with
  | [] => Some (input_tokens + output_tokens)
  | result :: rest =>
      '(_, input_tokens, output_tokens) ←
        cost_loop fuel (λ s e, get_num_tokens self (render result s e))
          (num_output_tokens self) rank_start step (rank_end - window_size) rank_end
          input_tokens output_tokens;
      get_ranking_cost self fuel render rest rank_start rank_end window_size step
        input_tokens output_tokens
  end.

End ranker.

Global Arguments RankLLM : clear implicits.

(** ** What a [Result] holds *)

Section contents.
Context {V Prompt : Type}.

Local Abbreviation obj := (obj V Prompt).

(** The dictionary at [l]. *)
Definition dict_at (σ : gmap loc obj) (l : loc) : option (gmap string V) :=
  match σ !! l with
  | Some (ObjDict d) => Some d
  | _ => None
  end.

(** The hits of the result [r], in order, each as the dictionary it is. *)
Definition hits_of (σ : gmap loc obj) (r : loc) : option (list (gmap string V)) :=
  match σ !! r with
  | Some (ObjResult h _) =>
      match σ !! h with
      | Some (ObjList items) => mapM (dict_at σ) items
      | _ => None
      end
  | _ => None
  end.

(** The execution records of the result [r]; an attribute that is [None]
    holds no record. *)
Definition trace_of (σ : gmap loc obj) (r : loc) : option (list (RankingExecInfo Prompt)) :=
  match σ !! r with
  | Some (ObjResult _ None) => Some []
  | Some (ObjResult _ (Some t)) =>
      match σ !! t with
      | Some (ObjTrace entries) => Some entries
      | _ => None
      end
  | _ => None
  end.

End contents.

(** * Verification *)

(** ** The window schedule *)

Section schedule.
Context {V Prompt : Type}.

Local Abbreviation M := (M V Prompt).

(** The calls of [pipeline] on the windows [ws], one after the other, each on
    the result of the one before. *)
Fixpoint for_windows {A} (pipeline : A → Z → Z → M A) (a : A) (ws : list (Z * Z)) : M A :=
  match ws with
  | [] => mret a
  | (start_pos, end_pos) :: ws' =>
      a' ← pipeline a start_pos end_pos;
      for_windows pipeline a' ws'
  end.

Lemma windows_unfold fuel rank_start step start_pos end_pos :
  windows (S fuel) rank_start step start_pos end_pos =
    if bool_decide (end_pos > rank_start ∧ start_pos + step ≠ rank_start)
    then rest ← windows fuel rank_start step
                   (Z.max start_pos rank_start - step) (end_pos - step);
         Some ((Z.max start_pos rank_start, end_pos) :: rest)
    else Some [].
Proof. done. Qed.

(** More fuel does not change a schedule that was found. *)
Lemma windows_fuel_mono fuel fuel' rank_start step start_pos end_pos ws :
  windows fuel rank_start step start_pos end_pos = Some ws →
  (fuel ≤ fuel')%nat →
  windows fuel' rank_start step start_pos end_pos = Some ws.
Proof.
  revert fuel' start_pos end_pos ws.
  induction fuel as [|fuel IH]; intros fuel' s e ws Hw Hle.
  - destruct fuel'; simpl in *; case_bool_decide; done.
  - destruct fuel' as [|fuel']; [lia|].
    rewrite windows_unfold in *. case_bool_decide; [|done].
    destruct (windows fuel _ _ _ _) as [rest|] eqn:Hrest; [|done].
    rewrite (IH fuel' _ _ rest Hrest); [done|lia].
Qed.

(** With a positive step the loop ends: [end_pos] falls by [step] every
    round and the loop stops once it is at [rank_start] or below. *)
Lemma windows_terminates fuel rank_start step start_pos end_pos :
  0 < step →
  end_pos - rank_start ≤ Z.of_nat fuel →
  is_Some (windows fuel rank_start step start_pos end_pos).
Proof.
  intros Hstep. revert start_pos end_pos.
  induction fuel as [|fuel IH]; intros s e Hfuel.
  - simpl. case_bool_decide; [lia|done].
  - rewrite windows_unfold. case_bool_decide; [|done].
    destruct (IH (Z.max s rank_start - step) (e - step)) as [rest ->]; [lia|done].
Qed.

(** The scheduler's loop calls its body on the windows of the schedule, in
    order. *)
Lemma sliding_loop_windows {A} fuel (pipeline : A → Z → Z → M A) a
    rank_start step start_pos end_pos ws w :
  windows fuel rank_start step start_pos end_pos = Some ws →
  sliding_loop fuel pipeline a rank_start step start_pos end_pos w
  = for_windows pipeline a ws w.
Proof.
  revert a start_pos end_pos ws w.
  induction fuel as [|fuel IH]; intros a s e ws w; simpl.
  - case_bool_decide; [done|]. by intros [= <-].
  - case_bool_decide; [|by intros [= <-]].
    destruct (windows fuel _ _ _ _) as [rest|] eqn:Hrest; [|done].
    intros [= <-]. simpl. unfold mbind, M_bind.
    destruct (pipeline a _ _ w) as [[a'| |] w']; [|done..].
    by rewrite (IH _ _ _ _ _ Hrest).
Qed.

(** No window of the schedule starts below [rank_start] or is empty above
    it. *)
Lemma windows_bounds fuel rank_start step start_pos end_pos ws :
  windows fuel rank_start step start_pos end_pos = Some ws →
  Forall (λ w, rank_start ≤ w.1 ∧ rank_start < w.2) ws.
Proof.
  revert start_pos end_pos ws.
  induction fuel as [|fuel IH]; intros s e ws; simpl.
  - case_bool_decide; [done|]. by intros [= <-].
  - case_bool_decide; [|by intros [= <-]].
    destruct (windows fuel _ _ _ _) as [rest|] eqn:Hrest; [|done].
    intros [= <-]. constructor; [simpl; lia|]. by eapply IH.
Qed.

End schedule.

Section schedule_claims.
Context {U : Unicode} {V Prompt : Type}.

(** The nine windows of the setting [window_size=20, step=10, rank_start=0,
    rank_end=100]. *)
Definition nine_windows : list (Z * Z) :=
  [(80, 100); (70, 90); (60, 80); (50, 70); (40, 60); (30, 50); (20, 40); (10, 30); (0, 20)].

(** C2.  The scheduler's loop starts at [end = rank_end] and
    [start = rank_end - window_size]; while [end > rank_start] and
    [start + step != rank_start] it clamps [start] to [rank_start], runs the
    pipeline on the window and lowers both bounds by [step]: [sliding_windows]
    copies the result and runs the pipeline on the windows of [windows], in
    order, none of them starting below [rank_start].  With a positive step
    the loop ends within [end - rank_start] rounds.  With [window_size=20,
    step=10, rank_start=0, rank_end=100] the windows are the nine
    (80,100), (70,90), ..., (0,20), each once. *)
Theorem sliding_windows_window_sequence :
  (∀ fuel rank_start step start_pos end_pos,
     windows (S fuel) rank_start step start_pos end_pos =
       if bool_decide (end_pos > rank_start ∧ start_pos + step ≠ rank_start)
       then rest ← windows fuel rank_start step
                      (Z.max start_pos rank_start - step) (end_pos - step);
            Some ((Z.max start_pos rank_start, end_pos) :: rest)
       else Some [])
  ∧ (∀ (self : RankLLM V Prompt) fuel retrieved_result use_logits use_alpha
       rank_start rank_end window_size step ws w,
       windows fuel rank_start step (rank_end - window_size) rank_end = Some ws →
       sliding_windows self fuel retrieved_result use_logits use_alpha
         rank_start rank_end window_size step w
       = (rerank_result ← deepcopy_result retrieved_result;
          for_windows (λ r s e, permutation_pipeline self r use_logits use_alpha s e)
            rerank_result ws) w
       ∧ Forall (λ win, rank_start ≤ win.1 ∧ rank_start < win.2) ws)
  ∧ (∀ fuel rank_start step start_pos end_pos,
       0 < step → end_pos - rank_start ≤ Z.of_nat fuel →
       is_Some (windows fuel rank_start step start_pos end_pos))
  ∧ (∀ fuel, (9 ≤ fuel)%nat → windows fuel 0 10 (100 - 20) 100 = Some nine_windows)
  ∧ NoDup nine_windows.
Proof.
  split_and!.
  - intros. apply windows_unfold.
  - intros self fuel r ul ua rs re wsz step ws w Hws. split.
    + unfold sliding_windows, mbind, M_bind.
      destruct (deepcopy_result r w) as [[rr| |] w']; [|done..].
      by apply sliding_loop_windows.
    + by eapply windows_bounds.
  - intros. by apply windows_terminates.
  - intros fuel Hfuel. by apply (windows_fuel_mono 9).
  - apply (bool_decide_unpack _). by vm_compute.
Qed.

(** *** The windows of [get_ranking_cost] *)

(** The windows the cost loop visits do not depend on the token counts. *)
Lemma cost_loop_visited fuel tokens_at tokens_at' num_output num_output'
    rank_start step start_pos end_pos i o i' o' :
  (λ r, r.1.1) <$> cost_loop fuel tokens_at num_output rank_start step start_pos end_pos i o
  = (λ r, r.1.1) <$> cost_loop fuel tokens_at' num_output' rank_start step start_pos end_pos
                       i' o'.
Proof.
  revert start_pos end_pos i o i' o'.
  induction fuel as [|fuel IH]; intros s e i o i' o'; simpl.
  - by case_bool_decide.
  - case_bool_decide; [|done].
    specialize (IH (Z.max s rank_start - step) (e - step)
                  (i + tokens_at (Z.max s rank_start) e) (o + num_output)
                  (i' + tokens_at' (Z.max s rank_start) e) (o' + num_output')).
    destruct (cost_loop fuel tokens_at _ _ _ _ _ _ _) as [[[vs i1] o1]|];
      destruct (cost_loop fuel tokens_at' _ _ _ _ _ _ _) as [[[vs2 i2] o2]|];
      simpl in *; congruence.
Qed.

Lemma cost_windows_unfold fuel rank_start rank_end window_size step :
  cost_windows (S fuel) rank_start rank_end window_size step =
    if bool_decide (rank_end - window_size >= rank_start)
    then rest ← cost_windows fuel rank_start (rank_end - step) window_size step;
         Some ((rank_end - window_size, rank_end) :: rest)
    else Some [].
Proof.
  unfold cost_windows. simpl. case_bool_decide as Hge; [|done].
  rewrite Z.max_l by lia.
  replace (rank_end - step - window_size) with (rank_end - window_size - step) by lia.
  pose proof (cost_loop_visited fuel (λ _ _, 0) (λ _ _, 0) 0 0 rank_start step
    (rank_end - window_size - step) (rank_end - step) (0 + 0) (0 + 0) 0 0) as Heq.
  destruct (cost_loop fuel _ _ _ _ _ _ (0 + 0) (0 + 0)) as [[[vs i] o]|];
    destruct (cost_loop fuel _ _ _ _ _ _ 0 0) as [[[vs2 i2] o2]|];
    simpl in *; congruence.
Qed.

(** The estimator's windows are the leading windows of the scheduler's, and
    all of them when the window starts come down on [rank_start] exactly. *)
Lemma cost_windows_prefix fuel rank_start rank_end window_size step ws :
  0 < step → 0 < window_size →
  windows fuel rank_start step (rank_end - window_size) rank_end = Some ws →
  ∃ cs, cost_windows fuel rank_start rank_end window_size step = Some cs
        ∧ cs `prefix_of` ws
        ∧ ((step | rank_end - window_size - rank_start) →
           rank_start - step ≤ rank_end - window_size → cs = ws).
Proof.
  intros Hstep Hsize. revert rank_end ws.
  induction fuel as [|fuel IH]; intros re ws.
  - simpl. unfold cost_windows. simpl.
    case_bool_decide as Hc; [done|]. intros [= <-].
    case_bool_decide as Hge; [lia|]. eexists; split_and!; [done..|].
    done.
  - rewrite windows_unfold, cost_windows_unfold.
    case_bool_decide as Hc; case_bool_decide as Hge; try lia.
    + rewrite Z.max_l by lia.
      replace (re - window_size - step) with (re - step - window_size) by lia.
      destruct (windows fuel _ _ _ _) as [rest|] eqn:Hrest; [|done].
      intros [= <-].
      destruct (IH (re - step) rest Hrest) as (cs & -> & Hpre & Heq).
      eexists; split_and!; [done|by apply prefix_cons|].
      intros Hdiv Hlow. f_equal. apply Heq.
      * replace (re - step - window_size - rank_start)
          with (re - window_size - rank_start - step) by lia.
        by apply Z.divide_sub_r, Z.divide_refl.
      * lia.
    + intros _. eexists; split_and!; [done|apply prefix_nil|].
      intros [k Hk] Hlow. exfalso. destruct Hc as [_ Hne].
      assert (k = -1) as -> by nia. lia.
    + intros [= <-]. eexists; split_and!; [done..|]. done.
Qed.

End schedule_claims.

(** The estimator does not visit the scheduler's windows in the setting
    [rank_start=0, rank_end=25, window_size=20, step=10]: the scheduler goes
    on to the clamped window (0,15), the estimator stops before it. *)
Lemma cost_windows_differ :
  windows 10 0 10 (25 - 20) 25 = Some [(5, 25); (0, 15)]
  ∧ cost_windows 10 0 25 20 10 = Some [(5, 25)]
  ∧ cost_windows 10 0 25 20 10 ≠ windows 10 0 10 (25 - 20) 25.
Proof. by vm_compute. Qed.

(** C7, amended.  With a positive step and window size, the windows that
    [get_ranking_cost] visits for a result are the leading windows of the
    ones [sliding_windows] processes; the two sequences are the same when the
    first window starts at or above [rank_start] and the window starts, going
    down by [step], come down on [rank_start] exactly. *)
Theorem cost_windows_lead_schedule rank_start rank_end window_size step fuel :
  0 < step → 0 < window_size →
  rank_end - rank_start ≤ Z.of_nat fuel →
  ∃ ws cs,
    windows fuel rank_start step (rank_end - window_size) rank_end = Some ws
    ∧ cost_windows fuel rank_start rank_end window_size step = Some cs
    ∧ cs `prefix_of` ws
    ∧ ((step | rank_end - window_size - rank_start) →
       rank_start ≤ rank_end - window_size → cs = ws).
Proof.
  intros Hstep Hsize Hfuel.
  destruct (windows_terminates fuel rank_start step (rank_end - window_size) rank_end)
    as [ws Hws]; [done..|].
  destruct (cost_windows_prefix _ _ _ _ _ _ Hstep Hsize Hws) as (cs & Hcs & Hpre & Heq).
  exists ws, cs. split_and!; [done..|]. intros Hdiv Hlow. apply Heq; [done|lia].
Qed.

Lemma cost_windows_lead_schedule_witness :
  ∃ ws cs,
    windows 100 0 10 (100 - 20) 100 = Some ws
    ∧ cost_windows 100 0 100 20 10 = Some cs
    ∧ cs `prefix_of` ws
    ∧ ((10 | 100 - 20 - 0) → 0 ≤ 100 - 20 → cs = ws).
Proof. apply (cost_windows_lead_schedule 0 100 20 10 100); lia. Defined.

(** ** Invariants of the store *)

Section invariant.
Context {U : Unicode} {V Prompt : Type}.

Local Abbreviation obj := (obj V Prompt).
Local Abbreviation world := (world V Prompt).
Local Abbreviation M := (M V Prompt).

(** The objects that an object refers to. *)
Definition refs (o : obj) : list loc :=
  match o with
  | ObjResult h t => h :: option_list t
  | ObjList items => items
  | ObjDict _ => []
  | ObjTrace _ => []
  end.

(** [inv] is an invariant of the world, and [ok] holds of the objects that a
    computation may modify.  [keeps m Q]: [m] maintains [inv] however it
    ends, and a value it returns satisfies [Q]. *)
Variable inv : world → Prop.
Variable ok : loc → Prop.

Definition keeps {A} (m : M A) (Q : A → Prop) : Prop :=
  ∀ w, inv w → inv (m w).2 ∧ ∀ a, (m w).1 = Ok a → Q a.

(** What the invariant must allow: reading anything; writing an [ok] object
    that refers to [ok] objects, at an [ok] identity or at a new one. *)
Hypothesis inv_read : ∀ l, keeps (read l) (λ o, ok l → Forall ok (refs o)).
Hypothesis inv_write : ∀ l o, ok l → Forall ok (refs o) → keeps (write l o) (λ _, True).
Hypothesis inv_alloc : ∀ o, Forall ok (refs o) → keeps (alloc o) ok.
Hypothesis inv_log : ∀ e, keeps (log e) (λ _, True).

Lemma keeps_ret {A} (a : A) (Q : A → Prop) : Q a → keeps (mret a) Q.
Proof. intros Ha w Hw. split; [done|]. by intros a' [= <-]. Qed.

Lemma keeps_raise {A} e (Q : A → Prop) : keeps (raise e) Q.
Proof. by intros w Hw. Qed.

Lemma keeps_out_of_fuel {A} (Q : A → Prop) : keeps out_of_fuel Q.
Proof. by intros w Hw. Qed.

Lemma keeps_get_world (Q : world → Prop) : (∀ w, Q w) → keeps get_world Q.
Proof. intros HQ w Hw. split; [done|]. intros a _. apply HQ. Qed.

Lemma keeps_bind {A B} (m : M A) (k : A → M B) (Q : A → Prop) (R : B → Prop) :
  keeps m Q → (∀ a, Q a → keeps (k a) R) → keeps (m ≫= k) R.
Proof.
  intros Hm Hk w Hw. unfold mbind, M_bind.
  destruct (Hm w Hw) as [Hinv HQ].
  destruct (m w) as [[a| |] w']; simpl in *; [|done..].
  by apply (Hk a (HQ a eq_refl)).
Qed.

Lemma keeps_weaken {A} (m : M A) (Q R : A → Prop) :
  keeps m Q → (∀ a, Q a → R a) → keeps m R.
Proof. intros Hm HQR w Hw. destruct (Hm w Hw) as [? HQ]. split; [done|]. eauto. Qed.

Lemma keeps_fmap {A B} (f : A → B) (m : M A) (Q : A → Prop) (R : B → Prop) :
  keeps m Q → (∀ a, Q a → R (f a)) → keeps (f <$> m) R.
Proof.
  intros Hm HQR. unfold fmap, M_fmap.
  eapply keeps_bind; [done|]. intros a Ha. apply keeps_ret. auto.
Qed.

Lemma keeps_getitem {A} (l : list A) i (Q : A → Prop) :
  Forall Q l → keeps (getitem l i) Q.
Proof.
  intros Hl. unfold getitem.
  destruct (position (length l) i ≫= _) as [a|] eqn:Ha; [|apply keeps_raise].
  apply keeps_ret. apply bind_Some in Ha as (k & _ & Hk).
  by eapply Forall_lookup_1.
Qed.

Lemma keeps_read_result r :
  keeps (read_result r) (λ ht, ok r → ok ht.1 ∧ ∀ tl, ht.2 = Some tl → ok tl).
Proof.
  unfold read_result. eapply keeps_bind; [apply inv_read|].
  intros [h t| | |] Ho; try apply keeps_raise.
  apply keeps_ret. intros Hr. specialize (Ho Hr). simpl in *.
  apply Forall_cons in Ho as [Hh Ht]. split; [done|].
  intros tl ->. by apply Forall_cons in Ht as [? _].
Qed.

Lemma keeps_read_list h : keeps (read_list h) (λ items, ok h → Forall ok items).
Proof.
  unfold read_list. eapply keeps_bind; [apply inv_read|].
  intros [| | |] Ho; try apply keeps_raise. by apply keeps_ret.
Qed.

Lemma keeps_read_dict l : keeps (read_dict l) (λ _, True).
Proof.
  unfold read_dict. eapply keeps_bind; [apply inv_read|].
  intros [| | |] Ho; try apply keeps_raise. by apply keeps_ret.
Qed.

Lemma keeps_read_trace t : keeps (read_trace t) (λ _, True).
Proof.
  unfold read_trace. eapply keeps_bind; [apply inv_read|].
  intros [| | |] Ho; try apply keeps_raise. by apply keeps_ret.
Qed.

Lemma keeps_attr_hits r : ok r → keeps (attr_hits r) ok.
Proof.
  intros Hr. unfold attr_hits. eapply keeps_fmap; [apply keeps_read_result|].
  intros [h t] H. by destruct (H Hr).
Qed.

Lemma keeps_attr_summary r :
  ok r → keeps (attr_summary r) (λ t, ∀ tl, t = Some tl → ok tl).
Proof.
  intros Hr. unfold attr_summary. eapply keeps_fmap; [apply keeps_read_result|].
  intros [h t] H. by destruct (H Hr).
Qed.

Lemma keeps_set_summary r t : ok r → ok t → keeps (set_summary r t) (λ _, True).
Proof.
  intros Hr Ht. unfold set_summary. eapply keeps_bind; [apply keeps_read_result|].
  intros [h t'] H. apply inv_write; [done|]. simpl.
  destruct (H Hr) as [Hh _]. by repeat constructor.
Qed.

Lemma keeps_list_getitem h i : ok h → keeps (list_getitem h i) ok.
Proof.
  intros Hh. unfold list_getitem. eapply keeps_bind; [apply keeps_read_list|].
  intros items Hitems. apply keeps_getitem. auto.
Qed.

Lemma keeps_list_setitem h i l : ok h → ok l → keeps (list_setitem h i l) (λ _, True).
Proof.
  intros Hh Hl. unfold list_setitem. eapply keeps_bind; [apply keeps_read_list|].
  intros items Hitems. destruct (position _ _) as [k|]; [|apply keeps_raise].
  apply inv_write; [done|]. simpl. apply Forall_insert; auto.
Qed.

Lemma keeps_trace_append t info : ok t → keeps (trace_append t info) (λ _, True).
Proof.
  intros Ht. unfold trace_append. eapply keeps_bind; [apply keeps_read_trace|].
  intros entries _. by apply inv_write.
Qed.

Lemma keeps_dict_contains l key : keeps (dict_contains l key) (λ _, True).
Proof.
  unfold dict_contains. eapply keeps_bind; [apply keeps_read_dict|].
  intros d _. by apply keeps_ret.
Qed.

Lemma keeps_dict_setitem l key v : ok l → keeps (dict_setitem l key v) (λ _, True).
Proof.
  intros Hl. unfold dict_setitem. eapply keeps_bind; [apply keeps_read_dict|].
  intros d _. by apply inv_write.
Qed.

Lemma keeps_lookup_key d key : keeps (lookup_key d key) (λ _, True).
Proof. unfold lookup_key. destruct (d !! key); [by apply keeps_ret|apply keeps_raise]. Qed.

(** *** The methods *)

Lemma keeps_mapM {A B} (f : A → M B) (l : list A) (Q : B → Prop) :
  (∀ a, keeps (f a) Q) → keeps (mapM f l) (Forall Q).
Proof.
  intros Hf. induction l as [|a l IH]; simpl.
  - by apply keeps_ret.
  - eapply keeps_bind; [apply Hf|]. intros b Hb.
    eapply keeps_bind; [apply IH|]. intros bs Hbs.
    apply keeps_ret. by constructor.
Qed.

Lemma keeps_set_positional result cut_range rank_start j key :
  ok result → keeps (set_positional result cut_range rank_start j key) (λ _, True).
Proof.
  intros Hr. unfold set_positional.
  eapply keeps_bind; [by apply keeps_attr_hits|]. intros hits Hhits.
  eapply keeps_bind; [by apply keeps_list_getitem|]. intros hit Hhit.
  eapply keeps_bind; [apply keeps_dict_contains|]. intros [] _; [|by apply keeps_ret].
  eapply keeps_bind; [apply (keeps_getitem _ _ (λ _, True)), Forall_true; done|].
  intros old _.
  eapply keeps_bind; [apply keeps_lookup_key|]. intros v _.
  eapply keeps_bind; [by apply keeps_attr_hits|]. intros hits' Hhits'.
  eapply keeps_bind; [by apply keeps_list_getitem|]. intros hit' Hhit'.
  by apply keeps_dict_setitem.
Qed.

Lemma keeps_reorder result cut_range rank_start j response :
  ok result → keeps (reorder result cut_range rank_start j response) (λ _, True).
Proof.
  intros Hr. revert j. induction response as [|x rest IH]; intros j; simpl.
  - by apply keeps_ret.
  - eapply keeps_bind; [apply (keeps_getitem _ _ (λ _, True)), Forall_true; done|].
    intros d _.
    eapply keeps_bind; [by apply inv_alloc|]. intros hit Hhit.
    eapply keeps_bind; [by apply keeps_attr_hits|]. intros hits Hhits.
    eapply keeps_bind; [by apply keeps_list_setitem|]. intros _ _.
    eapply keeps_bind; [by apply keeps_set_positional|]. intros _ _.
    eapply keeps_bind; [by apply keeps_set_positional|]. intros _ _.
    apply IH.
Qed.

Lemma keeps_receive_permutation self result permutation rank_start rank_end use_alpha :
  ok result →
  keeps (receive_permutation self result permutation rank_start rank_end use_alpha) ok.
Proof.
  intros Hr. unfold receive_permutation.
  destruct (parsed_response _ _ _) as [response|]; [|apply keeps_raise].
  eapply keeps_bind; [by apply keeps_attr_hits|]. intros hits Hhits.
  eapply keeps_bind; [apply keeps_read_list|]. intros items _.
  eapply keeps_bind; [apply keeps_mapM, keeps_read_dict|]. intros cut_range _.
  eapply keeps_bind; [by apply keeps_reorder|]. intros _ _.
  by apply keeps_ret.
Qed.

Lemma keeps_record_and_receive self result info rank_start rank_end use_alpha :
  ok result →
  keeps (record_and_receive self result info rank_start rank_end use_alpha) ok.
Proof.
  intros Hr. unfold record_and_receive.
  eapply keeps_bind; [by apply keeps_attr_summary|]. intros summary _.
  eapply keeps_bind.
  { instantiate (1 := λ _, True). destruct summary; [by apply keeps_ret|].
    eapply keeps_bind; [by apply inv_alloc|]. intros t Ht.
    by apply keeps_set_summary. }
  intros _ _.
  eapply keeps_bind; [by apply keeps_attr_summary|]. intros summary' Hsummary.
  eapply keeps_bind.
  { instantiate (1 := λ _, True). destruct summary' as [t|]; [|apply keeps_raise].
    apply keeps_trace_append. by apply Hsummary. }
  intros _ _. by apply keeps_receive_permutation.
Qed.

Lemma keeps_permutation_pipeline self result use_logits use_alpha rank_start rank_end :
  ok result →
  keeps (permutation_pipeline self result use_logits use_alpha rank_start rank_end) ok.
Proof.
  intros Hr. unfold permutation_pipeline, call_create_prompt, call_run_llm.
  eapply keeps_bind.
  { instantiate (1 := λ _, True).
    eapply keeps_bind; [apply inv_log|]. intros _ _.
    eapply keeps_bind; [by apply (keeps_get_world (λ _, True))|]. intros w _.
    by apply keeps_ret. }
  intros [prompt in_token_count] _.
  eapply keeps_bind.
  { instantiate (1 := λ _, True).
    eapply keeps_bind; [apply inv_log|]. intros _ _.
    eapply keeps_bind; [by apply (keeps_get_world (λ _, True))|]. intros w _.
    by apply keeps_ret. }
  intros [permutation out_token_count] _.
  by apply keeps_record_and_receive.
Qed.

Lemma keeps_batched_loop self batched_results use_alpha rank_start rank_end index
    results prompts :
  Forall ok (take (length prompts) results) →
  keeps (batched_loop self batched_results use_alpha rank_start rank_end index
           results prompts) (λ _, True).
Proof.
  revert index prompts. induction results as [|result results IH];
    intros index [|[prompt in_token_count] prompts] Hok; simpl; try by apply keeps_ret.
  simpl in Hok. apply Forall_cons in Hok as [Hr Hok].
  eapply keeps_bind; [apply (keeps_getitem _ _ (λ _, True)), Forall_true; done|].
  intros [permutation out_token_count] _.
  eapply keeps_bind; [by apply keeps_record_and_receive|]. intros _ _.
  by apply IH.
Qed.

Lemma keeps_permutation_pipeline_batched self results use_logits use_alpha
    rank_start rank_end :
  Forall ok results →
  keeps (permutation_pipeline_batched self results use_logits use_alpha
           rank_start rank_end) (Forall ok).
Proof.
  intros Hok.
  unfold permutation_pipeline_batched, call_create_prompt_batched, call_run_llm_batched.
  eapply keeps_bind.
  { instantiate (1 := λ _, True).
    eapply keeps_bind; [apply inv_log|]. intros _ _.
    eapply keeps_bind; [by apply (keeps_get_world (λ _, True))|]. intros w _.
    by apply keeps_ret. }
  intros prompts _.
  eapply keeps_bind.
  { instantiate (1 := λ _, True).
    eapply keeps_bind; [apply inv_log|]. intros _ _.
    eapply keeps_bind; [by apply (keeps_get_world (λ _, True))|]. intros w _.
    by apply keeps_ret. }
  intros batched_results _.
  eapply keeps_bind; [by apply keeps_batched_loop, Forall_take|]. intros _ _.
  by apply keeps_ret.
Qed.

Lemma keeps_sliding_loop {A} fuel (pipeline : A → Z → Z → M A) (Q : A → Prop) a
    rank_start step start_pos end_pos :
  (∀ a s e, Q a → keeps (pipeline a s e) Q) →
  Q a →
  keeps (sliding_loop fuel pipeline a rank_start step start_pos end_pos) Q.
Proof.
  intros Hpipe. revert a start_pos end_pos.
  induction fuel as [|fuel IH]; intros a s e Ha; simpl.
  - case_bool_decide; [apply keeps_out_of_fuel|by apply keeps_ret].
  - case_bool_decide; [|by apply keeps_ret].
    eapply keeps_bind; [by apply Hpipe|]. intros a' Ha'. by apply IH.
Qed.

Lemma keeps_deepcopy_items memo items :
  (∀ l l', memo !! l = Some l' → ok l') →
  keeps (deepcopy_items memo items) (Forall ok).
Proof.
  revert memo. induction items as [|l items IH]; intros memo Hmemo; simpl.
  - by apply keeps_ret.
  - destruct (memo !! l) as [l'|] eqn:Hl.
    + eapply keeps_bind; [by apply IH|]. intros rest Hrest.
      apply keeps_ret. constructor; [by eapply Hmemo|done].
    + eapply keeps_bind; [apply keeps_read_dict|]. intros d _.
      eapply keeps_bind; [by apply inv_alloc|]. intros l' Hl'.
      eapply keeps_bind.
      { apply IH. intros l1 l1'. rewrite lookup_insert.
        case_decide; [by intros [= <-]|by apply Hmemo]. }
      intros rest Hrest. apply keeps_ret. by constructor.
Qed.

(** A deep copy is made of new objects only. *)
Lemma keeps_deepcopy_result result : keeps (deepcopy_result result) ok.
Proof.
  unfold deepcopy_result.
  eapply keeps_bind; [apply keeps_read_result|]. intros [h t] _.
  eapply keeps_bind; [apply keeps_read_list|]. intros items _.
  eapply keeps_bind; [by apply keeps_deepcopy_items|]. intros items' Hitems'.
  eapply keeps_bind; [by apply inv_alloc|]. intros h' Hh'.
  eapply keeps_bind.
  { instantiate (1 := λ t', ∀ tl, t' = Some tl → ok tl).
    destruct t as [tl|]; [|by apply keeps_ret].
    eapply keeps_bind; [apply keeps_read_trace|]. intros entries _.
    eapply keeps_bind; [by apply inv_alloc|]. intros tl' Htl'.
    apply keeps_ret. by intros ? [= <-]. }
  intros t' Ht'. apply inv_alloc. simpl. constructor; [done|].
  destruct t' as [tl|]; simpl; [|done]. constructor; [by apply Ht'|done].
Qed.

Lemma keeps_sliding_windows self fuel retrieved_result use_logits use_alpha
    rank_start rank_end window_size step :
  keeps (sliding_windows self fuel retrieved_result use_logits use_alpha
           rank_start rank_end window_size step) ok.
Proof.
  unfold sliding_windows.
  eapply keeps_bind; [apply keeps_deepcopy_result|]. intros r Hr.
  apply keeps_sliding_loop; [|done].
  intros. by apply keeps_permutation_pipeline.
Qed.

Lemma keeps_sliding_windows_batched self fuel retrieved_results use_logits use_alpha
    rank_start rank_end window_size step :
  keeps (sliding_windows_batched self fuel retrieved_results use_logits use_alpha
           rank_start rank_end window_size step) (Forall ok).
Proof.
  unfold sliding_windows_batched.
  eapply keeps_bind; [apply keeps_mapM, keeps_deepcopy_result|]. intros rs Hrs.
  apply keeps_sliding_loop; [|done].
  intros. by apply keeps_permutation_pipeline_batched.
Qed.

End invariant.

(** ** What the top-level entry points leave unchanged *)

Section frame.
Context {U : Unicode} {V Prompt : Type}.

Local Abbreviation obj := (obj V Prompt).
Local Abbreviation world := (world V Prompt).

(** [l] is no object of the part [σ0] of the store. *)
Definition outside (σ0 : gmap loc obj) (l : loc) : Prop := l ∉ dom σ0.

(** The part [σ0] of the store is as it was, and no object outside of it
    refers to an object of it. *)
Definition sealed (σ0 : gmap loc obj) (w : world) : Prop :=
  σ0 ⊆ heap w
  ∧ ∀ l o, heap w !! l = Some o → outside σ0 l → Forall (outside σ0) (refs o).

Lemma sealed_read σ0 l :
  keeps (sealed σ0) (read l) (λ o, outside σ0 l → Forall (outside σ0) (refs o)).
Proof.
  intros w Hw. unfold read. destruct (heap w !! l) as [o|] eqn:Hl; simpl; [|done].
  split; [done|]. intros o' [= <-]. by apply Hw.
Qed.

Lemma sealed_insert σ0 l o w :
  sealed σ0 w → outside σ0 l → Forall (outside σ0) (refs o) →
  sealed σ0 (World (<[l:=o]> (heap w)) (calls w)).
Proof.
  intros [Hsub Hrefs] Hl Ho. split; simpl.
  - apply insert_subseteq_r; [by apply not_elem_of_dom|done].
  - intros l' o'. rewrite lookup_insert. case_decide; [by intros [= <-]|]. apply Hrefs.
Qed.

Lemma sealed_write σ0 l o :
  outside σ0 l → Forall (outside σ0) (refs o) →
  keeps (sealed σ0) (write l o) (λ _, True).
Proof. intros Hl Ho w Hw. split; [|done]. by apply sealed_insert. Qed.

Lemma sealed_alloc σ0 o :
  Forall (outside σ0) (refs o) → keeps (sealed σ0) (alloc o) (outside σ0).
Proof.
  intros Ho w Hw.
  assert (outside σ0 (fresh (dom (heap w)))) as Hfresh.
  { intros Hin. apply (is_fresh (dom (heap w))).
    destruct Hw as [Hsub _]. by apply (subseteq_dom _ _ Hsub). }
  split; simpl; [by apply sealed_insert|]. by intros l [= <-].
Qed.

Lemma sealed_log σ0 e : keeps (sealed σ0) (log e) (λ _, True).
Proof. by intros w Hw. Qed.

(** A store is sealed with respect to the whole of itself. *)
Lemma sealed_self w : sealed (heap w) w.
Proof.
  split; [done|]. intros l o Hl Hout. exfalso. apply Hout. by apply elem_of_dom.
Qed.

(** The hits and the execution records of a result are read from objects
    that a larger store holds unchanged. *)
Lemma hits_of_weaken (σ σ' : gmap loc obj) r hits :
  σ ⊆ σ' → hits_of σ r = Some hits → hits_of σ' r = Some hits.
Proof.
  intros Hsub. unfold hits_of.
  destruct (σ !! r) as [[h t| | |]|] eqn:Hr; try done.
  rewrite (lookup_weaken _ _ _ _ Hr Hsub).
  destruct (σ !! h) as [[|items| |]|] eqn:Hh; try done.
  rewrite (lookup_weaken _ _ _ _ Hh Hsub).
  rewrite !mapM_Some. intros HF. eapply Forall2_impl; [done|].
  intros l d. unfold dict_at.
  destruct (σ !! l) as [[| |d'|]|] eqn:Hl; try done.
  by rewrite (lookup_weaken _ _ _ _ Hl Hsub).
Qed.

Lemma trace_of_weaken (σ σ' : gmap loc obj) r entries :
  σ ⊆ σ' → trace_of σ r = Some entries → trace_of σ' r = Some entries.
Proof.
  intros Hsub. unfold trace_of.
  destruct (σ !! r) as [[h [t|]| | |]|] eqn:Hr; try done;
    rewrite (lookup_weaken _ _ _ _ Hr Hsub); [|done].
  destruct (σ !! t) as [[| | |es]|] eqn:Ht; try done.
  by rewrite (lookup_weaken _ _ _ _ Ht Hsub).
Qed.

(** C8.  [sliding_windows] and [sliding_windows_batched] work on deep
    copies: however a call ends, every object that the store held before the
    call is in the store after it, unchanged, so every result has the hits (in
    their order, with all their fields) and the execution records it had; and
    what is returned are new objects. *)
Theorem sliding_windows_keep_the_input :
  (∀ (self : RankLLM V Prompt) fuel retrieved_result use_logits use_alpha
     rank_start rank_end window_size step w,
     let run := sliding_windows self fuel retrieved_result use_logits use_alpha
                  rank_start rank_end window_size step w in
     heap w ⊆ heap run.2
     ∧ (∀ r hits, hits_of (heap w) r = Some hits → hits_of (heap run.2) r = Some hits)
     ∧ (∀ r entries,
          trace_of (heap w) r = Some entries → trace_of (heap run.2) r = Some entries)
     ∧ (∀ r', run.1 = Ok r' → r' ∉ dom (heap w)))
  ∧ (∀ (self : RankLLM V Prompt) fuel retrieved_results use_logits use_alpha
       rank_start rank_end window_size step w,
       let run := sliding_windows_batched self fuel retrieved_results use_logits
                    use_alpha rank_start rank_end window_size step w in
       heap w ⊆ heap run.2
       ∧ (∀ r hits, hits_of (heap w) r = Some hits → hits_of (heap run.2) r = Some hits)
       ∧ (∀ r entries,
            trace_of (heap w) r = Some entries → trace_of (heap run.2) r = Some entries)
       ∧ (∀ rs', run.1 = Ok rs' → Forall (λ r', r' ∉ dom (heap w)) rs')).
Proof.
  split.
  - intros self fuel r ul ua rs re wsz step w run.
    destruct (keeps_sliding_windows (sealed (heap w)) (outside (heap w))
                (sealed_read _) (sealed_write _) (sealed_alloc _) (sealed_log _)
                self fuel r ul ua rs re wsz step w (sealed_self w)) as [[Hsub _] Hok].
    split_and!; [done| | |done].
    + intros. by eapply hits_of_weaken.
    + intros. by eapply trace_of_weaken.
  - intros self fuel rs0 ul ua rs re wsz step w run.
    destruct (keeps_sliding_windows_batched (sealed (heap w)) (outside (heap w))
                (sealed_read _) (sealed_write _) (sealed_alloc _) (sealed_log _)
                self fuel rs0 ul ua rs re wsz step w (sealed_self w)) as [[Hsub _] Hok].
    split_and!; [done| | |done].
    + intros. by eapply hits_of_weaken.
    + intros. by eapply trace_of_weaken.
Qed.

End frame.

(** ** The batched pipeline on sequences of different lengths *)

Section batch.
Context {U : Unicode} {V Prompt : Type}.

Local Abbreviation world := (world V Prompt).

(** The loop over [zip(results, prompts)] runs on the leading elements of
    both lists, as many as the shorter list has. *)
Lemma batched_loop_zip (self : RankLLM V Prompt) batched_results use_alpha
    rank_start rank_end index results prompts (w : world) :
  let k := (length results `min` length prompts)%nat in
  batched_loop self batched_results use_alpha rank_start rank_end index results prompts w
  = batched_loop self batched_results use_alpha rank_start rank_end index
      (take k results) (take k prompts) w.
Proof.
  revert index prompts w. induction results as [|result results IH];
    intros index [|[prompt n] prompts] w; simpl; try done.
  unfold mbind, M_bind.
  destruct (getitem batched_results index w) as [[[permutation m]| |] w1]; [|done..].
  destruct (record_and_receive _ _ _ _ _ _ w1) as [[r'| |] w2]; [|done..].
  apply IH.
Qed.

(** The loop of the batched pipeline calls no collaborator. *)
Lemma batched_loop_calls (self : RankLLM V Prompt) batched_results use_alpha
    rank_start rank_end index results prompts (w : world) :
  calls (batched_loop self batched_results use_alpha rank_start rank_end index
           results prompts w).2 = calls w.
Proof.
  refine (proj1 (keeps_batched_loop (λ w', calls w' = calls w) (λ _, True) _ _ _
                   self batched_results use_alpha rank_start rank_end index
                   results prompts _ w eq_refl)).
  - intros l w' Hw'. unfold read. destruct (heap w' !! l); simpl; [|done].
    split; [done|]. intros. by apply Forall_true.
  - by intros l o _ _ w' Hw'.
  - by intros o _ w' Hw'.
  - by apply Forall_true.
Qed.

(** C9, amended.  [permutation_pipeline_batched] does not compare the
    lengths of the batch and of the rendered prompts.  Whatever they are, it
    first has the prompts rendered and the oracle invoked on all of them, and
    then goes through the pairs of [zip(results, prompts)]: the leading
    results and prompts, as many as the shorter sequence has.  No further
    call to a collaborator is made. *)
Theorem permutation_pipeline_batched_zips (self : RankLLM V Prompt) results
    use_logits use_alpha rank_start rank_end (w : world) :
  let w1 := World (heap w)
              (calls w ++ [CreatePromptBatched results use_alpha rank_start rank_end]) in
  let prompts := create_prompt_batched self w1 results use_alpha rank_start rank_end in
  let w2 := World (heap w)
              (calls w1 ++ [RunLLMBatched (fst <$> prompts) use_logits use_alpha
                              (rank_end - rank_start)]) in
  let batched_results :=
    run_llm_batched self w2 (fst <$> prompts) use_logits use_alpha
      (rank_end - rank_start) in
  let k := (length results `min` length prompts)%nat in
  let run := permutation_pipeline_batched self results use_logits use_alpha
               rank_start rank_end w in
  run = (batched_loop self batched_results use_alpha rank_start rank_end 0
           (take k results) (take k prompts);; mret results) w2
  ∧ calls run.2 = calls w2.
Proof.
  intros w1 prompts w2 batched_results k run.
  assert (run = (batched_loop self batched_results use_alpha rank_start rank_end 0
                   results prompts;; mret results) w2) as Hrun by done.
  split.
  - rewrite Hrun. unfold mbind, M_bind. by rewrite batched_loop_zip.
  - rewrite Hrun. unfold mbind, M_bind.
    pose proof (batched_loop_calls self batched_results use_alpha rank_start rank_end 0
                  results prompts w2) as Hcalls.
    by destruct (batched_loop _ _ _ _ _ _ _ _ w2) as [[[]| |] w3].
Qed.

End batch.

(** ** The permutation parser *)

Section text_facts.
Context {U : Unicode}.

Lemma take_drop_while p (s : text) : take_while p s ++ drop_while p s = s.
Proof. induction s as [|c s IH]; simpl; [done|]. destruct (p c); simpl; by f_equal. Qed.

Lemma Forall_take_while (P : N → Prop) p (s : text) :
  Forall P s → Forall P (take_while p s).
Proof.
  induction 1 as [|c s Hc Hs IH]; simpl; [done|]. destruct (p c); by constructor.
Qed.

Lemma Forall_drop_while (P : N → Prop) p (s : text) :
  Forall P s → Forall P (drop_while p s).
Proof.
  induction 1 as [|c s Hc Hs IH]; simpl; [done|]. destruct (p c); by try constructor.
Qed.

Lemma take_while_all p (s : text) : Forall (λ c, p c = true) (take_while p s).
Proof. induction s as [|c s IH]; simpl; [done|]. destruct (p c) eqn:Hc; by constructor. Qed.

Lemma drop_while_head p (s : text) c s' : drop_while p s = c :: s' → p c = false.
Proof.
  induction s as [|c0 s IH]; simpl; [done|].
  destruct (p c0) eqn:Hc; [done|]. by intros [= <- <-].
Qed.

Lemma drop_while_length p (s : text) : (length (drop_while p s) ≤ length s)%nat.
Proof. induction s as [|c s IH]; simpl; [done|]. destruct (p c); simpl; lia. Qed.

Lemma drop_while_all p (s : text) : Forall (λ c, p c = true) s → drop_while p s = [].
Proof. induction 1 as [|c s Hc Hs IH]; simpl; [done|]. by rewrite Hc. Qed.

Lemma Forall_strip (P : N → Prop) (s : text) : Forall P s → Forall P (strip s).
Proof.
  intros Hs. unfold strip. apply Forall_rev, Forall_drop_while, Forall_rev.
  by apply Forall_drop_while.
Qed.

(** Text that neither begins nor ends with whitespace is its own [strip]. *)
Lemma strip_id (s : text) c c' :
  head s = Some c → isspace c = false →
  last s = Some c' → isspace c' = false →
  strip s = s.
Proof.
  intros Hhead Hc Hlast Hc'. unfold strip.
  destruct s as [|c0 s]; [done|]. simpl in Hhead. injection Hhead as ->.
  cbn [drop_while]. rewrite Hc.
  apply last_Some in Hlast as [front Hfront]. rewrite Hfront.
  rewrite rev_unit. cbn [drop_while]. rewrite Hc'.
  by rewrite <-(rev_unit front c'), rev_involutive.
Qed.

(** *** [split] *)

(** The tokens of a text: each is non-empty and made of characters of the
    text that are no whitespace. *)
Lemma split_from_tokens (P : N → Prop) cur (s : text) :
  Forall P cur →
  Forall (λ c, isspace c = false → P c) s →
  Forall (λ x, x ≠ [] ∧ Forall P x) (split_from cur s).
Proof.
  intros Hcur Hs. revert cur Hcur.
  induction Hs as [|c s Hc Hs IH]; intros cur Hcur; simpl.
  - destruct cur as [|a cur]; [done|]. constructor; [|done]. split.
    + intros Hrev. apply (f_equal length) in Hrev.
      rewrite length_rev in Hrev. done.
    + by apply Forall_rev.
  - destruct (isspace c) eqn:Hsp.
    + destruct cur as [|a cur]; [by apply IH|]. constructor; [|by apply IH]. split.
      * intros Hrev. apply (f_equal length) in Hrev.
        rewrite length_rev in Hrev. done.
      * by apply Forall_rev.
    + apply IH. constructor; auto.
Qed.

Lemma split_tokens (P : N → Prop) (s : text) :
  Forall (λ c, isspace c = false → P c) s →
  Forall (λ x, x ≠ [] ∧ Forall P x) (split s).
Proof. by apply split_from_tokens. Qed.

(** *** [ranked_list_pattern] *)

(** The shape of a matched group: it begins with an opening bracket and ends
    with a closing one. *)
Definition bracket_ends (g : text) : Prop :=
  head g = Some 91%N ∧ last g = Some 93%N.

Lemma bracketed_spec (s item rest : text) :
  bracketed s = Some (item, rest) →
  s = item ++ rest ∧ bracket_ends item.
Proof.
  unfold bracketed. destruct s as [|c s1]; [done|].
  destruct (N.eqb_spec c 91) as [->|]; [|done].
  pose proof (take_drop_while isdecimal s1) as Hs1.
  destruct (take_while isdecimal s1) as [|d ds]; [done|].
  destruct (drop_while isdecimal s1) as [|c' rest']; [done|].
  destruct (N.eqb_spec c' 93) as [->|]; [|done].
  intros [= <- <-]. split; [|split].
  - rewrite <-Hs1. simpl. by rewrite <-!app_assoc.
  - done.
  - change (91%N :: d :: ds ++ [93%N]) with ((91%N :: d :: ds) ++ [93%N]).
    apply last_snoc.
Qed.

Lemma more_items_spec fuel (s more rest : text) :
  more_items fuel s = (more, rest) →
  s = more ++ rest ∧ (more = [] ∨ last more = Some 93%N).
Proof.
  revert s more rest. induction fuel as [|fuel IH]; intros s more rest; simpl.
  { intros [= <- <-]. auto. }
  pose proof (take_drop_while isspace s) as Hs.
  destruct (drop_while isspace s) as [|c s1] eqn:Hdrop; [intros [= <- <-]; auto|].
  destruct (N.eqb_spec c 62) as [->|]; [|intros [= <- <-]; auto].
  pose proof (take_drop_while isspace s1) as Hs1.
  destruct (bracketed (drop_while isspace s1)) as [[item rest1]|] eqn:Hitem;
    [|intros [= <- <-]; auto].
  apply bracketed_spec in Hitem as [Hsplit [_ Hlast]].
  destruct (more_items fuel rest1) as [more1 rest1'] eqn:Hmore.
  apply IH in Hmore as [-> Hmore]. intros [= <- <-]. split.
  - rewrite <-app_assoc. simpl. rewrite <-!app_assoc, <-Hsplit, Hs1. by rewrite Hs.
  - right. rewrite last_app_cons, last_cons, !last_app.
    destruct Hmore as [-> | ->]; [|done]. simpl. by rewrite Hlast.
Qed.

(** The fuel that [match_ranked_list] gives is enough: with [length s] rounds
    or more, the repetition stops because the text no longer matches, never
    because the rounds are used up. *)
Lemma more_items_fuel fuel fuel' (s : text) :
  (length s ≤ fuel)%nat → (length s ≤ fuel')%nat →
  more_items fuel s = more_items fuel' s.
Proof.
  revert fuel' s. induction fuel as [|fuel IH]; intros fuel' s Hfuel Hfuel'.
  { destruct s; [|simpl in Hfuel; lia]. by destruct fuel'. }
  destruct fuel' as [|fuel'].
  { destruct s; [done|simpl in Hfuel'; lia]. }
  simpl. pose proof (drop_while_length isspace s) as Hs.
  destruct (drop_while isspace s) as [|c s1]; [done|].
  destruct (c =? 62)%N; [|done].
  pose proof (drop_while_length isspace s1) as Hs1.
  destruct (bracketed (drop_while isspace s1)) as [[item rest]|] eqn:Hitem; [|done].
  apply bracketed_spec in Hitem as [Hsplit _].
  rewrite Hsplit, length_app in Hs1. simpl in Hs.
  by rewrite (IH fuel' rest) by lia.
Qed.

Lemma match_ranked_list_spec (s g : text) n :
  match_ranked_list s = Some (g, n) →
  bracket_ends g ∧ ∀ P : N → Prop, Forall P s → Forall P g.
Proof.
  unfold match_ranked_list.
  destruct (bracketed (drop_while isspace s)) as [[item rest]|] eqn:Hitem; [|done].
  destruct (more_items (length rest) rest) as [more rest'] eqn:Hmore.
  intros [= <- <-].
  pose proof Hitem as Hitem'. apply bracketed_spec in Hitem' as [Hsplit [Hhead Hlast]].
  apply more_items_spec in Hmore as [-> Hmore]. split; [split|].
  - destruct item; [done|]. done.
  - rewrite last_app. destruct Hmore as [-> | ->]; [|done]. simpl. by rewrite Hlast.
  - intros P HP. apply (Forall_drop_while P isspace) in HP.
    rewrite Hsplit in HP. rewrite app_assoc in HP. by apply Forall_app in HP as [? _].
Qed.

Lemma findall_from_spec skip (s : text) :
  Forall bracket_ends (findall_from skip s)
  ∧ ∀ P : N → Prop, Forall P s → Forall (Forall P) (findall_from skip s).
Proof.
  revert skip. induction s as [|c s IH]; intros skip; simpl; [done|].
  destruct skip as [|k].
  - destruct (match_ranked_list (c :: s)) as [[g n]|] eqn:Hm.
    + apply match_ranked_list_spec in Hm as [Hg HP]. split.
      * constructor; [done|apply IH].
      * intros P Hs. constructor; [by apply HP|]. apply IH. by inversion Hs.
    + split; [apply IH|]. intros P Hs. apply IH. by inversion Hs.
  - split; [apply IH|]. intros P Hs. apply IH. by inversion Hs.
Qed.

Lemma bracket_ends_strip (g : text) : bracket_ends g → strip g = g ∧ g ≠ [].
Proof.
  intros [Hhead Hlast]. split; [|by destruct g].
  eapply strip_id; [done| |done|]; by rewrite ascii_isspace.
Qed.

(** *** [parse_reasoning_permutation] *)

Lemma contains_char c (s : text) : contains [c] s = bool_decide (c ∈ s).
Proof.
  unfold contains. induction s as [|a s IH]; simpl; [done|].
  destruct (N.eqb_spec c a) as [->|Hne]; simpl.
  - rewrite bool_decide_eq_true_2; [done|]. by left.
  - destruct (index [c] s); simpl in *.
    + symmetry. apply bool_decide_eq_true. right.
      symmetry in IH. by apply bool_decide_eq_true in IH.
    + symmetry. apply bool_decide_eq_false. intros Hin.
      apply elem_of_cons in Hin as [?|Hin]; [done|].
      symmetry in IH. by apply bool_decide_eq_false in IH.
Qed.

Lemma first_correct_match_find (cands : list text) :
  first_correct_match cands = snd <$> list_find (λ cand, 62%N ∈ cand) cands.
Proof.
  induction cands as [|cand rest IH]; simpl; [done|].
  change (py ">") with [62%N]. rewrite contains_char.
  case_bool_decide; simpl.
  - by rewrite decide_True.
  - rewrite decide_False by done. rewrite IH.
    by destruct (list_find _ rest) as [[]|].
Qed.

(** The region that the reasoning and answer markers delimit, cleared of the
    opening answer marker and stripped; [None] when a marker is absent. *)
Definition answer_region (response : text) : option text :=
  i ← index end_of_reasoning_tag response;
  j ← index end_of_answer_tag response;
  Some (strip (remove_all start_of_answer_tag (substring response i j))).

Lemma truthy_bracket_ends (o : option text) :
  (∀ m, o = Some m → bracket_ends m) → truthy o = bool_decide (is_Some o).
Proof. intros Hm. destruct o as [m|]; [|done]. destruct (Hm m eq_refl). by destruct m. Qed.

(** The search of the whole response: the first match that holds a [>]. *)
Lemma first_correct_match_search (response : text) :
  (if truthy (first_correct_match (findall response))
   then (default [] (first_correct_match (findall response)), true)
   else (response, false))
  = match list_find (λ cand, 62%N ∈ cand) (findall response) with
    | Some (_, cand) => (cand, true)
    | None => (response, false)
    end.
Proof.
  rewrite truthy_bracket_ends.
  - rewrite first_correct_match_find.
    by destruct (list_find _ _) as [[i cand]|].
  - rewrite first_correct_match_find. intros m Hm.
    apply fmap_Some in Hm as ([i cand] & Hfind & ->).
    apply list_find_Some in Hfind as (Hi & _ & _).
    destruct (findall_from_spec 0 response) as [Hends _].
    by eapply Forall_lookup_1 in Hends.
Qed.

Lemma parse_reasoning_permutation_region (response region m : text) :
  answer_region response = Some region → head (findall region) = Some m →
  parse_reasoning_permutation response = (m, true).
Proof.
  unfold parse_reasoning_permutation, answer_region, contains.
  destruct (index end_of_reasoning_tag response) as [i|]; simpl; [|done].
  destruct (index end_of_answer_tag response) as [j|]; simpl; [|done].
  intros [= <-] Hhead.
  destruct (findall_from_spec 0
              (strip (remove_all start_of_answer_tag (substring response i j))))
    as [Hends _].
  unfold findall in *. destruct (findall_from 0 _) as [|m' ms]; simplify_eq/=.
  apply Forall_cons in Hends as [Hm _].
  destruct (bracket_ends_strip m Hm) as [-> Hne]. by destruct m.
Qed.

Lemma parse_reasoning_permutation_whole (response : text) :
  answer_region response ≫= (λ region, head (findall region)) = None →
  parse_reasoning_permutation response =
    match list_find (λ cand, 62%N ∈ cand) (findall response) with
    | Some (_, cand) => (cand, true)
    | None => (response, false)
    end.
Proof.
  rewrite <- first_correct_match_search.
  unfold parse_reasoning_permutation, answer_region, contains.
  destruct (index end_of_reasoning_tag response) as [i|]; simpl;
    [|by destruct (index end_of_answer_tag response)].
  destruct (index end_of_answer_tag response) as [j|]; simpl; [|done].
  by destruct (findall _) as [|m ms].
Qed.

(** C6.  When both markers are present and the region between them holds a
    match of the ordered-list pattern, the first such match is returned with
    [matched = true].  Otherwise the whole response is searched: the first
    match that holds a [>] is returned with [matched = true], and when there
    is none the response itself is returned with [matched = false]. *)
Theorem parse_reasoning_permutation_fallback (response : text) :
  parse_reasoning_permutation response =
    match answer_region response ≫= (λ region, head (findall region)) with
    | Some m => (m, true)
    | None =>
        match list_find (λ cand, 62%N ∈ cand) (findall response) with
        | Some (_, cand) => (cand, true)
        | None => (response, false)
        end
    end.
Proof.
  destruct (answer_region response ≫= _) as [m|] eqn:Hregion.
  - apply bind_Some in Hregion as (region & Hregion & Hhead).
    by eapply parse_reasoning_permutation_region.
  - by apply parse_reasoning_permutation_whole.
Qed.

(** *** The cleaning step *)

(** What the loops of [_clean_response] put in place of a character. *)
Definition alpha_piece (c : N) : text :=
  if isalpha c then str (Z.of_N c - ALPH_START_IDX) else [32%N].

Definition digit_piece (c : N) : text :=
  if isdigit c then [c] else [32%N].

Lemma fold_left_pieces (piece : N → text) (step : text → N → text) (s acc : text) :
  (∀ a c, step a c = a ++ piece c) →
  fold_left step s acc = acc ++ flat_map piece s.
Proof.
  intros Hstep. revert acc. induction s as [|c s IH]; intros acc; simpl.
  - by rewrite app_nil_r.
  - by rewrite IH, Hstep, <-app_assoc.
Qed.

(** The response that is cleaned: in reasoning mode, what
    [parse_reasoning_permutation] extracts. *)
Definition extracted (_rerank_type : string) (response : text) : text :=
  if String.eqb _rerank_type "code_reasoning"
  then (parse_reasoning_permutation response).1
  else response.

Lemma clean_response_pieces _rerank_type response use_alpha :
  _clean_response _rerank_type response use_alpha
  = strip (flat_map (if use_alpha then alpha_piece else digit_piece)
             (extracted _rerank_type response)).
Proof.
  unfold _clean_response. fold (extracted _rerank_type response).
  destruct use_alpha.
  - rewrite (fold_left_pieces alpha_piece); [done|].
    intros a c. unfold alpha_piece. by destruct (isalpha c).
  - rewrite (fold_left_pieces digit_piece); [done|].
    intros a c. unfold digit_piece. by destruct (isdigit c).
Qed.


(** *** Decimal numerals *)

(** An ASCII decimal digit. *)
Definition ascii_digit (c : N) : Prop := (48 ≤ c ≤ 57)%N.

Lemma ascii_digit_isdecimal c : ascii_digit c → isdecimal c = true.
Proof. unfold ascii_digit. intros Hc. rewrite ascii_isdecimal by lia. table_cases. Qed.

Lemma ascii_digit_isdigit c : ascii_digit c → isdigit c = true.
Proof. unfold ascii_digit. intros Hc. rewrite ascii_isdigit by lia. table_cases. Qed.

Lemma ascii_digit_not_isspace c : ascii_digit c → isspace c = false.
Proof. unfold ascii_digit. intros Hc. rewrite ascii_isspace by lia. table_cases. Qed.

Lemma digits_of_uint_digits d : Forall ascii_digit (digits_of_uint d).
Proof. induction d; simpl; constructor; (done || unfold ascii_digit; lia). Qed.

Lemma str_digits n : 0 ≤ n → Forall ascii_digit (str n) ∧ str n ≠ [].
Proof.
  intros Hn. unfold str. rewrite (proj2 (Z.ltb_ge n 0)) by done.
  split; [apply digits_of_uint_digits|].
  destruct (Z.to_N n) as [|p] eqn:Hp; [done|]. simpl.
  pose proof (DecimalPos.Unsigned.to_uint_nonnil p) as Hnil.
  by destruct (Pos.to_uint p).
Qed.

Lemma forallb_all (p : N → bool) (x : text) :
  Forall (λ c, p c = true) x → forallb p x = true.
Proof. induction 1 as [|c x Hc Hx IH]; simpl; [done|]. by rewrite Hc, IH. Qed.

(** The value that [int] reads, from the accumulator [acc] on. *)
Definition digits_value (acc : Z) (x : text) : Z :=
  fold_left (λ acc c, acc * 10 + decimal_value c) x acc.

Lemma digits_value_revapp d acc :
  digits_value (Z.of_N (DecimalPos.Unsigned.of_lu acc)) (digits_of_uint d)
  = Z.of_N (DecimalPos.Unsigned.of_lu (Decimal.revapp d acc)).
Proof.
  unfold digits_value. revert acc.
  induction d as [|d IH|d IH|d IH|d IH|d IH|d IH|d IH|d IH|d IH|d IH]; intros acc;
    [done|..]; cbn [digits_of_uint fold_left Decimal.revapp];
    rewrite <-IH; f_equal; rewrite ascii_decimal_value by lia;
    cbn [DecimalPos.Unsigned.of_lu]; lia.
Qed.

(** [int(str(n)) = n] *)
Lemma int_str n : 0 ≤ n → int (str n) = Some n.
Proof.
  intros Hn. destruct (str_digits n Hn) as [Hdigits Hne].
  unfold int. destruct (str n) as [|c x] eqn:Hstr; [done|].
  rewrite <-Hstr in *. clear c x Hstr.
  rewrite forallb_all.
  2:{ eapply Forall_impl; [done|]. intros c Hc. by rewrite ascii_digit_isdecimal. }
  f_equal. unfold str. rewrite (proj2 (Z.ltb_ge n 0)) by done.
  pose proof (digits_value_revapp (N.to_uint (Z.to_N n)) Decimal.Nil) as Hvalue.
  unfold digits_value in Hvalue. simpl in Hvalue. rewrite Hvalue.
  change (Decimal.revapp ?d Decimal.Nil) with (Decimal.rev d).
  rewrite <-DecimalPos.Unsigned.of_uint_alt.
  change (Pos.of_uint ?d) with (N.of_uint d).
  rewrite DecimalN.Unsigned.of_to. lia.
Qed.

Lemma digits_value_ge acc (x : text) :
  0 ≤ acc → Forall ascii_digit x → acc ≤ digits_value acc x.
Proof.
  intros Hacc Hx. revert acc Hacc. unfold digits_value.
  induction Hx as [|c x Hc Hx IH]; intros acc Hacc; simpl; [done|].
  pose proof (ascii_decimal_value c Hc). unfold ascii_digit in Hc.
  etrans; [|apply IH]; lia.
Qed.

(** A token that denotes a positive integer: decimal digits whose value
    [int] reads as positive. *)
Definition positive_numeral (x : text) : Prop :=
  Forall ascii_digit x ∧ ∃ v, int x = Some v ∧ 0 < v.

Lemma block_positive_numeral n (more : text) :
  1 ≤ n → Forall ascii_digit more → positive_numeral (str n ++ more).
Proof.
  intros Hn Hmore. destruct (str_digits n ltac:(lia)) as [Hdigits Hne].
  assert (Forall ascii_digit (str n ++ more)) as Hall by by apply Forall_app.
  split; [done|]. exists (digits_value 0 (str n ++ more)). split.
  - assert (forallb isdecimal (str n ++ more) = true) as Hdec.
    { apply forallb_all. eapply Forall_impl; [done|].
      intros c Hc. by rewrite ascii_digit_isdecimal. }
    unfold int. rewrite Hdec. destruct (str n ++ more) as [|c x] eqn:Hx; [|done].
    by apply app_eq_nil in Hx as [? _].
  - unfold digits_value. rewrite fold_left_app.
    pose proof (int_str n ltac:(lia)) as Hint. unfold int in Hint.
    destruct (str n) as [|c x] eqn:Hstr; [done|]. rewrite <-Hstr in *.
    destruct (forallb isdecimal (str n)); [|done]. injection Hint as ->.
    pose proof (digits_value_ge n more ltac:(lia) Hmore). unfold digits_value in *. lia.
Qed.

(** *** More on [strip] and [split] *)

Lemma strip_nospace (s : text) : Forall (λ c, isspace c = false) s → strip s = s.
Proof.
  intros Hs. destruct s as [|c s]; [done|].
  destruct (last (c :: s)) as [c'|] eqn:Hlast.
  - eapply (strip_id _ c c'); [done| |done|].
    + by apply Forall_cons in Hs as [? _].
    + apply last_Some in Hlast as [front Hfront]. rewrite Hfront in Hs.
      apply Forall_app in Hs as [_ Hs]. by apply Forall_cons in Hs as [? _].
  - by apply last_None in Hlast.
Qed.

(** A run of characters that are no whitespace goes to the current token. *)
Lemma split_from_run cur (run s : text) :
  Forall (λ c, isspace c = false) run →
  split_from cur (run ++ s) = split_from (rev run ++ cur) s.
Proof.
  intros Hrun. revert cur. induction Hrun as [|c run Hc Hrun IH]; intros cur; [done|].
  simpl. rewrite Hc, IH. by rewrite <-app_assoc.
Qed.

Lemma split_nospace (s : text) :
  s ≠ [] → Forall (λ c, isspace c = false) s → split s = [s].
Proof.
  intros Hne Hs. unfold split.
  rewrite <-(app_nil_r s) at 1. rewrite split_from_run by done. simpl.
  rewrite app_nil_r. destruct (rev s) eqn:Hrev.
  - apply (f_equal (@rev N)) in Hrev. rewrite rev_involutive in Hrev. done.
  - by rewrite <-Hrev, rev_involutive.
Qed.

Lemma split_from_spaces cur (sp : text) :
  Forall (λ c, isspace c = true) sp → split_from cur sp = split_from cur [].
Proof.
  intros Hsp. revert cur. induction Hsp as [|c sp Hc Hsp IH]; intros cur; [done|].
  simpl. rewrite Hc. destruct cur; rewrite IH; done.
Qed.

Lemma split_from_trailing cur (s sp : text) :
  Forall (λ c, isspace c = true) sp → split_from cur (s ++ sp) = split_from cur s.
Proof.
  intros Hsp. revert cur. induction s as [|c s IH]; intros cur; simpl.
  - by apply split_from_spaces.
  - destruct (isspace c); [|done]. destruct cur; by rewrite IH.
Qed.

Lemma split_from_leading (s : text) :
  split_from [] (drop_while isspace s) = split_from [] s.
Proof.
  induction s as [|c s IH]; simpl; [done|].
  destruct (isspace c) eqn:Hc; [done|]. simpl. by rewrite Hc.
Qed.

(** The tokens of a text are those of its [strip]. *)
Lemma split_strip (s : text) : split (strip s) = split s.
Proof.
  unfold split, strip. rewrite <-(split_from_leading s).
  set (u := drop_while isspace s).
  pose proof (take_drop_while isspace (rev u)) as Hrev.
  apply (f_equal (@rev N)) in Hrev. rewrite rev_app_distr, rev_involutive in Hrev.
  rewrite <-Hrev at 2. symmetry. apply split_from_trailing.
  apply Forall_rev, take_while_all.
Qed.

(** *** What is cleaned holds characters of the response only *)

Lemma Forall_remove_from (P : N → Prop) sub skip (s : text) :
  Forall P s → Forall P (remove_from sub skip s).
Proof.
  intros Hs. revert skip. induction Hs as [|c s Hc Hs IH]; intros skip; simpl; [done|].
  destruct skip; [|done]. destruct (starts_with sub (c :: s)); [done|by constructor].
Qed.

Lemma Forall_parse_reasoning_permutation (P : N → Prop) (response : text) :
  Forall P response → Forall P (parse_reasoning_permutation response).1.
Proof.
  intros Hs.
  destruct (answer_region response ≫= (λ region, head (findall region)))
    as [m|] eqn:Hm.
  - apply bind_Some in Hm as (region & Hregion & Hhead).
    rewrite (parse_reasoning_permutation_region _ _ _ Hregion Hhead). simpl.
    unfold answer_region in Hregion.
    apply bind_Some in Hregion as (i & _ & Hregion).
    apply bind_Some in Hregion as (j & _ & [= <-]).
    apply head_Some_elem_of in Hhead.
    destruct (findall_from_spec 0
                (strip (remove_all start_of_answer_tag (substring response i j))))
      as [_ HP].
    eapply Forall_forall in HP; [done| |done].
    apply Forall_strip, Forall_remove_from, Forall_take, Forall_drop, Hs.
  - rewrite (parse_reasoning_permutation_whole _ Hm).
    destruct (list_find _ _) as [[i cand]|] eqn:Hfind; [|done]. simpl.
    apply list_find_Some in Hfind as (Hi & _ & _).
    destruct (findall_from_spec 0 response) as [_ HP].
    by eapply Forall_lookup_1 in HP.
Qed.

Lemma Forall_extracted (P : N → Prop) _rerank_type (response : text) :
  Forall P response → Forall P (extracted _rerank_type response).
Proof.
  intros Hs. unfold extracted. destruct (String.eqb _ _); [|done].
  by apply Forall_parse_reasoning_permutation.
Qed.

(** A letter is at or above [A]. *)
Lemma isalpha_ord c : isalpha c = true → 1 ≤ Z.of_N c - ALPH_START_IDX.
Proof.
  intros Hc. unfold ALPH_START_IDX.
  destruct (decide (c < 65)%N) as [Hlt|]; [|lia].
  rewrite ascii_isalpha in Hc by lia. table_cases.
Qed.

Lemma isspace_space : isspace 32%N = true.
Proof. by rewrite ascii_isspace. Qed.

(** Every token of a cleaned response is read by [int]: always in alphabetic
    mode, and in digit mode when the digit characters of the response are
    decimal ones. *)
Lemma parsed_response_total _rerank_type (permutation : text) use_alpha :
  (use_alpha = false → Forall (λ c, isdigit c = true → isdecimal c = true) permutation) →
  is_Some (parsed_response _rerank_type permutation use_alpha).
Proof.
  intros Hdigit.
  assert (Forall (λ c, use_alpha = false → isdigit c = true → isdecimal c = true)
            permutation) as Hs.
  { destruct use_alpha; [by apply Forall_true|].
    eapply Forall_impl; [by apply Hdigit|]. auto. }
  clear Hdigit. apply (Forall_extracted _ _rerank_type) in Hs.
  unfold parsed_response. rewrite clean_response_pieces.
  set (cleaned := strip _).
  assert (Forall (λ c, isspace c = false → isdecimal c = true) cleaned) as Hcleaned.
  { apply Forall_strip, Forall_flat_map.
    eapply Forall_impl; [done|]. intros c Hc. cbn beta in Hc. destruct use_alpha.
    - unfold alpha_piece. destruct (isalpha c) eqn:Halpha.
      + destruct (str_digits (Z.of_N c - ALPH_START_IDX)) as [Hdigits _].
        { pose proof (isalpha_ord c Halpha). lia. }
        eapply Forall_impl; [done|]. intros d Hd _. by apply ascii_digit_isdecimal.
      + constructor; [|done]. by rewrite isspace_space.
    - unfold digit_piece. destruct (isdigit c) eqn:Hdigit.
      + constructor; [|done]. auto.
      + constructor; [|done]. by rewrite isspace_space. }
  apply split_tokens in Hcleaned.
  destruct (mapM _ (split cleaned)) as [response|] eqn:HmapM; [done|].
  exfalso. apply eq_None_not_Some in HmapM. apply HmapM, mapM_is_Some.
  eapply Forall_impl; [done|]. intros x [Hne Hx]. cbn.
  unfold int. destruct x; [done|]. rewrite forallb_all by done. done.
Qed.

(** *** A response that names one index *)

Lemma index_absent (sub s : text) a sub' :
  sub = a :: sub' → a ∉ s → index sub s = None.
Proof.
  intros -> Ha. induction s as [|c s IH]; simpl; [done|].
  destruct (N.eqb_spec a c) as [->|_]; [by exfalso; apply Ha; left|]. simpl.
  rewrite IH; [done|]. intros Hin. apply Ha. by right.
Qed.

Lemma findall_no_bracket skip (s : text) : 91%N ∉ s → findall_from skip s = [].
Proof.
  revert skip. induction s as [|c s IH]; intros skip Hs; simpl; [done|].
  assert (91%N ∉ s) as Hs' by (intros Hin; apply Hs; by right).
  destruct skip; [|by apply IH].
  assert (match_ranked_list (c :: s) = None) as ->; [|by apply IH].
  unfold match_ranked_list.
  assert (Forall (λ c, c ≠ 91%N) (drop_while isspace (c :: s))) as Hdrop.
  { apply Forall_drop_while, Forall_forall. intros x Hx ->. done. }
  destruct (drop_while isspace (c :: s)) as [|c' s']; [done|].
  apply Forall_cons in Hdrop as [Hc' _]. unfold bracketed.
  by destruct (N.eqb_spec c' 91).
Qed.

Lemma parse_reasoning_permutation_digits (s : text) :
  Forall ascii_digit s → parse_reasoning_permutation s = (s, false).
Proof.
  intros Hs.
  assert (∀ c, ¬ ascii_digit c → c ∉ s) as Hnot.
  { intros c Hc Hin. eapply Forall_forall in Hs; [|done]. done. }
  rewrite parse_reasoning_permutation_whole.
  - unfold findall. rewrite findall_no_bracket; [done|].
    apply Hnot. unfold ascii_digit. lia.
  - unfold answer_region.
    rewrite (index_absent end_of_reasoning_tag s 60%N _ eq_refl); [done|].
    apply Hnot. unfold ascii_digit. lia.
Qed.

(** The decimal numeral of [n + 1] names the index [n]. *)
Lemma parsed_response_str _rerank_type n :
  0 ≤ n → parsed_response _rerank_type (str (n + 1)) false = Some [n].
Proof.
  intros Hn. destruct (str_digits (n + 1) ltac:(lia)) as [Hdigits Hne].
  unfold parsed_response. rewrite clean_response_pieces.
  assert (extracted _rerank_type (str (n + 1)) = str (n + 1)) as ->.
  { unfold extracted. destruct (String.eqb _ _); [|done].
    by rewrite parse_reasoning_permutation_digits. }
  assert (∀ x, Forall ascii_digit x → flat_map digit_piece x = x) as Hflat.
  { induction 1 as [|c x Hc Hx IH]; simpl; [done|].
    unfold digit_piece at 1. rewrite ascii_digit_isdigit by done. simpl. by f_equal. }
  rewrite Hflat by done.
  assert (Forall (λ c, isspace c = false) (str (n + 1))) as Hnospace.
  { eapply Forall_impl; [done|]. apply ascii_digit_not_isspace. }
  rewrite strip_nospace, split_nospace by done. simpl.
  rewrite int_str by lia. simpl. unfold _remove_duplicate. simpl.
  by replace (n + 1 - 1) with n by lia.
Qed.

(** *** The tokens of a response cleaned in alphabetic mode *)

Lemma split_from_alpha_pieces cur (s : text) :
  (cur = [] ∨ ∃ n more, 1 ≤ n ∧ Forall ascii_digit more ∧ rev cur = str n ++ more) →
  Forall positive_numeral (split_from cur (flat_map alpha_piece s)).
Proof.
  assert (∀ cur, (∃ n more, 1 ≤ n ∧ Forall ascii_digit more ∧ rev cur = str n ++ more) →
            positive_numeral (rev cur)) as Htoken.
  { intros cur' (n & more & Hn & Hmore & ->). by apply block_positive_numeral. }
  revert cur. induction s as [|c s IH]; intros cur Hcur; simpl.
  - destruct Hcur as [->|Hcur]; [done|].
    destruct cur as [|a cur]; [done|]. constructor; [by apply Htoken|done].
  - unfold alpha_piece at 1. destruct (isalpha c) eqn:Halpha.
    + pose proof (isalpha_ord c Halpha) as Hord.
      destruct (str_digits (Z.of_N c - ALPH_START_IDX) ltac:(lia)) as [Hdigits _].
      rewrite split_from_run.
      2:{ eapply Forall_impl; [done|]. apply ascii_digit_not_isspace. }
      apply IH. right. rewrite rev_app_distr, rev_involutive.
      destruct Hcur as [->|(n & more & Hn & Hmore & ->)].
      * exists (Z.of_N c - ALPH_START_IDX), []. by rewrite app_nil_r.
      * exists n, (more ++ str (Z.of_N c - ALPH_START_IDX)).
        split_and!; [done|by apply Forall_app|by rewrite app_assoc].
    + simpl. rewrite isspace_space.
      destruct Hcur as [->|Hcur]; [by apply IH; left|].
      destruct cur as [|a cur]; [by apply IH; left|].
      constructor; [by apply Htoken|]. by apply IH; left.
Qed.

Lemma clean_response_alpha_tokens _rerank_type (response : text) :
  Forall positive_numeral (split (_clean_response _rerank_type response true)).
Proof.
  rewrite clean_response_pieces, split_strip. apply split_from_alpha_pieces. by left.
Qed.

End text_facts.

(** ** From the response to a permutation of the slice *)

Section permutation_facts.

Local Definition dedup_step (new_response : list Z) (c : Z) : list Z :=
  if bool_decide (c ∈ new_response) then new_response else new_response ++ [c].

Lemma dedup_fold_filter n (l acc : list Z) :
  (length l ≤ n)%nat →
  fold_left dedup_step l acc
  = acc ++ fold_left dedup_step (filter (λ y, y ∉ acc) l) [].
Proof.
  revert l acc. induction n as [|n IH]; intros l acc Hlen.
  { destruct l; [|simpl in Hlen; lia]. simpl. by rewrite app_nil_r. }
  destruct l as [|x l]; simpl; [by rewrite app_nil_r|]. simpl in Hlen.
  unfold dedup_step at 2. case_bool_decide as Hx.
  - rewrite filter_cons_False by auto. apply IH. lia.
  - rewrite filter_cons_True by done. simpl.
    rewrite (IH l (acc ++ [x])) by lia.
    rewrite (IH (filter _ l) [x]).
    2:{ pose proof (length_filter (λ y, y ∉ acc) l). lia. }
    rewrite <-app_assoc. do 3 f_equal.
    rewrite list_filter_filter. apply list_filter_iff. intros y.
    rewrite elem_of_app. set_solver.
Qed.

(** Duplicates are removed and the first occurrence of every index stays. *)
Lemma remove_duplicate_cons x (l : list Z) :
  _remove_duplicate (x :: l) = x :: _remove_duplicate (filter (λ y, y ≠ x) l).
Proof.
  unfold _remove_duplicate. fold dedup_step. simpl.
  rewrite (dedup_fold_filter (length l)) by done. simpl. do 2 f_equal.
  apply list_filter_iff. intros y. set_solver.
Qed.

Lemma dedup_fold_NoDup (l acc : list Z) :
  NoDup acc → NoDup (fold_left dedup_step l acc).
Proof.
  revert acc. induction l as [|x l IH]; intros acc Hacc; simpl; [done|].
  apply IH. unfold dedup_step. case_bool_decide; [done|].
  apply NoDup_app. split_and!; [done| |apply NoDup_singleton]. set_solver.
Qed.

Lemma remove_duplicate_NoDup (l : list Z) : NoDup (_remove_duplicate l).
Proof. apply dedup_fold_NoDup, NoDup_nil_2. Qed.

Lemma dedup_fold_elem_of (l acc : list Z) x :
  x ∈ fold_left dedup_step l acc ↔ x ∈ acc ∨ x ∈ l.
Proof.
  revert acc. induction l as [|y l IH]; intros acc; simpl; [set_solver|].
  rewrite IH. unfold dedup_step. case_bool_decide; set_solver.
Qed.

Lemma remove_duplicate_elem_of (l : list Z) x : x ∈ _remove_duplicate l ↔ x ∈ l.
Proof. unfold _remove_duplicate. fold dedup_step. rewrite dedup_fold_elem_of. set_solver. Qed.

(** The indices of [range(n)]. *)
Lemma elem_of_range (n : nat) x : x ∈ seqZ 0 (Z.of_nat n) ↔ 0 ≤ x < Z.of_nat n.
Proof. rewrite elem_of_seqZ. lia. Qed.

Lemma completed_response_range (n : nat) (response : list Z) :
  completed_response n response
  = filter (λ x, 0 ≤ x < Z.of_nat n) response
    ++ filter (λ x, x ∉ filter (λ x, 0 ≤ x < Z.of_nat n) response) (seqZ 0 (Z.of_nat n)).
Proof.
  unfold completed_response.
  assert (filter (λ ss, ss ∈ seqZ 0 (Z.of_nat n)) response
          = filter (λ x, 0 ≤ x < Z.of_nat n) response) as ->; [|done].
  apply list_filter_iff. intros x. apply elem_of_range.
Qed.

(** Completed, a response without duplicates is a permutation of
    [range(n)]. *)
Lemma completed_response_Permutation (n : nat) (response : list Z) :
  NoDup response →
  completed_response n response ≡ₚ seqZ 0 (Z.of_nat n).
Proof.
  intros Hnd. unfold completed_response.
  set (range := seqZ 0 (Z.of_nat n)).
  set (named := filter (λ ss, ss ∈ range) response).
  apply NoDup_Permutation.
  - apply NoDup_app. split_and!.
    + by apply NoDup_filter.
    + intros x Hx. rewrite list_elem_of_filter. tauto.
    + apply NoDup_filter, NoDup_seqZ.
  - apply NoDup_seqZ.
  - intros x. rewrite elem_of_app. unfold named.
    rewrite !list_elem_of_filter. split; [tauto|].
    intros Hx. destruct (decide (x ∈ response)); [by left|right]. tauto.
Qed.

End permutation_facts.

(** ** The effect of [receive_permutation] on the hits *)

Section reorder_facts.
Context {U : Unicode} {V Prompt : Type}.

Local Abbreviation obj := (obj V Prompt).
Local Abbreviation world := (world V Prompt).
Local Abbreviation M := (M V Prompt).
Local Abbreviation dict := (gmap string V).

(** The result [r] is a [Result] whose list of hits [h] holds the
    dictionaries [ds], at the identities [items]. *)
Definition holds (w : world) (r h : loc) (t : option loc) (items : list loc)
    (ds : list dict) : Prop :=
  heap w !! r = Some (ObjResult h t)
  ∧ heap w !! h = Some (ObjList items)
  ∧ Forall2 (λ l d, heap w !! l = Some (ObjDict d)) items ds.

Lemma hits_of_holds (w : world) r ds :
  hits_of (heap w) r = Some ds ↔ ∃ h t items, holds w r h t items ds.
Proof.
  unfold hits_of, holds. split.
  - destruct (heap w !! r) as [[h t| | |]|] eqn:Hr; try done.
    destruct (heap w !! h) as [[|items| |]|] eqn:Hh; try done.
    rewrite mapM_Some. intros HF. exists h, t, items. split_and!; [done..|].
    eapply Forall2_impl; [done|]. intros l d. unfold dict_at.
    by destruct (heap w !! l) as [[| |d'|]|]; intros [= ->].
  - intros (h & t & items & -> & -> & HF). rewrite mapM_Some.
    eapply Forall2_impl; [done|]. intros l d. unfold dict_at. by intros ->.
Qed.

(** *** Running the operations on a store of known shape *)

Lemma run_bind {A B} (m : M A) (k : A → M B) w a w' :
  m w = (Ok a, w') → (m ≫= k) w = k a w'.
Proof. intros Hm. unfold mbind, M_bind. by rewrite Hm. Qed.

Lemma run_bind_raise {A B} (m : M A) (k : A → M B) w e w' :
  m w = (Raise e, w') → (m ≫= k) w = (Raise e, w').
Proof. intros Hm. unfold mbind, M_bind. by rewrite Hm. Qed.

Lemma run_attr_hits (w : world) r h t :
  heap w !! r = Some (ObjResult h t) → attr_hits r w = (Ok h, w).
Proof.
  intros Hr. unfold attr_hits, fmap, M_fmap, read_result, read, mbind, M_bind.
  by rewrite Hr.
Qed.

Lemma run_attr_summary (w : world) r h t :
  heap w !! r = Some (ObjResult h t) → attr_summary r w = (Ok t, w).
Proof.
  intros Hr. unfold attr_summary, fmap, M_fmap, read_result, read, mbind, M_bind.
  by rewrite Hr.
Qed.

Lemma run_read_list (w : world) h items :
  heap w !! h = Some (ObjList items) → read_list h w = (Ok items, w).
Proof. intros Hh. unfold read_list, read, mbind, M_bind. by rewrite Hh. Qed.

Lemma run_read_dict (w : world) l d :
  heap w !! l = Some (ObjDict d) → read_dict l w = (Ok d, w).
Proof. intros Hl. unfold read_dict, read, mbind, M_bind. by rewrite Hl. Qed.

Lemma run_mapM_read_dict (w : world) ls ds :
  Forall2 (λ l d, heap w !! l = Some (ObjDict d)) ls ds →
  mapM read_dict ls w = (Ok ds, w).
Proof.
  induction 1 as [|l d ls ds Hl Hls IH]; simpl; [done|].
  rewrite (run_bind _ _ _ _ _ (run_read_dict _ _ _ Hl)).
  by rewrite (run_bind _ _ _ _ _ IH).
Qed.

Lemma position_nonneg (len : nat) i :
  0 ≤ i < Z.of_nat len → position len i = Some (Z.to_nat i).
Proof. intros Hi. unfold position. by rewrite bool_decide_eq_true_2. Qed.

Lemma run_getitem {A} (l : list A) i a (w : world) :
  0 ≤ i → l !! Z.to_nat i = Some a → getitem l i w = (Ok a, w).
Proof.
  intros Hi Ha. unfold getitem. rewrite position_nonneg.
  - simpl. by rewrite Ha.
  - apply lookup_lt_Some in Ha. lia.
Qed.

Lemma run_list_getitem (w : world) h items i l :
  heap w !! h = Some (ObjList items) →
  0 ≤ i → items !! Z.to_nat i = Some l →
  list_getitem h i w = (Ok l, w).
Proof.
  intros Hh Hi Hl. unfold list_getitem.
  rewrite (run_bind _ _ _ _ _ (run_read_list _ _ _ Hh)). by apply run_getitem.
Qed.

Lemma run_list_setitem (w : world) h items i l :
  heap w !! h = Some (ObjList items) →
  0 ≤ i < Z.of_nat (length items) →
  list_setitem h i l w
  = (Ok (), World (<[h:=ObjList (<[Z.to_nat i:=l]> items)]> (heap w)) (calls w)).
Proof.
  intros Hh Hi. unfold list_setitem.
  rewrite (run_bind _ _ _ _ _ (run_read_list _ _ _ Hh)).
  by rewrite position_nonneg.
Qed.

Lemma run_dict_contains (w : world) l d key :
  heap w !! l = Some (ObjDict d) →
  dict_contains l key w = (Ok (bool_decide (is_Some (d !! key))), w).
Proof.
  intros Hl. unfold dict_contains.
  by rewrite (run_bind _ _ _ _ _ (run_read_dict _ _ _ Hl)).
Qed.

Lemma run_dict_setitem (w : world) l d key v :
  heap w !! l = Some (ObjDict d) →
  dict_setitem l key v w
  = (Ok (), World (<[l:=ObjDict (<[key:=v]> d)]> (heap w)) (calls w)).
Proof.
  intros Hl. unfold dict_setitem.
  by rewrite (run_bind _ _ _ _ _ (run_read_dict _ _ _ Hl)).
Qed.

(** *** One round of the loop *)

(** The dictionary [dx], moved to the position of [dj], after the lines for
    one [key]: if [dx] has the key it takes the value that [dj] has for it,
    and the lookup raises [KeyError] if [dj] has none. *)
Definition positional (key : string) (dj dx : dict) : dict + string :=
  match dx !! key with
  | Some _ => match dj !! key with
              | Some v => inl (<[key:=v]> dx)
              | None => inr key
              end
  | None => inl dx
  end.

Definition moved_hit (dj dx : dict) : dict + string :=
  match positional "rank" dj dx with
  | inl d => positional "score" dj d
  | inr key => inr key
  end.

Lemma run_set_positional (w : world) r h t items cut_range rank_start j key l dx dj :
  heap w !! r = Some (ObjResult h t) →
  heap w !! h = Some (ObjList items) →
  0 ≤ j + rank_start →
  items !! Z.to_nat (j + rank_start) = Some l →
  heap w !! l = Some (ObjDict dx) →
  0 ≤ j → cut_range !! Z.to_nat j = Some dj →
  set_positional r cut_range rank_start j key w =
    match positional key dj dx with
    | inl d => (Ok (), World (<[l:=ObjDict d]> (heap w)) (calls w))
    | inr key' => (Raise (KeyError key'), w)
    end.
Proof.
  intros Hr Hh Hpos Hl Hd Hj Hdj. unfold set_positional, positional.
  rewrite (run_bind _ _ _ _ _ (run_attr_hits _ _ _ _ Hr)).
  rewrite (run_bind _ _ _ _ _ (run_list_getitem _ _ _ _ _ Hh Hpos Hl)).
  rewrite (run_bind _ _ _ _ _ (run_dict_contains _ _ _ key Hd)).
  destruct (dx !! key) as [v0|] eqn:Hkey.
  - rewrite bool_decide_eq_true_2 by done.
    rewrite (run_bind _ _ _ _ _ (run_getitem _ _ _ _ Hj Hdj)).
    unfold lookup_key. destruct (dj !! key) as [v|]; [|done].
    rewrite (run_bind (mret v) _ w v w eq_refl).
    rewrite (run_bind _ _ _ _ _ (run_attr_hits _ _ _ _ Hr)).
    rewrite (run_bind _ _ _ _ _ (run_list_getitem _ _ _ _ _ Hh Hpos Hl)).
    by apply run_dict_setitem.
  - rewrite bool_decide_eq_false_2 by (by intros [? ?]).
    destruct w as [σ c]. simpl in *. by rewrite insert_id.
Qed.

Lemma reorder_round (w : world) r h t items ds cut_range rank_start j x rest dx dj :
  holds w r h t items ds →
  0 ≤ rank_start → 0 ≤ j →
  (Z.to_nat (j + rank_start) < length items)%nat →
  0 ≤ x → cut_range !! Z.to_nat x = Some dx →
  cut_range !! Z.to_nat j = Some dj →
  match moved_hit dj dx with
  | inl d =>
      ∃ w' l,
        reorder r cut_range rank_start j (x :: rest) w
        = reorder r cut_range rank_start (j + 1) rest w'
        ∧ holds w' r h t (<[Z.to_nat (j + rank_start):=l]> items)
            (<[Z.to_nat (j + rank_start):=d]> ds)
        ∧ calls w' = calls w
  | inr key =>
      ∃ w', reorder r cut_range rank_start j (x :: rest) w = (Raise (KeyError key), w')
  end.
Proof.
  intros (Hr & Hh & Hds) Hstart Hj Hlen Hx Hdx Hdj.
  set (k := Z.to_nat (j + rank_start)) in *.
  set (l := fresh (dom (heap w))).
  assert (heap w !! l = None) as Hl by apply not_elem_of_dom, is_fresh.
  assert (l ≠ r) as Hlr by congruence.
  assert (l ≠ h) as Hlh by congruence.
  assert (r ≠ h) as Hrh by congruence.
  cbn [reorder].
  rewrite (run_bind _ _ _ _ _ (run_getitem _ _ _ _ Hx Hdx)).
  set (σ1 := <[l:=ObjDict dx]> (heap w)).
  rewrite (run_bind (alloc (ObjDict dx)) _ w l (World σ1 (calls w)) eq_refl).
  assert (σ1 !! r = Some (ObjResult h t)) as Hr1 by by (unfold σ1; rewrite lookup_insert_ne).
  assert (σ1 !! h = Some (ObjList items)) as Hh1 by by (unfold σ1; rewrite lookup_insert_ne).
  rewrite (run_bind _ _ _ _ _ (run_attr_hits (World σ1 (calls w)) _ _ _ Hr1)).
  rewrite (run_bind _ _ _ _ _
             (run_list_setitem (World σ1 (calls w)) h items (j + rank_start) l Hh1
                ltac:(lia))).
  fold k. cbn [heap calls].
  set (items' := <[k:=l]> items).
  set (σ2 := <[h:=ObjList items']> σ1).
  assert (σ2 !! r = Some (ObjResult h t)) as Hr2 by by (unfold σ2; rewrite lookup_insert_ne).
  assert (σ2 !! h = Some (ObjList items')) as Hh2 by apply lookup_insert_eq.
  assert (σ2 !! l = Some (ObjDict dx)) as Hl2.
  { unfold σ2, σ1. rewrite lookup_insert_ne by done. apply lookup_insert_eq. }
  assert (items' !! k = Some l) as Hk by by apply list_lookup_insert_eq.
  unfold moved_hit.
  pose proof (run_set_positional (World σ2 (calls w)) r h t items' cut_range rank_start j
                "rank" l dx dj Hr2 Hh2 ltac:(lia) Hk Hl2 Hj Hdj) as Hrank.
  destruct (positional "rank" dj dx) as [d1|key1];
    [|rewrite (run_bind_raise _ _ _ _ _ Hrank); by eexists].
  rewrite (run_bind _ _ _ _ _ Hrank). cbn [heap calls].
  set (σ3 := <[l:=ObjDict d1]> σ2).
  assert (σ3 !! r = Some (ObjResult h t)) as Hr3 by by (unfold σ3; rewrite lookup_insert_ne).
  assert (σ3 !! h = Some (ObjList items')) as Hh3 by by (unfold σ3; rewrite lookup_insert_ne).
  assert (σ3 !! l = Some (ObjDict d1)) as Hl3 by apply lookup_insert_eq.
  pose proof (run_set_positional (World σ3 (calls w)) r h t items' cut_range rank_start j
                "score" l d1 dj Hr3 Hh3 ltac:(lia) Hk Hl3 Hj Hdj) as Hscore.
  destruct (positional "score" dj d1) as [d2|key2];
    [|rewrite (run_bind_raise _ _ _ _ _ Hscore); by eexists].
  rewrite (run_bind _ _ _ _ _ Hscore). cbn [heap calls].
  set (σ4 := <[l:=ObjDict d2]> σ3).
  exists (World σ4 (calls w)), l. split_and!; [done| |done].
  split_and!; cbn [heap].
  - unfold σ4. by rewrite lookup_insert_ne.
  - unfold σ4. by rewrite lookup_insert_ne.
  - apply Forall2_insert; [|apply lookup_insert_eq].
    eapply Forall2_impl; [done|]. intros l' d' Hl'. cbn beta in Hl'.
    assert (l' ≠ l) by congruence. assert (l' ≠ h) by congruence.
    unfold σ4, σ3, σ2, σ1. by rewrite !lookup_insert_ne.
Qed.


(** *** The whole loop *)

(** The dictionaries that the loop puts at the positions from [j] on, for the
    responses still to come; [None] when a lookup raises [KeyError]. *)
Fixpoint moved (cut_range : list dict) (j : nat) (response : list Z) : option (list dict) :=
  match response with
  | [] => Some []
  | x :: rest =>
      dx ← (if bool_decide (0 ≤ x) then cut_range !! Z.to_nat x else None);
      dj ← cut_range !! j;
      match moved_hit dj dx with
      | inl d => (d ::.) <$> moved cut_range (S j) rest
      | inr _ => None
      end
  end.

Lemma moved_length cut_range j response new :
  moved cut_range j response = Some new → length new = length response.
Proof.
  revert j new. induction response as [|x rest IH]; intros j new; simpl.
  - by intros [= <-].
  - destruct (if bool_decide _ then _ else _) as [dx|]; [|done]. simpl.
    destruct (cut_range !! j) as [dj|]; [|done]. simpl.
    destruct (moved_hit dj dx) as [d|]; [|done].
    destruct (moved cut_range (S j) rest) as [new'|] eqn:Hnew; [|done].
    intros [= <-]. simpl. f_equal. by eapply IH.
Qed.

Lemma reorder_ok (w : world) r h t items ds cut_range rank_start j response new :
  holds w r h t items ds →
  0 ≤ rank_start →
  (response ≠ [] → Z.to_nat rank_start + j + length response ≤ length items)%nat →
  moved cut_range j response = Some new →
  ∃ w' items',
    reorder r cut_range rank_start (Z.of_nat j) response w = (Ok (), w')
    ∧ holds w' r h t items'
        (take (Z.to_nat rank_start + j) ds ++ new
         ++ drop (Z.to_nat rank_start + j + length response) ds)
    ∧ calls w' = calls w.
Proof.
  intros Hholds Hstart. revert j w items ds new Hholds.
  induction response as [|x rest IH]; intros j w items ds new Hholds Hlen; cbn [moved].
  - intros [= <-]. exists w, items. split_and!; [done| |done].
    rewrite Nat.add_0_r. simpl. by rewrite take_drop.
  - specialize (Hlen ltac:(done)). simpl in Hlen. intros Hmoved.
    destruct (decide (0 ≤ x)) as [Hx|Hx];
      [rewrite bool_decide_eq_true_2 in Hmoved by done
      |by rewrite bool_decide_eq_false_2 in Hmoved].
    destruct (cut_range !! Z.to_nat x) as [dx|] eqn:Hdx; [|done].
    destruct (cut_range !! j) as [dj|] eqn:Hdj; [|done]. simpl in Hmoved.
    pose proof (reorder_round w r h t items ds cut_range rank_start (Z.of_nat j) x rest
                  dx dj Hholds Hstart ltac:(lia) ltac:(lia) Hx Hdx) as Hround.
    rewrite Nat2Z.id in Hround. specialize (Hround Hdj).
    destruct (moved_hit dj dx) as [d|]; [|done].
    destruct (moved cut_range (S j) rest) as [new'|] eqn:Hnew; [|done].
    injection Hmoved as <-.
    destruct Hround as (w1 & l & Hrun & Hholds1 & Hcalls1).
    replace (Z.to_nat (Z.of_nat j + rank_start)) with (Z.to_nat rank_start + j)%nat
      in Hholds1 by lia.
    replace (Z.of_nat j + 1) with (Z.of_nat (S j)) in Hrun by lia.
    destruct (IH (S j) w1 _ _ new' Hholds1) as (w' & items' & Hrun' & Hholds' & Hcalls');
      [rewrite length_insert; lia|done|].
    exists w', items'. split_and!; [by rewrite Hrun| |congruence].
    destruct Hholds as (_ & _ & Hlen_ds). apply Forall2_length in Hlen_ds.
    set (k := (Z.to_nat rank_start + j)%nat) in *.
    replace (Z.to_nat rank_start + S j)%nat with (S k) in Hholds' by lia.
    rewrite (take_S_r _ _ d) in Hholds'
      by (apply list_lookup_insert_eq; lia).
    rewrite take_insert_ge in Hholds' by lia.
    rewrite drop_insert_lt in Hholds' by lia.
    rewrite <-app_assoc in Hholds'. simpl in Hholds'.
    simpl. by replace (k + S (length rest))%nat with (S (k + length rest)) by lia.
Qed.

Lemma reorder_key_error (w : world) r h t items ds cut_range rank_start j response :
  holds w r h t items ds →
  0 ≤ rank_start →
  (Z.to_nat rank_start + j + length response ≤ length items)%nat →
  Forall (λ x, 0 ≤ x < Z.of_nat (length cut_range)) response →
  (j + length response ≤ length cut_range)%nat →
  moved cut_range j response = None →
  ∃ key w', reorder r cut_range rank_start (Z.of_nat j) response w
            = (Raise (KeyError key), w').
Proof.
  intros Hholds Hstart Hlen Hvalid. revert j w items ds Hholds Hlen.
  induction Hvalid as [|x rest Hx Hrest IH]; intros j w items ds Hholds Hlen Hcut;
    cbn [moved]; [done|].
  simpl in Hlen, Hcut. intros Hmoved.
  rewrite bool_decide_eq_true_2 in Hmoved by lia.
  destruct (lookup_lt_is_Some_2 cut_range (Z.to_nat x) ltac:(lia)) as [dx Hdx].
  destruct (lookup_lt_is_Some_2 cut_range j ltac:(lia)) as [dj Hdj].
  rewrite Hdx, Hdj in Hmoved. simpl in Hmoved.
  pose proof (reorder_round w r h t items ds cut_range rank_start (Z.of_nat j) x rest
                dx dj Hholds Hstart ltac:(lia) ltac:(lia) ltac:(lia) Hdx) as Hround.
  rewrite Nat2Z.id in Hround. specialize (Hround Hdj).
  destruct (moved_hit dj dx) as [d|key].
  - destruct Hround as (w1 & l & Hrun & Hholds1 & _).
    replace (Z.of_nat j + 1) with (Z.of_nat (S j)) in Hrun by lia.
    destruct (moved cut_range (S j) rest) as [new'|] eqn:Hnew; [done|].
    destruct (IH (S j) w1 _ _ Hholds1) as (key & w' & Hrun');
      [rewrite length_insert; lia|lia|done|].
    exists key, w'. by rewrite Hrun.
  - destruct Hround as [w' Hrun]. by exists key, w'.
Qed.


(** *** [receive_permutation] *)

Lemma slice_nonneg {A} (l : list A) start stop :
  0 ≤ start →
  slice l start stop = take (length (slice l start stop)) (drop (Z.to_nat start) l)
  ∧ (slice l start stop ≠ [] →
     (Z.to_nat start + length (slice l start stop) ≤ length l)%nat).
Proof.
  intros Hstart. unfold slice.
  set (b := slice_bound (length l) stop).
  assert (slice_bound (length l) start = (Z.to_nat start `min` length l)%nat) as ->.
  { unfold slice_bound. rewrite bool_decide_eq_false_2 by lia. lia. }
  destruct (decide (Z.to_nat start ≤ length l)%nat).
  - rewrite Nat.min_l by lia. split.
    + rewrite length_take, length_drop.
      destruct (decide (b - Z.to_nat start ≤ length l - Z.to_nat start)%nat).
      * by rewrite Nat.min_l by lia.
      * rewrite Nat.min_r by lia. rewrite !take_ge; [done|rewrite length_drop; lia..].
    + intros _. rewrite length_take, length_drop. lia.
  - rewrite Nat.min_r by lia. rewrite !drop_ge by lia. by rewrite !take_nil.
Qed.

Lemma Forall2_slice {A B} (P : A → B → Prop) l k start stop :
  Forall2 P l k → Forall2 P (slice l start stop) (slice k start stop).
Proof.
  intros HF. unfold slice. rewrite <-(Forall2_length _ _ _ HF).
  by apply Forall2_take, Forall2_drop.
Qed.

Lemma parsed_response_NoDup _rerank_type permutation use_alpha response :
  parsed_response _rerank_type permutation use_alpha = Some response → NoDup response.
Proof.
  unfold parsed_response. intros Hparsed.
  apply bind_Some in Hparsed as (raw & _ & [= <-]). apply remove_duplicate_NoDup.
Qed.

(** The run of [receive_permutation] on a result with the hits [ds]: the
    window is rewritten with the dictionaries of [moved], unless a lookup
    raises [KeyError]. *)
Lemma run_receive_permutation (self : RankLLM V Prompt) (w : world) r ds permutation
    rank_start rank_end use_alpha response :
  hits_of (heap w) r = Some ds →
  0 ≤ rank_start →
  parsed_response (_rerank_type self) permutation use_alpha = Some response →
  let cut_range := slice ds rank_start rank_end in
  match moved cut_range 0 (completed_response (length cut_range) response) with
  | Some new =>
      ∃ w', receive_permutation self r permutation rank_start rank_end use_alpha w
            = (Ok r, w')
            ∧ hits_of (heap w') r
              = Some (take (Z.to_nat rank_start) ds ++ new
                      ++ drop (Z.to_nat rank_start + length cut_range) ds)
            ∧ calls w' = calls w
  | None =>
      ∃ key w', receive_permutation self r permutation rank_start rank_end use_alpha w
                = (Raise (KeyError key), w')
  end.
Proof.
  intros Hhits Hstart Hparsed cut_range.
  apply hits_of_holds in Hhits as (h & t & items & Hholds).
  pose proof Hholds as (Hr & Hh & Hds).
  pose proof (Forall2_length _ _ _ Hds) as Hlen.
  unfold receive_permutation. rewrite Hparsed.
  rewrite (run_bind _ _ _ _ _ (run_attr_hits _ _ _ _ Hr)).
  rewrite (run_bind _ _ _ _ _ (run_read_list _ _ _ Hh)).
  rewrite (run_bind _ _ _ _ _
             (run_mapM_read_dict _ _ _ (Forall2_slice _ _ _ rank_start rank_end Hds))).
  fold cut_range. cbn zeta.
  set (response' := completed_response (length cut_range) response).
  pose proof (completed_response_Permutation (length cut_range) response
                (parsed_response_NoDup _ _ _ _ Hparsed)) as Hperm.
  fold response' in Hperm.
  assert (length response' = length cut_range) as Hlen'.
  { rewrite Hperm, length_seqZ. lia. }
  destruct (slice_nonneg ds rank_start rank_end Hstart) as [_ Hbound].
  fold cut_range in Hbound.
  destruct (moved cut_range 0 response') as [new|] eqn:Hmoved.
  - destruct (reorder_ok w r h t items ds cut_range rank_start 0 response' new
                Hholds Hstart) as (w' & items' & Hrun & Hholds' & Hcalls); [|done|].
    { intros Hne. rewrite Hlen', Hlen, Nat.add_0_r. apply Hbound.
      intros Hcut. by rewrite Hcut in Hlen'; destruct response'. }
    exists w'. rewrite (run_bind _ _ _ _ _ Hrun). split_and!; [done| |done].
    apply hits_of_holds. exists h, t, items'.
    by rewrite !Nat.add_0_r, Hlen' in Hholds'.
  - destruct (decide (cut_range = [])) as [Hcut|Hcut].
    { rewrite Hcut in Hlen'. destruct response'; done. }
    destruct (reorder_key_error w r h t items ds cut_range rank_start 0 response'
                Hholds Hstart) as (key & w' & Hrun); [| |lia|done|].
    { rewrite Hlen', Hlen, Nat.add_0_r. by apply Hbound. }
    { apply Forall_forall. intros x Hx. rewrite Hperm in Hx.
      by apply elem_of_range in Hx. }
    exists key, w'. by rewrite (run_bind_raise _ _ _ _ _ Hrun).
Qed.


(** *** The empty permutation *)

Lemma filter_all {A} (P : A → Prop) `{!∀ x, Decision (P x)} (l : list A) :
  Forall P l → filter P l = l.
Proof.
  induction 1 as [|x l Hx Hl IH]; [done|]. rewrite filter_cons_True by done. by f_equal.
Qed.

Lemma parsed_response_empty _rerank_type use_alpha :
  parsed_response _rerank_type [] use_alpha = Some [].
Proof.
  unfold parsed_response, _clean_response.
  by destruct (String.eqb _ _), use_alpha.
Qed.

Lemma moved_hit_same (d : dict) : moved_hit d d = inl d.
Proof.
  assert (∀ key, positional key d d = inl d) as Hpos.
  { intros key. unfold positional. destruct (d !! key) eqn:Hkey; [|done].
    by rewrite insert_id. }
  unfold moved_hit. by rewrite !Hpos.
Qed.

Lemma moved_identity (cut_range : list dict) m j :
  (j + m = length cut_range)%nat →
  moved cut_range j (seqZ (Z.of_nat j) (Z.of_nat m)) = Some (drop j cut_range).
Proof.
  revert j. induction m as [|m IH]; intros j Hj.
  - simpl. by rewrite drop_ge by lia.
  - rewrite seqZ_cons by lia. cbn [moved].
    rewrite bool_decide_eq_true_2 by lia. rewrite Nat2Z.id.
    destruct (lookup_lt_is_Some_2 cut_range j ltac:(lia)) as [d Hd].
    rewrite Hd. simpl. rewrite moved_hit_same.
    replace (Z.succ (Z.of_nat j)) with (Z.of_nat (S j)) by lia.
    replace (Z.pred (Z.of_nat (S m))) with (Z.of_nat m) by lia.
    rewrite IH by lia. simpl. by rewrite (drop_S _ _ _ Hd).
Qed.

(** C3.  With the empty string as raw permutation, whatever [use_alpha] is,
    [receive_permutation] returns the result with its hits as they were: the
    same dictionaries in the same order, the [rank] and [score] of every hit
    included. *)
Theorem receive_permutation_empty_identity (self : RankLLM V Prompt) (w : world) r hits
    rank_start rank_end use_alpha :
  hits_of (heap w) r = Some hits →
  0 ≤ rank_start →
  ∃ w', receive_permutation self r [] rank_start rank_end use_alpha w = (Ok r, w')
        ∧ hits_of (heap w') r = Some hits.
Proof.
  intros Hhits Hstart.
  pose proof (run_receive_permutation self w r hits [] rank_start rank_end use_alpha []
                Hhits Hstart (parsed_response_empty _ _)) as Hrun.
  cbn zeta in Hrun.
  set (cut_range := slice hits rank_start rank_end) in *.
  assert (completed_response (length cut_range) [] = seqZ 0 (Z.of_nat (length cut_range)))
    as Hcompleted.
  { unfold completed_response. rewrite filter_nil. simpl.
    apply filter_all, Forall_forall. intros x _. apply not_elem_of_nil. }
  rewrite Hcompleted in Hrun.
  pose proof (moved_identity cut_range (length cut_range) 0 eq_refl) as Hmoved.
  change (Z.of_nat 0) with 0 in Hmoved. rewrite Hmoved in Hrun.
  destruct Hrun as (w' & Hrun & Hhits' & _). exists w'. split; [done|].
  rewrite Hhits'. f_equal. rewrite drop_0.
  destruct (slice_nonneg hits rank_start rank_end Hstart) as [Hcut _].
  fold cut_range in Hcut. rewrite Hcut at 1.
  rewrite <-drop_drop, take_drop. apply take_drop.
Qed.


(** *** The dictionaries that the loop writes *)

(** The fields of a hit other than [rank] and [score]. *)
Definition payload (d : dict) : dict := delete "rank" (delete "score" d).

Lemma positional_inl key dj dx d :
  positional key dj dx = inl d →
  (is_Some (dx !! key) → is_Some (dj !! key))
  ∧ d !! key = (if dx !! key then dj !! key else None)
  ∧ ∀ key', key' ≠ key → d !! key' = dx !! key'.
Proof.
  unfold positional. destruct (dx !! key) as [v0|] eqn:Hdx.
  - destruct (dj !! key) as [v|] eqn:Hdj; [|done]. intros [= <-]. split_and!.
    + done.
    + by rewrite lookup_insert_eq.
    + intros key' Hne. by rewrite lookup_insert_ne.
  - intros [= <-]. split_and!; [by intros [? ?]|done..].
Qed.

Lemma moved_hit_inl dj dx d :
  moved_hit dj dx = inl d →
  (∀ key, key = "rank" ∨ key = "score" →
     (is_Some (dx !! key) → is_Some (dj !! key))
     ∧ d !! key = (if dx !! key then dj !! key else None))
  ∧ payload d = payload dx.
Proof.
  unfold moved_hit.
  destruct (positional "rank" dj dx) as [d1|] eqn:Hrank; [|done]. intros Hscore.
  apply positional_inl in Hrank as (Hrank1 & Hrank2 & Hrank3).
  apply positional_inl in Hscore as (Hscore1 & Hscore2 & Hscore3).
  split.
  - intros key [-> | ->].
    + split; [done|]. by rewrite Hscore3, Hrank2.
    + rewrite <-(Hrank3 "score") by done. done.
  - apply map_eq. intros key. unfold payload.
    destruct (decide (key = "rank")) as [->|Hr]; [by rewrite !lookup_delete_eq|].
    rewrite !(lookup_delete_ne _ "rank") by done.
    destruct (decide (key = "score")) as [->|Hs]; [by rewrite !lookup_delete_eq|].
    rewrite !(lookup_delete_ne _ "score") by done.
    by rewrite Hscore3, Hrank3.
Qed.

Lemma moved_hit_is_inl dj dx :
  (is_Some (dx !! "rank") → is_Some (dj !! "rank")) →
  (is_Some (dx !! "score") → is_Some (dj !! "score")) →
  ∃ d, moved_hit dj dx = inl d.
Proof.
  intros Hrank Hscore. unfold moved_hit, positional.
  destruct (dx !! "rank") as [v0|] eqn:Hdx.
  - destruct (Hrank ltac:(done)) as [v ->].
    rewrite lookup_insert_ne by done.
    destruct (dx !! "score") as [s0|]; [|by eexists].
    destruct (Hscore ltac:(done)) as [s ->]. by eexists.
  - destruct (dx !! "score") as [s0|]; [|by eexists].
    destruct (Hscore ltac:(done)) as [s ->]. by eexists.
Qed.

Lemma moved_Some_pairs cut_range j response new :
  moved cut_range j response = Some new →
  ∀ i x, response !! i = Some x →
    ∃ dj dx d, 0 ≤ x ∧ cut_range !! (j + i)%nat = Some dj
      ∧ cut_range !! Z.to_nat x = Some dx
      ∧ moved_hit dj dx = inl d ∧ new !! i = Some d.
Proof.
  revert j new. induction response as [|x0 rest IH]; intros j new Hmoved i x Hi; [done|].
  cbn [moved] in Hmoved.
  destruct (decide (0 ≤ x0)) as [Hx0|Hx0];
    [rewrite bool_decide_eq_true_2 in Hmoved by done
    |by rewrite bool_decide_eq_false_2 in Hmoved].
  destruct (cut_range !! Z.to_nat x0) as [dx|] eqn:Hdx; [|done].
  destruct (cut_range !! j) as [dj|] eqn:Hdj; [|done]. simpl in Hmoved.
  destruct (moved_hit dj dx) as [d|] eqn:Hhit; [|done].
  destruct (moved cut_range (S j) rest) as [new'|] eqn:Hnew; [|done].
  injection Hmoved as <-. destruct i as [|i]; simpl in Hi.
  - injection Hi as <-. exists dj, dx, d. by rewrite Nat.add_0_r.
  - destruct (IH (S j) new' Hnew i x Hi) as (dj' & dx' & d' & ? & ? & ? & ? & ?).
    exists dj', dx', d'. split_and!; try done.
    by replace (j + S i)%nat with (S j + i)%nat by lia.
Qed.

Lemma moved_is_Some cut_range j response :
  (∀ i x, response !! i = Some x →
     ∃ dj dx d, 0 ≤ x ∧ cut_range !! (j + i)%nat = Some dj
       ∧ cut_range !! Z.to_nat x = Some dx ∧ moved_hit dj dx = inl d) →
  is_Some (moved cut_range j response).
Proof.
  revert j. induction response as [|x rest IH]; intros j Hpairs; [done|].
  cbn [moved].
  destruct (Hpairs 0%nat x eq_refl) as (dj & dx & d & Hx & Hdj & Hdx & Hhit).
  rewrite Nat.add_0_r in Hdj.
  rewrite bool_decide_eq_true_2, Hdx, Hdj by done. simpl. rewrite Hhit.
  destruct (IH (S j)) as [new' ->]; [|done].
  intros i x' Hi. destruct (Hpairs (S i) x' Hi) as (dj' & dx' & d' & ? & ? & ? & ?).
  exists dj', dx', d'. split_and!; try done.
  by replace (S j + i)%nat with (j + S i)%nat by lia.
Qed.

(** *** Hits that differ in having a key *)

(** If having a property goes from every position to the next, and from the
    last position to the first, then all positions have it when one has. *)
Lemma rotation_all (has : nat → Prop) n a b :
  (has (n - 1)%nat → has 0%nat) →
  (∀ i, (i + 1 < n)%nat → has i → has (i + 1)%nat) →
  (a < n)%nat → (b < n)%nat → has a → has b.
Proof.
  intros Hwrap Hnext Ha Hb Hhas.
  assert (∀ k, (a + k < n)%nat → has (a + k)%nat) as Hup.
  { induction k as [|k IH]; intros Hk; [by rewrite Nat.add_0_r|].
    replace (a + S k)%nat with (a + k + 1)%nat by lia. apply Hnext; [lia|].
    apply IH. lia. }
  assert (has 0%nat) as H0.
  { apply Hwrap. replace (n - 1)%nat with (a + (n - 1 - a))%nat by lia. apply Hup. lia. }
  clear Hup Hhas Ha. induction b as [|b IH]; [done|].
  replace (S b) with (b + 1)%nat by lia. apply Hnext; [lia|]. apply IH. lia.
Qed.

Lemma rotation_lookup (n : nat) :
  let response := Z.of_nat n :: seqZ 0 (Z.of_nat n) in
  response !! 0%nat = Some (Z.of_nat n)
  ∧ ∀ i, (i < n)%nat → response !! S i = Some (Z.of_nat i).
Proof.
  split; [done|]. intros i Hi. simpl. rewrite lookup_seqZ_lt by lia. f_equal; lia.
Qed.

Lemma completed_response_last (n : nat) :
  completed_response (S n) [Z.of_nat n] = Z.of_nat n :: seqZ 0 (Z.of_nat n).
Proof.
  rewrite completed_response_range.
  rewrite filter_cons_True, filter_nil by lia. simpl. f_equal.
  replace (Z.of_nat (S n)) with (Z.of_nat n + 1) by lia.
  rewrite seqZ_app by lia. rewrite filter_app.
  rewrite filter_all.
  2:{ apply Forall_forall. intros x Hx Hin. apply elem_of_seqZ in Hx.
      apply list_elem_of_singleton in Hin. lia. }
  change (seqZ (0 + Z.of_nat n) 1) with [0 + Z.of_nat n].
  rewrite filter_cons_False, filter_nil; [by rewrite app_nil_r|].
  intros Hin. apply Hin. apply list_elem_of_singleton. lia.
Qed.


(** C10.  [receive_permutation] tests for [rank] (and [score]) on the hit
    that moves into a position and reads the value from the hit that was at
    that position.  So when the hits of a window differ in having one of the
    two keys, there is a permutation from the oracle on which
    [receive_permutation] raises [KeyError] and returns no result: the one
    that names the last hit of the window first. *)
Theorem receive_permutation_key_error (self : RankLLM V Prompt) (w : world) r hits
    rank_start rank_end key (d1 d2 : dict) :
  hits_of (heap w) r = Some hits →
  0 ≤ rank_start →
  key = "rank" ∨ key = "score" →
  d1 ∈ slice hits rank_start rank_end →
  d2 ∈ slice hits rank_start rank_end →
  is_Some (d1 !! key) → d2 !! key = None →
  ∃ permutation key' w',
    receive_permutation self r permutation rank_start rank_end false w
    = (Raise (KeyError key'), w').
Proof.
  intros Hhits Hstart Hkey Hd1 Hd2 Hhas Hlacks.
  set (cut_range := slice hits rank_start rank_end) in *.
  destruct (length cut_range) as [|m] eqn:Hlen.
  { apply length_zero_iff_nil in Hlen. rewrite Hlen in Hd1. by apply not_elem_of_nil in Hd1. }
  exists (str (Z.of_nat m + 1)).
  pose proof (run_receive_permutation self w r hits (str (Z.of_nat m + 1)) rank_start
                rank_end false [Z.of_nat m] Hhits Hstart
                (parsed_response_str (_rerank_type self) (Z.of_nat m) ltac:(lia)))
    as Hrun.
  cbn zeta in Hrun. fold cut_range in Hrun.
  rewrite Hlen, completed_response_last in Hrun.
  destruct (moved cut_range 0 _) as [new|] eqn:Hmoved; [exfalso|done].
  pose proof (moved_Some_pairs _ _ _ _ Hmoved) as Hpairs.
  destruct (rotation_lookup m) as [Hfirst Hnext].
  apply list_elem_of_lookup in Hd1 as [a Ha]. apply list_elem_of_lookup in Hd2 as [b Hb].
  pose proof (lookup_lt_Some _ _ _ Ha). pose proof (lookup_lt_Some _ _ _ Hb).
  assert (∃ d, cut_range !! b = Some d ∧ is_Some (d !! key)) as (d & Hd & Hkey_d).
  { apply (rotation_all (λ i, ∃ d, cut_range !! i = Some d ∧ is_Some (d !! key))
             (S m) a b); [| |lia|lia|by exists d1].
    - intros (d & Hd & Hd_key).
      destruct (Hpairs 0%nat _ Hfirst) as (dj & dx & d' & _ & Hdj & Hdx & Hhit & _).
      rewrite Nat2Z.id in Hdx. replace (S m - 1)%nat with m in Hd by lia.
      assert (dx = d) as -> by congruence.
      apply moved_hit_inl in Hhit as [Hkeys _].
      exists dj. split; [done|]. by apply (Hkeys key Hkey).
    - intros i Hi (d & Hd & Hd_key).
      destruct (Hpairs (S i) _ (Hnext i ltac:(lia)))
        as (dj & dx & d' & _ & Hdj & Hdx & Hhit & _).
      rewrite Nat2Z.id in Hdx. assert (dx = d) as -> by congruence.
      apply moved_hit_inl in Hhit as [Hkeys _].
      exists dj. split; [by rewrite Nat.add_comm|]. by apply (Hkeys key Hkey). }
  assert (d = d2) as -> by congruence. rewrite Hlacks in Hkey_d. by destruct Hkey_d.
Qed.


(** *** Hits that agree in having the keys *)

(** All hits of the window have the key, or none has. *)
Definition uniform (key : string) (window : list dict) : Prop :=
  Forall (λ d, is_Some (d !! key)) window ∨ Forall (λ d, d !! key = None) window.

Lemma uniform_pair key (window : list dict) dj dx :
  uniform key window → dj ∈ window → dx ∈ window →
  (is_Some (dx !! key) → is_Some (dj !! key))
  ∧ (if dx !! key then dj !! key else None) = dj !! key.
Proof.
  intros [Hall|Hnone] Hdj Hdx.
  - pose proof (proj1 (Forall_forall _ _) Hall dj Hdj) as Hj.
    pose proof (proj1 (Forall_forall _ _) Hall dx Hdx) as [v ->]. done.
  - pose proof (proj1 (Forall_forall _ _) Hnone dj Hdj) as Hj.
    pose proof (proj1 (Forall_forall _ _) Hnone dx Hdx) as Hx.
    rewrite Hx, Hj. split; [by intros [? ?]|done].
Qed.

(** C1, amended.  Let the hits of the window [result.hits[rank_start:rank_end]]
    agree in having [rank] and in having [score], and, in digit mode, let
    every character of the raw text that [isdigit] accepts be a decimal digit
    (alphabetic mode takes any text).  Then
    [receive_permutation] returns the result, and rewrites the positions of
    the window, and no other, with as many hits: the payloads (the fields
    other than [rank] and [score]) of the new hits are a permutation of the
    payloads of the old ones, each once, and [rank] and [score] stay at
    their positions. *)
Theorem receive_permutation_permutes (self : RankLLM V Prompt) (w : world) r hits
    permutation rank_start rank_end use_alpha :
  hits_of (heap w) r = Some hits →
  0 ≤ rank_start →
  uniform "rank" (slice hits rank_start rank_end) →
  uniform "score" (slice hits rank_start rank_end) →
  (use_alpha = false → Forall (λ c, isdigit c = true → isdecimal c = true) permutation) →
  ∃ w' new,
    receive_permutation self r permutation rank_start rank_end use_alpha w = (Ok r, w')
    ∧ hits_of (heap w') r
      = Some (take (Z.to_nat rank_start) hits ++ new
              ++ drop (Z.to_nat rank_start + length (slice hits rank_start rank_end)) hits)
    ∧ length new = length (slice hits rank_start rank_end)
    ∧ payload <$> new ≡ₚ payload <$> slice hits rank_start rank_end
    ∧ (λ d : dict, d !! "rank") <$> new
      = (λ d : dict, d !! "rank") <$> slice hits rank_start rank_end
    ∧ (λ d : dict, d !! "score") <$> new
      = (λ d : dict, d !! "score") <$> slice hits rank_start rank_end.
Proof.
  intros Hhits Hstart Hrank Hscore Htext.
  destruct (parsed_response_total (_rerank_type self) permutation use_alpha Htext)
    as [response Hparsed].
  pose proof (run_receive_permutation self w r hits permutation rank_start rank_end
                use_alpha response Hhits Hstart Hparsed) as Hrun.
  cbn zeta in Hrun.
  set (cut_range := slice hits rank_start rank_end) in *.
  set (response' := completed_response (length cut_range) response) in *.
  pose proof (completed_response_Permutation (length cut_range) response
                (parsed_response_NoDup _ _ _ _ Hparsed)) as Hperm.
  fold response' in Hperm.
  assert (length response' = length cut_range) as Hlen.
  { rewrite Hperm, length_seqZ. lia. }
  assert (∀ i x, response' !! i = Some x →
            ∃ dj dx, 0 ≤ x ∧ cut_range !! i = Some dj
                     ∧ cut_range !! Z.to_nat x = Some dx) as Hvalid.
  { intros i x Hi.
    assert (x ∈ seqZ 0 (Z.of_nat (length cut_range))) as Hx.
    { rewrite <-Hperm. by eapply list_elem_of_lookup_2. }
    apply elem_of_range in Hx. apply lookup_lt_Some in Hi.
    destruct (lookup_lt_is_Some_2 cut_range i ltac:(lia)) as [dj Hdj].
    destruct (lookup_lt_is_Some_2 cut_range (Z.to_nat x) ltac:(lia)) as [dx Hdx].
    exists dj, dx. split_and!; [lia|done..]. }
  destruct (moved_is_Some cut_range 0 response') as [new Hmoved].
  { intros i x Hi. destruct (Hvalid i x Hi) as (dj & dx & Hx & Hdj & Hdx).
    pose proof (list_elem_of_lookup_2 _ _ _ Hdj). pose proof (list_elem_of_lookup_2 _ _ _ Hdx).
    destruct (moved_hit_is_inl dj dx) as [d Hd].
    - by apply (uniform_pair "rank" cut_range).
    - by apply (uniform_pair "score" cut_range).
    - by exists dj, dx, d. }
  rewrite Hmoved in Hrun. destruct Hrun as (w' & Hrun & Hhits' & _).
  pose proof (moved_length _ _ _ _ Hmoved) as Hlen_new.
  pose proof (moved_Some_pairs _ _ _ _ Hmoved) as Hpairs.
  assert (∀ i d, new !! i = Some d →
            ∃ x dj dx, response' !! i = Some x ∧ cut_range !! i = Some dj
              ∧ cut_range !! Z.to_nat x = Some dx ∧ payload d = payload dx
              ∧ d !! "rank" = dj !! "rank" ∧ d !! "score" = dj !! "score") as Hnew.
  { intros i d Hi. pose proof (lookup_lt_Some _ _ _ Hi) as Hlt.
    destruct (lookup_lt_is_Some_2 response' i ltac:(lia)) as [x Hx].
    destruct (Hpairs i x Hx) as (dj & dx & d' & _ & Hdj & Hdx & Hhit & Hd').
    assert (d' = d) as -> by congruence. simpl in Hdj.
    pose proof (list_elem_of_lookup_2 _ _ _ Hdj). pose proof (list_elem_of_lookup_2 _ _ _ Hdx).
    apply moved_hit_inl in Hhit as [Hkeys Hpayload].
    destruct (Hkeys "rank" ltac:(by left)) as [_ Hr].
    destruct (Hkeys "score" ltac:(by right)) as [_ Hs].
    destruct (uniform_pair "rank" cut_range dj dx) as [_ Hr']; [done..|].
    destruct (uniform_pair "score" cut_range dj dx) as [_ Hs']; [done..|].
    exists x, dj, dx. split_and!; [done..| |]; congruence. }
  assert (∀ (A : Type) (f : dict → A),
            (∀ i d dj, new !! i = Some d → cut_range !! i = Some dj → f d = f dj) →
            f <$> new = f <$> cut_range) as Hcolumn.
  { intros A f Hf. apply list_eq. intros i. rewrite !list_lookup_fmap.
    destruct (new !! i) as [d|] eqn:Hd.
    - destruct (Hnew i d Hd) as (x & dj & dx & _ & Hdj & _). rewrite Hdj. simpl.
      f_equal. by eapply Hf.
    - apply lookup_ge_None in Hd. rewrite lookup_ge_None_2 by lia. done. }
  exists w', new. split_and!; [done|done|lia| | |].
  - assert (payload <$> new
            = (λ x, payload (cut_range !!! Z.to_nat x)) <$> response') as ->.
    { apply list_eq. intros i. rewrite !list_lookup_fmap.
      destruct (new !! i) as [d|] eqn:Hd.
      - destruct (Hnew i d Hd) as (x & dj & dx & -> & _ & Hdx & Hpayload & _). simpl.
        by rewrite (list_lookup_total_correct _ _ _ Hdx), Hpayload.
      - apply lookup_ge_None in Hd. rewrite lookup_ge_None_2 by lia. done. }
    rewrite Hperm.
    assert ((λ x, payload (cut_range !!! Z.to_nat x)) <$> seqZ 0 (Z.of_nat (length cut_range))
            = payload <$> cut_range) as ->; [|done].
    apply list_eq. intros i. rewrite !list_lookup_fmap.
    destruct (cut_range !! i) as [d|] eqn:Hd.
    + rewrite lookup_seqZ_lt by (apply lookup_lt_Some in Hd; lia). simpl.
      replace (Z.to_nat (0 + Z.of_nat i)) with i by lia.
      by rewrite (list_lookup_total_correct _ _ _ Hd).
    + rewrite lookup_seqZ_ge by (apply lookup_ge_None in Hd; lia). done.
  - apply Hcolumn. intros i d dj Hd Hdj.
    destruct (Hnew i d Hd) as (x & dj' & dx & _ & Hdj' & _ & _ & Hr & _). congruence.
  - apply Hcolumn. intros i d dj Hd Hdj.
    destruct (Hnew i d Hd) as (x & dj' & dx & _ & Hdj' & _ & _ & _ & Hs). congruence.
Qed.

End reorder_facts.

(** ** ASCII text is read alike under every character database *)

Section ascii_text.
Context (U1 U2 : Unicode).

Definition ascii (c : N) : Prop := (c < 128)%N.

Lemma ascii_digit_ascii c : ascii_digit c → ascii c.
Proof. unfold ascii_digit, ascii. lia. Qed.

Lemma isspace_agree c : ascii c → @isspace U1 c = @isspace U2 c.
Proof. intros Hc. by rewrite !ascii_isspace. Qed.

Lemma isalpha_agree c : ascii c → @isalpha U1 c = @isalpha U2 c.
Proof. intros Hc. by rewrite !ascii_isalpha. Qed.

Lemma isdigit_agree c : ascii c → @isdigit U1 c = @isdigit U2 c.
Proof. intros Hc. by rewrite !ascii_isdigit. Qed.

Lemma isdecimal_agree c : ascii c → @isdecimal U1 c = @isdecimal U2 c.
Proof. intros Hc. by rewrite !ascii_isdecimal. Qed.

Lemma decimal_value_agree c :
  ascii c → @isdecimal U1 c = true → @decimal_value U1 c = @decimal_value U2 c.
Proof.
  intros Hc Hdec. rewrite ascii_isdecimal in Hdec by done.
  rewrite !ascii_decimal_value; [done|table_cases..].
Qed.

Lemma take_while_ext p q (s : text) :
  Forall (λ c, p c = q c) s → take_while p s = take_while q s.
Proof. induction 1 as [|c s Hc Hs IH]; simpl; [done|]. by rewrite Hc, IH. Qed.

Lemma drop_while_ext p q (s : text) :
  Forall (λ c, p c = q c) s → drop_while p s = drop_while q s.
Proof. induction 1 as [|c s Hc Hs IH]; simpl; [done|]. by rewrite Hc, IH. Qed.

Lemma Forall_isspace_agree (s : text) :
  Forall ascii s → Forall (λ c, @isspace U1 c = @isspace U2 c) s.
Proof. intros Hs. eapply Forall_impl; [done|]. apply isspace_agree. Qed.

Lemma Forall_isdecimal_agree (s : text) :
  Forall ascii s → Forall (λ c, @isdecimal U1 c = @isdecimal U2 c) s.
Proof. intros Hs. eapply Forall_impl; [done|]. apply isdecimal_agree. Qed.

Lemma strip_agree (s : text) : Forall ascii s → @strip U1 s = @strip U2 s.
Proof.
  intros Hs. unfold strip.
  rewrite (drop_while_ext (@isspace U1) (@isspace U2) s) by by apply Forall_isspace_agree.
  rewrite (drop_while_ext (@isspace U1) (@isspace U2) (rev _)); [done|].
  by apply Forall_isspace_agree, Forall_rev, Forall_drop_while.
Qed.

Lemma split_from_agree cur (s : text) :
  Forall ascii s → @split_from U1 cur s = @split_from U2 cur s.
Proof.
  intros Hs. revert cur. induction Hs as [|c s Hc Hs IH]; intros cur; simpl; [done|].
  rewrite (isspace_agree c Hc). destruct (isspace c); [|done]. by destruct cur; rewrite IH.
Qed.

Lemma bracketed_agree (s : text) :
  Forall ascii s → @bracketed U1 s = @bracketed U2 s.
Proof.
  intros Hs. unfold bracketed. destruct s as [|c s1]; [done|].
  apply Forall_cons in Hs as [_ Hs1].
  rewrite (take_while_ext (@isdecimal U1) (@isdecimal U2) s1),
    (drop_while_ext (@isdecimal U1) (@isdecimal U2) s1);
    [done|by apply Forall_isdecimal_agree..].
Qed.

Lemma more_items_agree fuel (s : text) :
  Forall ascii s → @more_items U1 fuel s = @more_items U2 fuel s.
Proof.
  revert s. induction fuel as [|fuel IH]; intros s Hs; simpl; [done|].
  rewrite (take_while_ext (@isspace U1) (@isspace U2) s),
    (drop_while_ext (@isspace U1) (@isspace U2) s) by by apply Forall_isspace_agree.
  pose proof (Forall_drop_while ascii (@isspace U2) s Hs) as Hdrop.
  destruct (drop_while isspace s) as [|c s1]; [done|].
  apply Forall_cons in Hdrop as [_ Hs1]. destruct (c =? 62)%N; [|done].
  rewrite (take_while_ext (@isspace U1) (@isspace U2) s1),
    (drop_while_ext (@isspace U1) (@isspace U2) s1) by by apply Forall_isspace_agree.
  pose proof (Forall_drop_while ascii (@isspace U2) s1 Hs1) as Hdrop1.
  rewrite (bracketed_agree _ Hdrop1).
  destruct (bracketed (drop_while isspace s1)) as [[item rest]|] eqn:Hitem; [|done].
  apply (bracketed_spec (U:=U2)) in Hitem as [Hsplit _]. rewrite Hsplit in Hdrop1.
  apply Forall_app in Hdrop1 as [_ Hrest]. by rewrite (IH rest Hrest).
Qed.

Lemma match_ranked_list_agree (s : text) :
  Forall ascii s → @match_ranked_list U1 s = @match_ranked_list U2 s.
Proof.
  intros Hs. unfold match_ranked_list.
  rewrite (take_while_ext (@isspace U1) (@isspace U2) s),
    (drop_while_ext (@isspace U1) (@isspace U2) s) by by apply Forall_isspace_agree.
  pose proof (Forall_drop_while ascii (@isspace U2) s Hs) as Hdrop.
  rewrite (bracketed_agree _ Hdrop).
  destruct (bracketed (drop_while isspace s)) as [[item rest]|] eqn:Hitem; [|done].
  apply (bracketed_spec (U:=U2)) in Hitem as [Hsplit _]. rewrite Hsplit in Hdrop.
  apply Forall_app in Hdrop as [_ Hrest]. rewrite (more_items_agree _ rest Hrest).
  destruct (more_items (length rest) rest) as [more rest'] eqn:Hmore.
  apply (more_items_spec (U:=U2)) in Hmore as [Hsplit' _]. rewrite Hsplit' in Hrest.
  apply Forall_app in Hrest as [_ Hrest'].
  by rewrite (take_while_ext (@isspace U1) (@isspace U2) rest')
    by by apply Forall_isspace_agree.
Qed.

Lemma findall_from_agree skip (s : text) :
  Forall ascii s → @findall_from U1 skip s = @findall_from U2 skip s.
Proof.
  intros Hs. revert skip. induction Hs as [|c s Hc Hs IH]; intros skip; simpl; [done|].
  destruct skip; [|done].
  rewrite (match_ranked_list_agree (c :: s)) by by constructor.
  destruct (match_ranked_list (c :: s)) as [[g n]|]; by rewrite IH.
Qed.

Lemma parse_reasoning_permutation_agree (response : text) :
  Forall ascii response →
  @parse_reasoning_permutation U1 response = @parse_reasoning_permutation U2 response.
Proof.
  intros Hs. unfold parse_reasoning_permutation, findall.
  rewrite (findall_from_agree 0 response Hs).
  destruct (contains end_of_answer_tag response && contains end_of_reasoning_tag response);
    [|done].
  destruct (index end_of_reasoning_tag response) as [i|]; [|done].
  destruct (index end_of_answer_tag response) as [j|]; [|done].
  set (inner := remove_all start_of_answer_tag (substring response i j)).
  assert (Forall ascii inner) as Hinner.
  { by apply Forall_remove_from, Forall_take, Forall_drop. }
  rewrite (strip_agree inner Hinner).
  assert (Forall ascii (@strip U2 inner)) as Hregion by by apply Forall_strip.
  rewrite (findall_from_agree 0 _ Hregion).
  destruct (findall_from_spec (U:=U2) 0 (strip inner)) as [_ HP].
  specialize (HP ascii Hregion).
  destruct (findall_from 0 (strip inner)) as [|m ms]; [done|].
  apply Forall_cons in HP as [Hm _]. by rewrite (strip_agree m Hm).
Qed.

Lemma Forall_ascii_str n : 0 ≤ n → Forall ascii (str n).
Proof.
  intros Hn. destruct (str_digits n Hn) as [Hdigits _].
  eapply Forall_impl; [done|]. apply ascii_digit_ascii.
Qed.

Lemma clean_response_agree _rerank_type (response : text) use_alpha :
  Forall ascii response →
  @_clean_response U1 _rerank_type response use_alpha
  = @_clean_response U2 _rerank_type response use_alpha
  ∧ Forall ascii (@_clean_response U2 _rerank_type response use_alpha).
Proof.
  intros Hs. rewrite !clean_response_pieces.
  assert (@extracted U1 _rerank_type response = @extracted U2 _rerank_type response) as ->.
  { unfold extracted. by rewrite parse_reasoning_permutation_agree. }
  pose proof (Forall_extracted (U:=U2) ascii _rerank_type response Hs) as Hext.
  set (s := extracted _rerank_type response) in *.
  assert (flat_map (if use_alpha then @alpha_piece U1 else @digit_piece U1) s
          = flat_map (if use_alpha then @alpha_piece U2 else @digit_piece U2) s
          ∧ Forall ascii (flat_map (if use_alpha then @alpha_piece U2 else @digit_piece U2) s))
    as [-> Hflat].
  { clearbody s. induction Hext as [|c s Hc Hs' IH]; simpl; [done|].
    destruct IH as [-> IH]. split.
    - f_equal. destruct use_alpha.
      + unfold alpha_piece. by rewrite (isalpha_agree c Hc).
      + unfold digit_piece. by rewrite (isdigit_agree c Hc).
    - apply Forall_app. split; [|done]. destruct use_alpha.
      + unfold alpha_piece. destruct (isalpha c) eqn:Halpha.
        * apply Forall_ascii_str. pose proof (isalpha_ord (U:=U2) c Halpha). lia.
        * by repeat constructor.
      + unfold digit_piece. destruct (isdigit c); by repeat constructor. }
  split; [by apply strip_agree|by apply Forall_strip].
Qed.

Lemma int_agree (x : text) : Forall ascii x → @int U1 x = @int U2 x.
Proof.
  intros Hx. unfold int. destruct x as [|c x]; [done|]. revert Hx.
  generalize (c :: x). clear c x. intros x Hx.
  assert (forallb (@isdecimal U1) x = forallb (@isdecimal U2) x) as Hall.
  { induction Hx as [|c x Hc Hx IH]; simpl; [done|].
    by rewrite (isdecimal_agree c Hc), IH. }
  rewrite <-Hall. clear Hall.
  destruct (forallb (@isdecimal U1) x) eqn:Hdec; [|done]. f_equal.
  generalize 0. induction Hx as [|c x Hc Hx IH]; intros acc; simpl; [done|].
  simpl in Hdec. apply andb_true_iff in Hdec as [Hc1 Hx1].
  rewrite (decimal_value_agree c Hc Hc1). by apply IH.
Qed.

Lemma parsed_response_agree _rerank_type (permutation : text) use_alpha :
  Forall ascii permutation →
  @parsed_response U1 _rerank_type permutation use_alpha
  = @parsed_response U2 _rerank_type permutation use_alpha.
Proof.
  intros Hs. unfold parsed_response.
  destruct (clean_response_agree _rerank_type permutation use_alpha Hs) as [-> Hclean].
  unfold split. rewrite (split_from_agree [] _ Hclean).
  assert (Forall (Forall ascii) (@split U2 (_clean_response _rerank_type permutation use_alpha)))
    as Htokens.
  { eapply Forall_impl; [apply (split_tokens (U:=U2) ascii)|by intros x [_ ?]].
    eapply Forall_impl; [done|]. auto. }
  unfold split in Htokens.
  assert (∀ xs, Forall (Forall ascii) xs →
            mapM (λ x, (λ v, v - 1) <$> @int U1 x) xs
            = mapM (λ x, (λ v, v - 1) <$> @int U2 x) xs) as HmapM.
  { induction 1 as [|x xs Hx Hxs IH]; simpl; [done|]. by rewrite (int_agree x Hx), IH. }
  by rewrite HmapM.
Qed.

End ascii_text.

(** ** Runs on small stores *)

(** A hit with a document number and, optionally, a rank and a score. *)
Definition hit (docid : Z) (rank_score : option (Z * Z)) : gmap string Z :=
  match rank_score with
  | Some (rank, score) => <["rank":=rank]> (<["score":=score]> {["docid" := docid]})
  | None => {["docid" := docid]}
  end.

(** Three hits that all carry a rank and a score; two hits of which only the
    second does. *)
Definition ranked_hits : list (gmap string Z) :=
  [hit 10 (Some (1, 90)); hit 20 (Some (2, 80)); hit 30 (Some (3, 70))].

Definition mixed_hits : list (gmap string Z) :=
  [hit 10 None; hit 20 (Some (2, 80))].

(** The first two of [ranked_hits] with their documents exchanged: ranks and
    scores are where they were. *)
Definition exchanged_hits : list (gmap string Z) :=
  [hit 20 (Some (1, 90)); hit 10 (Some (2, 80)); hit 30 (Some (3, 70))].

(** A store with one result, at identity [1], that has the given hits and
    no execution record. *)
Definition store_of (hits : list (gmap string Z)) : world Z text :=
  let items := (λ i, Pos.of_nat (3 + i)) <$> seq 0 (length hits) in
  World (list_to_map ((1%positive, ObjResult 2 None) :: (2%positive, ObjList items)
                      :: zip items (ObjDict <$> hits))) [].

(** A store with two results, at the identities [1] and [5], of two ranked
    hits each. *)
Definition batch_store : world Z text :=
  World (list_to_map
           [(1%positive, ObjResult 2 None); (2%positive, ObjList [3; 4]%positive);
            (3%positive, ObjDict (hit 10 (Some (1, 90))));
            (4%positive, ObjDict (hit 20 (Some (2, 80))));
            (5%positive, ObjResult 6 None); (6%positive, ObjList [7; 8]%positive);
            (7%positive, ObjDict (hit 30 (Some (1, 70))));
            (8%positive, ObjDict (hit 40 (Some (2, 60))))]) [].

(** A ranker whose oracle always gives the same answer.  Its batched
    renderer renders one prompt, whatever the size of the batch. *)
Definition fixed_ranker (_rerank_type : string) (answer : text) : RankLLM Z text :=
  {| _rerank_type := _rerank_type;
     create_prompt := λ _ _ _ _ _, ([], 0);
     run_llm := λ _ _ _ _ _, (answer, 0);
     create_prompt_batched := λ _ _ _ _ _, [([], 0)];
     run_llm_batched := λ _ prompts _ _ _, (λ _, (answer, 0)) <$> prompts;
     get_num_tokens := λ _, 0;
     num_output_tokens := 0 |}.

Lemma store_of_ranked_hits : hits_of (heap (store_of ranked_hits)) 1 = Some ranked_hits.
Proof. by vm_compute. Qed.

Lemma store_of_mixed_hits : hits_of (heap (store_of mixed_hits)) 1 = Some mixed_hits.
Proof. by vm_compute. Qed.

(** [receive_permutation] is no total permutation of the slice: it raises
    [KeyError] on hits of which one lacks a rank, it raises [ValueError] on a
    superscript two (a digit that is not decimal), and on ranked hits the hits
    it writes are not the hits it read, as ranks and scores stay in place. *)
Lemma receive_permutation_not_total :
  (receive_permutation (U:=latin1) (fixed_ranker "" []) 1 (py "[2] > [1]") 0 2 false
     (store_of mixed_hits)).1 = Raise (KeyError "rank")
  ∧ (receive_permutation (U:=latin1) (fixed_ranker "" []) 1 [178%N] 0 3 false
       (store_of ranked_hits)).1 = Raise ValueError
  ∧ hits_of (heap (receive_permutation (U:=latin1) (fixed_ranker "" []) 1
                     (py "[2] > [1]") 0 3 false (store_of ranked_hits)).2) 1
    = Some exchanged_hits
  ∧ exchanged_hits ≢ₚ ranked_hits.
Proof.
  split_and!; [by vm_compute..|].
  intros Hperm.
  assert (hit 20 (Some (1, 90)) ∈ ranked_hits) as Hin by (rewrite <-Hperm; by left).
  apply (bool_decide_pack _) in Hin. by vm_compute in Hin.
Qed.

(** In alphabetic mode the cleaning step leaves every separator in place and
    does not fold case. *)
Lemma clean_response_alpha_example :
  _clean_response (U:=latin1) "" (py "[C] > [A]") true = py "3     1"
  ∧ py "3     1" ≠ py "3 1"
  ∧ _clean_response (U:=latin1) "" (py "A") true = py "1"
  ∧ _clean_response (U:=latin1) "" (py "a") true = py "33".
Proof. by vm_compute. Qed.

(** The batched pipeline on a batch of two results and one rendered prompt:
    the oracle is invoked, nothing is raised, the first result is reordered
    and the second is left as it was. *)
Lemma permutation_pipeline_batched_no_fail_fast :
  let self := fixed_ranker "" (py "[2] > [1]") in
  let run := permutation_pipeline_batched (U:=latin1) self [1; 5]%positive false false
               0 2 batch_store in
  create_prompt_batched self batch_store [1; 5]%positive false 0 2 = [([], 0)]
  ∧ run.1 = Ok [1; 5]%positive
  ∧ calls run.2 = [CreatePromptBatched [1; 5]%positive false 0 2;
                   RunLLMBatched [[]] false false 2]
  ∧ hits_of (heap run.2) 1 = Some [hit 20 (Some (1, 90)); hit 10 (Some (2, 80))]
  ∧ hits_of (heap run.2) 5 = hits_of (heap batch_store) 5.
Proof. by vm_compute. Qed.

Lemma uniform_ranked_hits key :
  key = "rank" ∨ key = "score" → uniform key (slice ranked_hits 0 3).
Proof. intros [-> | ->]; left; apply (bool_decide_unpack _); by vm_compute. Qed.

Lemma decimal_digits_only (s : text) :
  Forall ascii s → Forall (λ c, isdigit (Unicode:=latin1) c = true → isdecimal c = true) s.
Proof.
  intros Hs. eapply Forall_impl; [done|]. intros c Hc. unfold ascii in Hc. cbn.
  unfold latin1_isdigit, latin1_isdecimal. table_cases.
Qed.

Lemma py_ascii_21 : Forall ascii (py "[2] > [1]").
Proof. apply (bool_decide_unpack _). by vm_compute. Qed.

Lemma receive_permutation_permutes_witness :
  ∃ w' new,
    receive_permutation (U:=latin1) (fixed_ranker "" []) 1 (py "[2] > [1]") 0 3 false
      (store_of ranked_hits) = (Ok 1%positive, w')
    ∧ hits_of (heap w') 1
      = Some (take (Z.to_nat 0) ranked_hits ++ new
              ++ drop (Z.to_nat 0 + length (slice ranked_hits 0 3)) ranked_hits)
    ∧ length new = length (slice ranked_hits 0 3)
    ∧ payload <$> new ≡ₚ payload <$> slice ranked_hits 0 3
    ∧ (λ d : gmap string Z, d !! "rank") <$> new
      = (λ d : gmap string Z, d !! "rank") <$> slice ranked_hits 0 3
    ∧ (λ d : gmap string Z, d !! "score") <$> new
      = (λ d : gmap string Z, d !! "score") <$> slice ranked_hits 0 3.
Proof.
  apply (receive_permutation_permutes (U:=latin1) (fixed_ranker "" [])
           (store_of ranked_hits) 1%positive ranked_hits (py "[2] > [1]") 0 3 false).
  - exact store_of_ranked_hits.
  - lia.
  - apply uniform_ranked_hits. by left.
  - apply uniform_ranked_hits. by right.
  - intros _. apply decimal_digits_only, py_ascii_21.
Defined.

Lemma receive_permutation_empty_identity_witness :
  ∃ w', receive_permutation (U:=latin1) (fixed_ranker "" []) 1 [] 0 3 true
          (store_of ranked_hits) = (Ok 1%positive, w')
        ∧ hits_of (heap w') 1 = Some ranked_hits.
Proof.
  apply (receive_permutation_empty_identity (U:=latin1) (fixed_ranker "" [])
           (store_of ranked_hits) 1%positive ranked_hits 0 3 true).
  - exact store_of_ranked_hits.
  - lia.
Defined.

Lemma receive_permutation_key_error_witness :
  ∃ permutation key' w',
    receive_permutation (U:=latin1) (fixed_ranker "" []) 1 permutation 0 2 false
      (store_of mixed_hits) = (Raise (KeyError key'), w').
Proof.
  apply (receive_permutation_key_error (U:=latin1) (fixed_ranker "" [])
           (store_of mixed_hits) 1%positive mixed_hits 0 2 "rank"
           (hit 20 (Some (2, 80))) (hit 10 None)).
  - exact store_of_mixed_hits.
  - lia.
  - by left.
  - apply (bool_decide_unpack _). by vm_compute.
  - apply (bool_decide_unpack _). by vm_compute.
  - apply (bool_decide_unpack _). by vm_compute.
  - by vm_compute.
Defined.

(** ** The cleaning step and the merge order *)

Section parser_claims.
Context {U : Unicode}.

Lemma py_ascii (s : string) :
  bool_decide (Forall ascii (py s)) = true → Forall ascii (py s).
Proof. intros H. by apply bool_decide_eq_true in H. Qed.

(** C5, amended.  In alphabetic mode the cleaning step puts, for every
    character of the response, the decimal numeral of [ord(c) - 64] if the
    character is a letter ([A] gives 1, [B] gives 2, ... and, case not being
    folded, [a] gives 33) and one space if it is not, and strips the result at
    both ends; separators inside are not collapsed.  The tokens of the
    cleaned response are numerals of positive integers.  So
    [_clean_response("[C] > [A]", True)] is [3], five spaces, [1], which
    splits into the tokens [3] and [1]. *)
Theorem clean_response_alpha_contract :
  (∀ _rerank_type response,
     _clean_response _rerank_type response true
     = strip (flat_map (λ c, if isalpha c then str (Z.of_N c - 64) else [32%N])
                (extracted _rerank_type response)))
  ∧ (∀ _rerank_type response,
       Forall positive_numeral (split (_clean_response _rerank_type response true)))
  ∧ (∀ _rerank_type,
       _clean_response _rerank_type (py "[C] > [A]") true = py "3     1"
       ∧ split (py "3     1") = [py "3"; py "1"])
  ∧ (∀ _rerank_type,
       _clean_response _rerank_type (py "A") true = py "1"
       ∧ _clean_response _rerank_type (py "a") true = py "33").
Proof.
  assert (∀ _rerank_type s out,
            bool_decide (Forall ascii (py s)) = true →
            (∀ b : bool,
               strip (U:=latin1)
                 (flat_map (alpha_piece (U:=latin1))
                    (if b then (parse_reasoning_permutation (U:=latin1) (py s)).1
                     else py s)) = out) →
            _clean_response _rerank_type (py s) true = out) as Hrun.
  { intros rt s out Hs Hout.
    destruct (clean_response_agree U latin1 rt (py s) true (py_ascii s Hs)) as [-> _].
    rewrite clean_response_pieces. unfold extracted. apply Hout. }
  split_and!.
  - intros. apply (clean_response_pieces _ _ true).
  - apply clean_response_alpha_tokens.
  - intros rt. split.
    + apply Hrun; [done|]. by intros []; vm_compute.
    + unfold split. rewrite (split_from_agree U latin1); [by vm_compute|].
      apply (bool_decide_unpack _). by vm_compute.
  - intros rt. split; (apply Hrun; [done|]; by intros []; vm_compute).
Qed.

(** C4.  [_remove_duplicate] keeps the first occurrence of every index; the
    indices outside [range(n)] are then dropped and the indices of [range(n)]
    that were not named are appended in increasing order.  On a slice of
    three hits the raw permutation "[2] > [2] > [1]" gives the source order
    1, 0, 2, and "[5] > [1]" gives 0, 1, 2; with the first, the three ranked
    hits come out with their documents in the order second, first, third. *)
Theorem merge_tolerates_duplicates_and_range :
  (_remove_duplicate [] = []
   ∧ ∀ x l, _remove_duplicate (x :: l) = x :: _remove_duplicate (filter (λ y, y ≠ x) l))
  ∧ (∀ (n : nat) response,
       completed_response n response
       = filter (λ x, 0 ≤ x < Z.of_nat n) response
         ++ filter (λ x, x ∉ filter (λ x, 0 ≤ x < Z.of_nat n) response)
              (seqZ 0 (Z.of_nat n)))
  ∧ (∀ _rerank_type,
       completed_response 3 <$> parsed_response _rerank_type (py "[2] > [2] > [1]") false
       = Some [1; 0; 2])
  ∧ (∀ _rerank_type,
       completed_response 3 <$> parsed_response _rerank_type (py "[5] > [1]") false
       = Some [0; 1; 2])
  ∧ (∀ _rerank_type,
       ∃ w', receive_permutation (fixed_ranker _rerank_type []) 1 (py "[2] > [2] > [1]")
               0 3 false (store_of ranked_hits) = (Ok 1%positive, w')
             ∧ hits_of (heap w') 1 = Some exchanged_hits).
Proof.
  assert (∀ rt s response,
            bool_decide (Forall ascii (py s)) = true →
            (∀ b : bool,
               parsed_response (U:=latin1) (if b then "code_reasoning" else "") (py s) false
               = Some response) →
            parsed_response rt (py s) false = Some response) as Hrun.
  { intros rt s response Hs Hout.
    rewrite (parsed_response_agree U latin1 rt (py s) false (py_ascii s Hs)).
    unfold parsed_response, _clean_response.
    specialize (Hout (String.eqb rt "code_reasoning")).
    unfold parsed_response, _clean_response in Hout.
    by destruct (String.eqb rt "code_reasoning"). }
  split_and!.
  - done.
  - apply remove_duplicate_cons.
  - apply completed_response_range.
  - intros rt. rewrite (Hrun rt _ [1; 0]); [done|done|]. by intros []; vm_compute.
  - intros rt. rewrite (Hrun rt _ [4; 0]); [done|done|]. by intros []; vm_compute.
  - intros rt.
    pose proof (run_receive_permutation (fixed_ranker rt []) (store_of ranked_hits) 1
                  ranked_hits (py "[2] > [2] > [1]") 0 3 false [1; 0]
                  store_of_ranked_hits ltac:(lia)) as Hreceive.
    cbn zeta in Hreceive.
    specialize (Hreceive (Hrun rt "[2] > [2] > [1]" [1; 0] eq_refl
                            ltac:(by intros []; vm_compute))).
    assert (moved (slice ranked_hits 0 3)
              0 (completed_response (length (slice ranked_hits 0 3)) [1; 0])
            = Some exchanged_hits) as Hmoved by by vm_compute.
    rewrite Hmoved in Hreceive. destruct Hreceive as (w' & Hrun' & Hhits & _).
    exists w'. split; [done|]. rewrite Hhits. by vm_compute.
Qed.

End parser_claims.

(** * Further properties *)

(** ** More on the window schedule *)

(** Whether a computation has returned. *)
Definition returned {A} (o : outcome A) : bool :=
  match o with Ok _ => true | _ => false end.

(** The sum of a list of integers. *)
Definition total (l : list Z) : Z := foldr Z.add 0 l.

Section schedule_more.
Context {U : Unicode} {V Prompt : Type}.

Lemma windows_cover_from fuel rank_start step start_pos end_pos ws :
  0 < step ≤ end_pos - start_pos → rank_start < end_pos →
  start_pos + step ≠ rank_start →
  windows fuel rank_start step start_pos end_pos = Some ws →
  ∀ p, rank_start ≤ p < end_pos → Exists (λ win, win.1 ≤ p < win.2) ws.
Proof.
  revert start_pos end_pos ws.
  induction fuel as [|fuel IH]; intros s e ws Hstep He Hs.
  { simpl. by rewrite bool_decide_eq_true_2 by lia. }
  rewrite windows_unfold, bool_decide_eq_true_2 by lia.
  destruct (windows fuel _ _ _ _) as [rest|] eqn:Hrest; [|done].
  intros [= <-] p Hp.
  destruct (decide (Z.max s rank_start ≤ p)) as [Hin|Hout].
  - apply Exists_cons_hd. simpl. lia.
  - apply Exists_cons_tl. eapply IH; [| | |done|]; lia.
Qed.

(** X1.  When the step is positive and not larger than the window, the
    range is not empty and the loop is entered (the first window start plus
    the step is not [rank_start]), the windows of [sliding_windows] cover the
    range: every position from [rank_start] up to [rank_end] lies in one of
    the windows the pipeline is run on. *)
Theorem sliding_windows_cover (self : RankLLM V Prompt) fuel retrieved_result
    use_logits use_alpha rank_start rank_end window_size step w :
  0 < step ≤ window_size → rank_start < rank_end →
  rank_end - window_size + step ≠ rank_start →
  rank_end - rank_start ≤ Z.of_nat fuel →
  ∃ ws,
    sliding_windows self fuel retrieved_result use_logits use_alpha
      rank_start rank_end window_size step w
    = (rerank_result ← deepcopy_result retrieved_result;
       for_windows (λ r s e, permutation_pipeline self r use_logits use_alpha s e)
         rerank_result ws) w
    ∧ ∀ p, rank_start ≤ p < rank_end → Exists (λ win, win.1 ≤ p < win.2) ws.
Proof.
  intros Hstep Hrange Henter Hfuel.
  destruct (windows_terminates fuel rank_start step (rank_end - window_size) rank_end)
    as [ws Hws]; [lia..|].
  exists ws. split.
  - unfold sliding_windows, mbind, M_bind.
    destruct (deepcopy_result retrieved_result w) as [[rr| |] w']; [|done..].
    by apply sliding_loop_windows.
  - eapply windows_cover_from; [| | |done]; lia.
Qed.

(** The schedule when the first window start lies a whole number [m] of
    steps above [rank_start]. *)
Lemma windows_aligned fuel rank_start step window_size (m : nat) :
  0 < step → 0 < window_size → (m < fuel)%nat →
  windows fuel rank_start step (rank_start + Z.of_nat m * step)
    (rank_start + Z.of_nat m * step + window_size)
  = Some ((λ i : nat, (rank_start + (Z.of_nat m - Z.of_nat i) * step,
                       rank_start + (Z.of_nat m - Z.of_nat i) * step + window_size))
            <$> seq 0 (S m)).
Proof.
  intros Hstep Hsize. revert fuel.
  induction m as [|m IH]; intros fuel Hfuel.
  - destruct fuel as [|fuel]; [lia|]. rewrite windows_unfold.
    rewrite bool_decide_eq_true_2 by lia.
    destruct fuel; simpl; rewrite bool_decide_eq_false_2 by lia;
      simpl; repeat f_equal; lia.
  - destruct fuel as [|fuel]; [lia|]. rewrite windows_unfold.
    rewrite bool_decide_eq_true_2 by nia.
    rewrite Z.max_l by nia.
    replace (rank_start + Z.of_nat (S m) * step - step)
      with (rank_start + Z.of_nat m * step) by lia.
    replace (rank_start + Z.of_nat (S m) * step + window_size - step)
      with (rank_start + Z.of_nat m * step + window_size) by lia.
    rewrite IH by lia. cbn [mbind option_bind]. f_equal.
    change (seq 0 (S (S m))) with (0%nat :: seq 1 (S m)).
    rewrite <-fmap_S_seq, fmap_cons, <-list_fmap_compose.
    f_equal; try lia.
    apply list_fmap_ext. intros i x _. simpl. f_equal; lia.
Qed.

(** X2.  When the first window start lies a whole number [m] of steps above
    [rank_start], the scheduler and the cost estimator both go through the
    same [m + 1] windows of full size, each [step] below the one before, down
    to the window that starts at [rank_start]. *)
Theorem windows_aligned_closed_form rank_start rank_end window_size step (m fuel : nat) :
  0 < step → 0 < window_size →
  rank_end - window_size = rank_start + Z.of_nat m * step →
  (m < fuel)%nat →
  let ws := (λ i : nat, (rank_end - window_size - Z.of_nat i * step,
                         rank_end - Z.of_nat i * step)) <$> seq 0 (S m) in
  windows fuel rank_start step (rank_end - window_size) rank_end = Some ws
  ∧ cost_windows fuel rank_start rank_end window_size step = Some ws
  ∧ Z.of_nat (length ws) = (rank_end - rank_start - window_size) / step + 1
  ∧ last ws = Some (rank_start, rank_start + window_size).
Proof.
  intros Hstep Hsize Hm Hfuel ws.
  assert (windows fuel rank_start step (rank_end - window_size) rank_end = Some ws) as Hws.
  { pose proof (windows_aligned fuel rank_start step window_size m Hstep Hsize Hfuel) as H.
    rewrite <-Hm in H. replace (rank_end - window_size + window_size) with rank_end in H by lia.
    rewrite H. f_equal. apply list_fmap_ext. intros i x _. f_equal; lia. }
  split_and!; [done| | |].
  - destruct (cost_windows_prefix _ _ _ _ _ _ Hstep Hsize Hws) as (cs & -> & _ & Heq).
    f_equal. apply Heq; [|lia]. exists (Z.of_nat m). lia.
  - unfold ws. rewrite length_fmap, length_seq.
    replace (rank_end - rank_start - window_size) with (Z.of_nat m * step) by lia.
    rewrite Z.div_mul by lia. lia.
  - unfold ws. rewrite seq_S, fmap_app. simpl. rewrite last_snoc. f_equal. f_equal; lia.
Qed.

Lemma windows_aligned_closed_form_witness :
  let ws := (λ i : nat, (100 - 20 - Z.of_nat i * 10, 100 - Z.of_nat i * 10)) <$> seq 0 9 in
  windows 9 0 10 (100 - 20) 100 = Some ws
  ∧ cost_windows 9 0 100 20 10 = Some ws
  ∧ Z.of_nat (length ws) = (100 - 0 - 20) / 10 + 1
  ∧ last ws = Some (0, 0 + 20).
Proof. apply (windows_aligned_closed_form 0 100 20 10 8 9); lia. Defined.

(** With a step of zero the loop of the schedulers does not end once it is
    entered with a window that starts above [rank_start]. *)
Lemma sliding_loop_zero_step {A} fuel (pipeline : A → Z → Z → M V Prompt A) a
    rank_start start_pos end_pos w :
  rank_start < start_pos → rank_start < end_pos →
  returned (sliding_loop fuel pipeline a rank_start 0 start_pos end_pos w).1 = false.
Proof.
  intros Hs He. revert a w. induction fuel as [|fuel IH]; intros a w; simpl;
    rewrite bool_decide_eq_true_2 by lia; [done|].
  unfold mbind, M_bind. destruct (pipeline a _ _ w) as [[a'| |] w']; [|done..].
  rewrite Z.max_l, !Z.sub_0_r by lia. apply IH.
Qed.

Lemma returned_bind {A B} (m : M V Prompt A) (k : A → M V Prompt B) w :
  (∀ a w', returned (k a w').1 = false) → returned ((m ≫= k) w).1 = false.
Proof. intros Hk. unfold mbind, M_bind. by destruct (m w) as [[a| |] w']. Qed.

(** X3.  With [step = 0] and a window smaller than a non-empty range,
    [sliding_windows] and [sliding_windows_batched] never return: whatever
    number of rounds is allowed, the call has raised or is still running, and
    [get_ranking_cost], with a step that is not positive and a window that
    fits the range, does not end on a list of results that is not empty. *)
Theorem zero_step_never_returns :
  (∀ (self : RankLLM V Prompt) fuel retrieved_result use_logits use_alpha
     rank_start rank_end window_size w,
     rank_start < rank_end - window_size → rank_start < rank_end →
     returned (sliding_windows self fuel retrieved_result use_logits use_alpha
                 rank_start rank_end window_size 0 w).1 = false)
  ∧ (∀ (self : RankLLM V Prompt) fuel retrieved_results use_logits use_alpha
       rank_start rank_end window_size w,
       rank_start < rank_end - window_size → rank_start < rank_end →
       returned (sliding_windows_batched self fuel retrieved_results use_logits
                   use_alpha rank_start rank_end window_size 0 w).1 = false)
  ∧ (∀ R (self : RankLLM V Prompt) fuel (render : R → Z → Z → Prompt) result rest
       rank_start rank_end window_size step input_tokens output_tokens,
       step ≤ 0 → rank_start ≤ rank_end - window_size →
       get_ranking_cost self fuel render (result :: rest) rank_start rank_end
         window_size step input_tokens output_tokens = None).
Proof.
  split_and!.
  - intros. apply returned_bind. intros. by apply sliding_loop_zero_step.
  - intros. apply returned_bind. intros. by apply sliding_loop_zero_step.
  - intros R self fuel render result rest rs re wsz step i o Hstep Hfit.
    cbn [get_ranking_cost].
    assert (∀ tokens_at num_output s e i o,
              rs ≤ s → cost_loop fuel tokens_at num_output rs step s e i o = None) as ->;
      [|done|done].
    induction fuel as [|fuel IH]; intros tokens_at num_output s e i' o' Hs; simpl;
      rewrite bool_decide_eq_true_2 by lia; [done|].
    rewrite IH by lia. done.
Qed.

Lemma total_cons x l : total (x :: l) = x + total l.
Proof. done. Qed.

(** The token counts that the loop of [get_ranking_cost] adds up. *)
Lemma cost_loop_total fuel tokens_at num_output rank_start step start_pos end_pos i o :
  0 < step → start_pos - rank_start < Z.of_nat fuel →
  ∃ ws, cost_loop fuel tokens_at num_output rank_start step start_pos end_pos i o
        = Some (ws, i + total ((λ win, tokens_at win.1 win.2) <$> ws),
                o + Z.of_nat (length ws) * num_output)
        ∧ (start_pos < rank_start → ws = []).
Proof.
  intros Hstep. revert start_pos end_pos i o.
  induction fuel as [|fuel IH]; intros s e i o Hfuel; simpl.
  - rewrite bool_decide_eq_false_2 by lia. exists []. split; [|done].
    simpl. apply f_equal, (f_equal2 pair); [apply (f_equal2 pair); [done|lia]|lia].
  - case_bool_decide as Hge.
    + rewrite Z.max_l by lia.
      destruct (IH (s - step) (e - step) (i + tokens_at s e) (o + num_output))
        as (ws & -> & _); [lia|].
      exists ((s, e) :: ws). split; [|intros; lia].
      cbn [mbind option_bind]. rewrite fmap_cons, total_cons. cbn [length fst snd].
      apply f_equal, (f_equal2 pair); [apply (f_equal2 pair); [done|lia]|lia].
    + exists []. split; [|done]. simpl.
      apply f_equal, (f_equal2 pair); [apply (f_equal2 pair); [done|lia]|lia].
Qed.

(** X4.  With a positive step [get_ranking_cost] ends, and the number of
    tokens it returns is the sum, over the results and over the windows it
    visits, of the tokens of the prompt rendered for the window and of
    [num_output_tokens]; the windows are the same for every result, and there
    is none, so that the count is 0, when the window is larger than the
    range. *)
Theorem get_ranking_cost_total {R} (self : RankLLM V Prompt) fuel
    (render : R → Z → Z → Prompt) retrieved_results rank_start rank_end window_size step :
  0 < step → rank_end - window_size - rank_start < Z.of_nat fuel →
  ∃ ws,
    cost_windows fuel rank_start rank_end window_size step = Some ws
    ∧ get_ranking_cost self fuel render retrieved_results rank_start rank_end
        window_size step 0 0
      = Some (total ((λ result,
                        total ((λ win, get_num_tokens self (render result win.1 win.2)
                                       + num_output_tokens self) <$> ws))
                     <$> retrieved_results))
    ∧ (rank_end - window_size < rank_start → ws = []).
Proof.
  intros Hstep Hfuel.
  destruct (cost_loop_total fuel (λ _ _, 0) 0 rank_start step (rank_end - window_size)
              rank_end 0 0 Hstep Hfuel) as (ws & Hws & Hnone).
  exists ws. split_and!; [by unfold cost_windows; rewrite Hws| |done].
  assert (∀ i o,
            get_ranking_cost self fuel render retrieved_results rank_start rank_end
              window_size step i o
            = Some (i + o
                    + total ((λ result,
                                total ((λ win, get_num_tokens self (render result win.1 win.2)
                                               + num_output_tokens self) <$> ws))
                             <$> retrieved_results))) as ->; [|done].
  induction retrieved_results as [|result rest IH]; intros i o; cbn [get_ranking_cost].
  { simpl. f_equal. lia. }
  destruct (cost_loop_total fuel (λ s e, get_num_tokens self (render result s e))
              (num_output_tokens self) rank_start step (rank_end - window_size)
              rank_end i o Hstep Hfuel) as (ws' & Hws' & _).
  pose proof (cost_loop_visited fuel (λ s e, get_num_tokens self (render result s e))
                (λ _ _, 0) (num_output_tokens self) 0 rank_start step
                (rank_end - window_size) rank_end i o 0 0) as Hsame.
  rewrite Hws, Hws' in Hsame. simpl in Hsame. injection Hsame as ->.
  rewrite Hws'. cbn [mbind option_bind]. rewrite IH, fmap_cons, total_cons. f_equal.
  assert (∀ l : list (Z * Z),
            total ((λ win, get_num_tokens self (render result win.1 win.2)
                           + num_output_tokens self) <$> l)
            = total ((λ win, get_num_tokens self (render result win.1 win.2)) <$> l)
              + Z.of_nat (length l) * num_output_tokens self) as ->; [|lia].
  induction l as [|win l IHl]; [done|].
  rewrite !fmap_cons, !total_cons, IHl. cbn [length]. lia.
Qed.

End schedule_more.

(** ** More on the store *)

Section store_more.
Context {U : Unicode} {V Prompt : Type}.

Local Abbreviation obj := (obj V Prompt).
Local Abbreviation world := (world V Prompt).
Local Abbreviation M := (M V Prompt).
Local Abbreviation dict := (gmap string V).

Lemma run_read_result (w : world) r h t :
  heap w !! r = Some (ObjResult h t) → read_result r w = (Ok (h, t), w).
Proof. intros Hr. unfold read_result, read, mbind, M_bind. by rewrite Hr. Qed.

Lemma run_read_trace (w : world) t entries :
  heap w !! t = Some (ObjTrace entries) → read_trace t w = (Ok entries, w).
Proof. intros Ht. unfold read_trace, read, mbind, M_bind. by rewrite Ht. Qed.

Lemma run_alloc (w : world) (o : obj) :
  let l := fresh (dom (heap w)) in
  alloc o w = (Ok l, World (<[l:=o]> (heap w)) (calls w))
  ∧ heap w !! l = None ∧ heap w ⊆ <[l:=o]> (heap w).
Proof.
  intros l. assert (heap w !! l = None) as Hl by apply not_elem_of_dom, is_fresh.
  split_and!; [done..|]. by apply insert_subseteq.
Qed.

(** The copies that [deepcopy_items] makes hold what the originals hold. *)
Lemma deepcopy_items_run memo items (w : world) ds :
  Forall2 (λ l d, heap w !! l = Some (ObjDict d)) items ds →
  (∀ l l', memo !! l = Some l' →
     ∃ d, heap w !! l = Some (ObjDict d) ∧ heap w !! l' = Some (ObjDict d)) →
  ∃ items' w',
    deepcopy_items memo items w = (Ok items', w')
    ∧ Forall2 (λ l d, heap w' !! l = Some (ObjDict d)) items' ds
    ∧ heap w ⊆ heap w' ∧ calls w' = calls w.
Proof.
  intros Hitems. revert memo w items Hitems.
  induction ds as [|d ds IH]; intros memo w items Hitems Hmemo.
  { apply Forall2_nil_inv_r in Hitems as ->. by exists [], w. }
  apply Forall2_cons_inv_r in Hitems as (l & items' & Hl & Hrest & ->).
  cbn [deepcopy_items]. destruct (memo !! l) as [l'|] eqn:Hmemo_l.
  - destruct (IH memo w items' Hrest Hmemo) as (rest & w' & Hrun & Hcopy & Hsub & Hcalls).
    exists (l' :: rest), w'. rewrite (run_bind _ _ _ _ _ Hrun).
    split_and!; [done| |done..]. constructor; [|done].
    destruct (Hmemo l l' Hmemo_l) as (d' & Hd' & Hl'). eapply lookup_weaken; [|done].
    congruence.
  - rewrite (run_bind _ _ _ _ _ (run_read_dict _ _ _ Hl)).
    destruct (run_alloc w (ObjDict d)) as (Halloc & Hfresh & Hsub1).
    set (l' := fresh (dom (heap w))) in *.
    rewrite (run_bind _ _ _ _ _ Halloc).
    set (w1 := World (<[l':=ObjDict d]> (heap w)) (calls w)) in *.
    destruct (IH (<[l:=l']> memo) w1 items') as (rest & w' & Hrun & Hcopy & Hsub & Hcalls).
    + eapply Forall2_impl; [done|]. intros l0 d0 Hl0.
      apply (lookup_weaken _ _ _ _ Hl0 Hsub1).
    + intros l0 l0'. rewrite lookup_insert. case_decide as Heq.
      * intros [= <-]. subst l0. exists d. split; [apply (lookup_weaken _ _ _ _ Hl Hsub1)|].
        apply lookup_insert_eq.
      * intros Hl0. destruct (Hmemo l0 l0' Hl0) as (d0 & Hd0 & Hd0').
        exists d0. split; [apply (lookup_weaken _ _ _ _ Hd0 Hsub1)
                          |apply (lookup_weaken _ _ _ _ Hd0' Hsub1)].
    + exists (l' :: rest), w'. rewrite (run_bind _ _ _ _ _ Hrun).
      split_and!; [done| |by etrans|done].
      constructor; [|done]. eapply lookup_weaken; [|done]. apply lookup_insert_eq.
Qed.

(** A deep copy of a result holds the hits and the execution records of the
    original, in new objects; the original is as it was. *)
Lemma deepcopy_result_run (w : world) r hits entries :
  hits_of (heap w) r = Some hits → trace_of (heap w) r = Some entries →
  ∃ r' w',
    deepcopy_result r w = (Ok r', w')
    ∧ hits_of (heap w') r' = Some hits
    ∧ trace_of (heap w') r' = Some entries
    ∧ heap w ⊆ heap w' ∧ calls w' = calls w ∧ r' ∉ dom (heap w).
Proof.
  intros Hhits Htrace.
  apply hits_of_holds in Hhits as (h & t & items & Hr & Hh & Hitems).
  unfold deepcopy_result.
  rewrite (run_bind _ _ _ _ _ (run_read_result _ _ _ _ Hr)). cbn beta iota.
  rewrite (run_bind _ _ _ _ _ (run_read_list _ _ _ Hh)).
  destruct (deepcopy_items_run ∅ items w hits Hitems) as (items' & w1 & Hrun & Hcopy & Hsub1 & Hcalls1);
    [by intros l l'; rewrite lookup_empty|].
  rewrite (run_bind _ _ _ _ _ Hrun).
  destruct (run_alloc w1 (ObjList items')) as (Halloc & Hfresh2 & Hsub2).
  set (h' := fresh (dom (heap w1))) in *.
  rewrite (run_bind _ _ _ _ _ Halloc).
  set (w2 := World (<[h':=ObjList items']> (heap w1)) (calls w1)) in *.
  assert (∃ t' w3,
            (match t with
             | None => mret None
             | Some tl => entries ← read_trace tl; tl' ← alloc (ObjTrace entries);
                          mret (Some tl')
             end : M (option loc)) w2 = (Ok t', w3)
            ∧ heap w2 ⊆ heap w3 ∧ calls w3 = calls w2
            ∧ (∀ h0, trace_of (<[fresh (dom (heap w3)):=ObjResult h0 t']> (heap w3))
                       (fresh (dom (heap w3))) = Some entries))
    as (t' & w3 & Ht' & Hsub3 & Hcalls3 & Htrace').
  { unfold trace_of in Htrace. rewrite Hr in Htrace. destruct t as [tl|].
    - destruct (heap w !! tl) as [[| | |es]|] eqn:Htl; try done. injection Htrace as ->.
      assert (heap w2 !! tl = Some (ObjTrace entries)) as Htl2.
      { eapply lookup_weaken; [|done]. by eapply lookup_weaken. }
      rewrite (run_bind _ _ _ _ _ (run_read_trace _ _ _ Htl2)).
      destruct (run_alloc w2 (ObjTrace entries)) as (Halloc3 & Hfresh3 & Hsub3).
      rewrite (run_bind _ _ _ _ _ Halloc3).
      eexists _, _. split_and!; [done..|]. intros h0. cbn [heap].
      unfold trace_of. rewrite lookup_insert_eq.
      set (l3 := fresh (dom (heap w2))). set (σ3 := <[l3:=_]> (heap w2)).
      assert (σ3 !! fresh (dom σ3) = None) as Hnone by apply not_elem_of_dom, is_fresh.
      rewrite lookup_insert_ne by (intros Heq; rewrite Heq in Hnone; unfold σ3 in Hnone;
                                   by rewrite lookup_insert_eq in Hnone).
      unfold σ3. by rewrite lookup_insert_eq.
    - injection Htrace as <-. exists None, w2. split_and!; [done..|].
      intros h0. unfold trace_of. by rewrite lookup_insert_eq. }
  rewrite (run_bind _ _ _ _ _ Ht').
  destruct (run_alloc w3 (ObjResult h' t')) as (Halloc4 & Hfresh4 & Hsub4).
  set (r' := fresh (dom (heap w3))) in *.
  exists r', (World (<[r':=ObjResult h' t']> (heap w3)) (calls w3)).
  assert (heap w ⊆ heap w3) as Hsub by (etrans; [done|]; etrans; [done|]; done).
  split_and!; [done| |by apply Htrace'| |cbn [calls]; rewrite Hcalls3; exact Hcalls1|].
  - apply hits_of_holds. exists h', t', items'. split_and!; cbn [heap].
    + apply lookup_insert_eq.
    + eapply lookup_weaken; [|exact Hsub4]. eapply lookup_weaken; [|exact Hsub3].
      apply lookup_insert_eq.
    + eapply Forall2_impl; [done|]. intros l d Hl. cbn beta in Hl.
      eapply lookup_weaken; [|exact Hsub4]. eapply lookup_weaken; [|exact Hsub3].
      eapply lookup_weaken; [exact Hl|exact Hsub2].
  - cbn [heap]. by etrans.
  - intros Hin. apply elem_of_dom in Hin as [o Ho].
    pose proof (lookup_weaken _ _ _ _ Ho Hsub). congruence.
Qed.


(** *** What [receive_permutation] writes *)

(** [Result] objects and lists of execution records, as opposed to lists of
    hits and hits. *)
Definition is_record (o : obj) : Prop :=
  match o with
  | ObjResult _ _ | ObjTrace _ => True
  | ObjList _ | ObjDict _ => False
  end.

(** The records of the store [σ0] are in the world as they were, and no call
    has been added to the calls [c]. *)
Definition records_kept (σ0 : gmap loc obj) (c : list (event Prompt)) (w : world) : Prop :=
  calls w = c ∧ ∀ l o, σ0 !! l = Some o → is_record o → heap w !! l = Some o.

Lemma records_kept_reads {A} σ0 c (m : M A) :
  (∀ w, (m w).2 = w) → keeps (records_kept σ0 c) m (λ _, True).
Proof. intros Hm w Hw. by rewrite Hm. Qed.

Lemma records_kept_attr_hits σ0 c r : keeps (records_kept σ0 c) (attr_hits r) (λ _, True).
Proof.
  apply records_kept_reads. intros w.
  unfold attr_hits, fmap, M_fmap, read_result, read, mbind, M_bind.
  by destruct (heap w !! r) as [[| | |]|].
Qed.

Lemma records_kept_read_list σ0 c h : keeps (records_kept σ0 c) (read_list h) (λ _, True).
Proof.
  apply records_kept_reads. intros w. unfold read_list, read, mbind, M_bind.
  by destruct (heap w !! h) as [[| | |]|].
Qed.

Lemma records_kept_read_dict σ0 c l : keeps (records_kept σ0 c) (read_dict l) (λ _, True).
Proof.
  apply records_kept_reads. intros w. unfold read_dict, read, mbind, M_bind.
  by destruct (heap w !! l) as [[| | |]|].
Qed.

Lemma records_kept_getitem {A} σ0 c (l : list A) i :
  keeps (records_kept σ0 c) (getitem l i) (λ _, True).
Proof. apply records_kept_reads. intros w. unfold getitem. by destruct (_ ≫= _). Qed.

Lemma records_kept_list_getitem σ0 c h i :
  keeps (records_kept σ0 c) (list_getitem h i) (λ _, True).
Proof.
  unfold list_getitem. eapply keeps_bind; [apply records_kept_read_list|].
  intros items _. apply records_kept_getitem.
Qed.

Lemma records_kept_alloc σ0 c o : keeps (records_kept σ0 c) (alloc o) (λ _, True).
Proof.
  intros w [Hc Hw]. split; [|done]. split; [done|]. intros l o' Hl Ho'. cbn.
  rewrite lookup_insert_ne; [by apply Hw|]. intros <-.
  pose proof (is_fresh (dom (heap w))) as Hfresh. apply Hfresh, elem_of_dom.
  rewrite (Hw _ _ Hl Ho'). done.
Qed.

Lemma records_kept_list_setitem σ0 c h i l :
  keeps (records_kept σ0 c) (list_setitem h i l) (λ _, True).
Proof.
  intros w [Hc Hw]. split; [|done].
  unfold list_setitem, read_list, read, mbind, M_bind.
  destruct (heap w !! h) as [[|items| |]|] eqn:Hh; try done. cbn.
  destruct (position _ _) as [k|]; [|done]. split; [done|]. cbn.
  intros l' o Hl' Ho. rewrite lookup_insert_ne; [by apply Hw|]. intros <-.
  rewrite (Hw _ _ Hl' Ho) in Hh. injection Hh as ->. done.
Qed.

Lemma records_kept_dict_setitem σ0 c l key v :
  keeps (records_kept σ0 c) (dict_setitem l key v) (λ _, True).
Proof.
  intros w [Hc Hw]. split; [|done].
  unfold dict_setitem, read_dict, read, mbind, M_bind.
  destruct (heap w !! l) as [[| |d|]|] eqn:Hl; try done. cbn. split; [done|]. cbn.
  intros l' o Hl' Ho. rewrite lookup_insert_ne; [by apply Hw|]. intros <-.
  rewrite (Hw _ _ Hl' Ho) in Hl. injection Hl as ->. done.
Qed.

Lemma records_kept_set_positional σ0 c result cut_range rank_start j key :
  keeps (records_kept σ0 c) (set_positional result cut_range rank_start j key) (λ _, True).
Proof.
  unfold set_positional.
  eapply keeps_bind; [apply records_kept_attr_hits|]. intros hits _.
  eapply keeps_bind; [apply records_kept_list_getitem|]. intros hit _.
  eapply keeps_bind.
  { unfold dict_contains. eapply keeps_bind; [apply records_kept_read_dict|].
    intros d _. by apply (keeps_ret _ _ (λ _, True)). }
  intros [] _; [|by apply keeps_ret].
  eapply keeps_bind; [apply records_kept_getitem|]. intros old _.
  eapply keeps_bind.
  { instantiate (1 := λ _, True). unfold lookup_key.
    destruct (old !! key); [by apply keeps_ret|apply keeps_raise]. }
  intros v _.
  eapply keeps_bind; [apply records_kept_attr_hits|]. intros hits' _.
  eapply keeps_bind; [apply records_kept_list_getitem|]. intros hit' _.
  apply records_kept_dict_setitem.
Qed.

Lemma records_kept_reorder σ0 c result cut_range rank_start j response :
  keeps (records_kept σ0 c) (reorder result cut_range rank_start j response) (λ _, True).
Proof.
  revert j. induction response as [|x rest IH]; intros j; simpl.
  - by apply keeps_ret.
  - eapply keeps_bind; [apply records_kept_getitem|]. intros d _.
    eapply keeps_bind; [apply records_kept_alloc|]. intros hit _.
    eapply keeps_bind; [apply records_kept_attr_hits|]. intros hits _.
    eapply keeps_bind; [apply records_kept_list_setitem|]. intros _ _.
    eapply keeps_bind; [apply records_kept_set_positional|]. intros _ _.
    eapply keeps_bind; [apply records_kept_set_positional|]. intros _ _.
    apply IH.
Qed.

Lemma records_kept_receive_permutation σ0 c (self : RankLLM V Prompt) result permutation
    rank_start rank_end use_alpha :
  keeps (records_kept σ0 c)
    (receive_permutation self result permutation rank_start rank_end use_alpha) (λ _, True).
Proof.
  unfold receive_permutation.
  destruct (parsed_response _ _ _) as [response|]; [|apply keeps_raise].
  eapply keeps_bind; [apply records_kept_attr_hits|]. intros hits _.
  eapply keeps_bind; [apply records_kept_read_list|]. intros items _.
  eapply keeps_bind.
  { apply (keeps_mapM _ _ _ (λ _, True)). intros l. apply records_kept_read_dict. }
  intros cut_range _.
  eapply keeps_bind; [apply records_kept_reorder|]. intros _ _. by apply keeps_ret.
Qed.

(** However [receive_permutation] ends, it leaves the execution records of
    every result as they were and calls no collaborator. *)
Lemma receive_permutation_trace (self : RankLLM V Prompt) (w : world) r permutation
    rank_start rank_end use_alpha r0 entries :
  trace_of (heap w) r0 = Some entries →
  let run := receive_permutation self r permutation rank_start rank_end use_alpha w in
  trace_of (heap run.2) r0 = Some entries ∧ calls run.2 = calls w.
Proof.
  intros Htrace run.
  destruct (records_kept_receive_permutation (heap w) (calls w) self r permutation
              rank_start rank_end use_alpha w) as [[Hcalls Hkept] _]; [done|].
  fold run in Hcalls, Hkept. split; [|done].
  unfold trace_of in *.
  destruct (heap w !! r0) as [[h t| | |]|] eqn:Hr; try done.
  rewrite (Hkept _ _ Hr I). destruct t as [tl|]; [|done].
  destruct (heap w !! tl) as [[| | |es]|] eqn:Htl; try done.
  by rewrite (Hkept _ _ Htl I).
Qed.

(** *** The execution record *)

Lemma run_trace_append (w : world) t entries info :
  heap w !! t = Some (ObjTrace entries) →
  trace_append t info w
  = (Ok (), World (<[t:=ObjTrace (entries ++ [info])]> (heap w)) (calls w)).
Proof.
  intros Ht. unfold trace_append.
  by rewrite (run_bind _ _ _ _ _ (run_read_trace _ _ _ Ht)).
Qed.

Lemma holds_insert (w : world) r h t items ds l o c :
  holds w r h t items ds → l ≠ r → l ≠ h → l ∉ items →
  holds (World (<[l:=o]> (heap w)) c) r h t items ds.
Proof.
  intros (Hr & Hh & Hds) Hlr Hlh Hl. split_and!; cbn [heap].
  - by rewrite lookup_insert_ne.
  - by rewrite lookup_insert_ne.
  - apply Forall2_same_length_lookup. split; [by eapply Forall2_length|].
    intros i l' d Hl' Hd. rewrite lookup_insert_ne.
    + apply (Forall2_lookup_lr _ _ _ _ _ _ Hds Hl' Hd).
    + intros <-. apply Hl. by eapply list_elem_of_lookup_2.
Qed.

(** The lines of the pipelines that keep the execution record: the record is
    appended, to a list that is created if there is none, before the
    permutation is applied. *)
Lemma record_and_receive_run (self : RankLLM V Prompt) (w : world) r hits entries info
    rank_start rank_end use_alpha :
  hits_of (heap w) r = Some hits → trace_of (heap w) r = Some entries →
  ∃ w1,
    record_and_receive self r info rank_start rank_end use_alpha w
    = receive_permutation self r (exec_response info) rank_start rank_end use_alpha w1
    ∧ hits_of (heap w1) r = Some hits
    ∧ trace_of (heap w1) r = Some (entries ++ [info])
    ∧ calls w1 = calls w
    ∧ ∀ l o, heap w !! l = Some o → is_record o ∨ heap w1 !! l = Some o.
Proof.
  intros Hhits Htrace.
  apply hits_of_holds in Hhits as (h & t & items & Hholds).
  pose proof Hholds as (Hr & Hh & Hds).
  assert (∀ l, l ∈ items → ∃ d, heap w !! l = Some (ObjDict d)) as Hdict.
  { intros l Hl. apply list_elem_of_lookup in Hl as [i Hi].
    destruct (Forall2_lookup_l _ _ _ _ _ Hds Hi) as (d & _ & Hd). by exists d. }
  unfold record_and_receive.
  rewrite (run_bind _ _ _ _ _ (run_attr_summary _ _ _ _ Hr)).
  unfold trace_of in Htrace. rewrite Hr in Htrace. destruct t as [tl|].
  - destruct (heap w !! tl) as [[| | |es]|] eqn:Htl; try done. injection Htrace as ->.
    rewrite (run_bind (mret ()) _ w () w eq_refl).
    rewrite (run_bind _ _ _ _ _ (run_attr_summary _ _ _ _ Hr)).
    rewrite (run_bind _ _ _ _ _ (run_trace_append _ _ _ info Htl)).
    set (w1 := World (<[tl:=ObjTrace (entries ++ [info])]> (heap w)) (calls w)).
    exists w1. split_and!; [done| | |done|].
    + apply hits_of_holds. exists h, (Some tl), items. apply holds_insert; [done|..].
      * intros ->. congruence.
      * intros ->. congruence.
      * intros Hin. destruct (Hdict _ Hin). congruence.
    + unfold trace_of, w1. cbn [heap].
      rewrite lookup_insert_ne by (intros ->; congruence). rewrite Hr.
      by rewrite lookup_insert_eq.
    + intros l o Hl. destruct (decide (l = tl)) as [->|Hne].
      * left. rewrite Htl in Hl. by injection Hl as <-.
      * right. unfold w1. cbn [heap]. by rewrite lookup_insert_ne.
  - injection Htrace as <-.
    destruct (run_alloc w (ObjTrace [])) as (Halloc & Hfresh & _).
    set (tl := fresh (dom (heap w))) in *.
    set (w1 := World (<[tl:=ObjTrace []]> (heap w)) (calls w)) in *.
    assert (tl ≠ r) as Htr by (intros Heq; rewrite Heq in Hfresh; congruence).
    assert (tl ≠ h) as Hth by (intros Heq; rewrite Heq in Hfresh; congruence).
    assert (heap w1 !! r = Some (ObjResult h None)) as Hr1.
    { unfold w1. cbn [heap]. by rewrite lookup_insert_ne. }
    set (w2 := World (<[r:=ObjResult h (Some tl)]> (heap w1)) (calls w)).
    assert ((alloc (ObjTrace []) ≫= set_summary r) w = (Ok (), w2)) as Hset.
    { rewrite (run_bind _ _ _ _ _ Halloc). unfold set_summary.
      by rewrite (run_bind _ _ _ _ _ (run_read_result _ _ _ _ Hr1)). }
    rewrite (run_bind _ _ _ _ _ Hset).
    assert (heap w2 !! r = Some (ObjResult h (Some tl))) as Hr2 by apply lookup_insert_eq.
    assert (heap w2 !! tl = Some (ObjTrace [])) as Htl2.
    { unfold w2, w1. cbn [heap]. rewrite lookup_insert_ne by done. apply lookup_insert_eq. }
    rewrite (run_bind _ _ _ _ _ (run_attr_summary _ _ _ _ Hr2)).
    rewrite (run_bind _ _ _ _ _ (run_trace_append _ _ _ info Htl2)).
    set (w3 := World (<[tl:=ObjTrace ([] ++ [info])]> (heap w2)) (calls w2)).
    exists w3. split_and!; [done| | |done|].
    + apply hits_of_holds. exists h, (Some tl), items.
      assert (tl ∉ items) as Hti.
      { intros Hin. destruct (Hdict _ Hin). congruence. }
      apply holds_insert; [|done..]. split_and!; cbn [heap].
      * apply lookup_insert_eq.
      * unfold w2, w1. cbn [heap]. rewrite !lookup_insert_ne; [done|done|].
        intros ->. congruence.
      * apply Forall2_same_length_lookup. split; [by eapply Forall2_length|].
        intros i l' d Hl' Hd.
        pose proof (Forall2_lookup_lr _ _ _ _ _ _ Hds Hl' Hd) as Hld. cbn beta in Hld.
        unfold w2, w1. cbn [heap]. rewrite !lookup_insert_ne; [done| |].
        -- intros ->. apply Hti. by eapply list_elem_of_lookup_2.
        -- intros ->. congruence.
    + unfold trace_of, w3. cbn [heap]. rewrite lookup_insert_ne by done. rewrite Hr2.
      by rewrite lookup_insert_eq.
    + intros l o Hl. destruct (decide (l = r)) as [->|Hne].
      * left. rewrite Hr in Hl. by injection Hl as <-.
      * right. unfold w3, w2, w1. cbn [heap].
        rewrite !lookup_insert_ne; [done| |done|]; intros ->; congruence.
Qed.

(** The world in which the oracle is asked, and the execution record that
    [permutation_pipeline] makes of the exchange. *)
Definition asked (self : RankLLM V Prompt) (w : world) (r : loc)
    (use_logits use_alpha : bool) (rank_start rank_end : Z) : world * RankingExecInfo Prompt :=
  let w1 := World (heap w) (calls w ++ [CreatePrompt r use_alpha rank_start rank_end]) in
  let rendered := create_prompt self w1 r use_alpha rank_start rank_end in
  let w2 := World (heap w)
              (calls w1 ++ [RunLLM rendered.1 use_logits use_alpha (rank_end - rank_start)]) in
  let answer := run_llm self w2 rendered.1 use_logits use_alpha (rank_end - rank_start) in
  (w2, {| exec_prompt := rendered.1; exec_response := answer.1;
          input_token_count := rendered.2; output_token_count := answer.2 |}).

Lemma run_call_create_prompt (self : RankLLM V Prompt) (w : world) r use_alpha
    rank_start rank_end :
  let w1 := World (heap w) (calls w ++ [CreatePrompt r use_alpha rank_start rank_end]) in
  call_create_prompt self r use_alpha rank_start rank_end w
  = (Ok (create_prompt self w1 r use_alpha rank_start rank_end), w1).
Proof. done. Qed.

Lemma run_call_run_llm (self : RankLLM V Prompt) (w : world) prompt use_logits use_alpha
    current_window_size :
  let w1 := World (heap w)
              (calls w ++ [RunLLM prompt use_logits use_alpha current_window_size]) in
  call_run_llm self prompt use_logits use_alpha current_window_size w
  = (Ok (run_llm self w1 prompt use_logits use_alpha current_window_size), w1).
Proof. done. Qed.

Lemma permutation_pipeline_run (self : RankLLM V Prompt) (w : world) r hits entries
    use_logits use_alpha rank_start rank_end :
  hits_of (heap w) r = Some hits → trace_of (heap w) r = Some entries →
  let w2 := (asked self w r use_logits use_alpha rank_start rank_end).1 in
  let info := (asked self w r use_logits use_alpha rank_start rank_end).2 in
  ∃ w3,
    permutation_pipeline self r use_logits use_alpha rank_start rank_end w
    = receive_permutation self r (exec_response info) rank_start rank_end use_alpha w3
    ∧ hits_of (heap w3) r = Some hits
    ∧ trace_of (heap w3) r = Some (entries ++ [info])
    ∧ calls w3 = calls w2
    ∧ ∀ l o, heap w !! l = Some o → is_record o ∨ heap w3 !! l = Some o.
Proof.
  intros Hhits Htrace. unfold asked. cbv zeta. cbn [fst snd].
  set (w1 := World (heap w) (calls w ++ [CreatePrompt r use_alpha rank_start rank_end])).
  destruct (create_prompt self w1 r use_alpha rank_start rank_end)
    as [prompt in_token_count] eqn:Hprompt. cbn [fst snd].
  set (w2 := World (heap w)
               (calls w1 ++ [RunLLM prompt use_logits use_alpha (rank_end - rank_start)])).
  destruct (run_llm self w2 prompt use_logits use_alpha (rank_end - rank_start))
    as [permutation out_token_count] eqn:Hanswer. cbn [fst snd].
  set (info := {| exec_prompt := prompt |}).
  destruct (record_and_receive_run self w2 r hits entries info rank_start rank_end use_alpha)
    as (w3 & Hrun & Hhits3 & Htrace3 & Hcalls3 & Hkept); [done..|].
  exists w3. split_and!; [|done..].
  rewrite <-Hrun. unfold permutation_pipeline.
  rewrite (run_bind _ _ _ _ _ (run_call_create_prompt self w r use_alpha rank_start rank_end)).
  fold w1. rewrite Hprompt.
  rewrite (run_bind _ _ _ _ _ (run_call_run_llm self w1 prompt use_logits use_alpha _)).
  match goal with |- context [run_llm self ?w' _ _ _ _] => change w' with w2 end.
  by rewrite Hanswer.
Qed.

(** X5.  [permutation_pipeline], on a result with its hits and execution
    records in place, asks the renderer and then the oracle, once each and
    for the window size [rank_end - rank_start], and appends one execution
    record, of the prompt, the answer and the two token counts, to the
    records of the result.  It does so before the answer is applied: the
    record and the two calls are there however the call ends; when the answer
    holds a token that [int] does not read, the call raises [ValueError] with
    the record appended and the hits as they were. *)
Theorem permutation_pipeline_records (self : RankLLM V Prompt) (w : world) r hits entries
    use_logits use_alpha rank_start rank_end :
  hits_of (heap w) r = Some hits → trace_of (heap w) r = Some entries →
  let run := permutation_pipeline self r use_logits use_alpha rank_start rank_end w in
  let info := (asked self w r use_logits use_alpha rank_start rank_end).2 in
  trace_of (heap run.2) r = Some (entries ++ [info])
  ∧ calls run.2
    = calls w ++ [CreatePrompt r use_alpha rank_start rank_end;
                  RunLLM (exec_prompt info) use_logits use_alpha (rank_end - rank_start)]
  ∧ exec_response info
    = (run_llm self (asked self w r use_logits use_alpha rank_start rank_end).1
         (exec_prompt info) use_logits use_alpha (rank_end - rank_start)).1
  ∧ (parsed_response (_rerank_type self) (exec_response info) use_alpha = None →
     run.1 = Raise ValueError ∧ hits_of (heap run.2) r = Some hits).
Proof.
  intros Hhits Htrace run info.
  pose proof (permutation_pipeline_run self w r hits entries use_logits use_alpha
                rank_start rank_end Hhits Htrace) as Hrun.
  assert (calls (asked self w r use_logits use_alpha rank_start rank_end).1
          = calls w ++ [CreatePrompt r use_alpha rank_start rank_end;
                        RunLLM (exec_prompt info) use_logits use_alpha
                          (rank_end - rank_start)]) as Hcalls.
  { unfold info, asked. cbn. by rewrite <-app_assoc. }
  assert (exec_response info
          = (run_llm self (asked self w r use_logits use_alpha rank_start rank_end).1
               (exec_prompt info) use_logits use_alpha (rank_end - rank_start)).1)
    as Hanswer by done.
  cbv zeta in Hrun. fold info in Hrun.
  destruct Hrun as (w3 & Hrun & Hhits3 & Htrace3 & Hcalls3 & _).
  destruct (receive_permutation_trace self w3 r (exec_response info) rank_start rank_end
              use_alpha r _ Htrace3) as [Htrace' Hcalls'].
  fold run in Hrun. rewrite <-Hrun in Htrace', Hcalls'.
  split_and!; [done|congruence|done|].
  intros Hparsed. rewrite Hrun. unfold receive_permutation. by rewrite Hparsed.
Qed.

(** *** The order of the hits that [receive_permutation] writes *)

(** The run of [receive_permutation] on a window whose hits agree in having
    [rank] and [score]: position [j] of the window gets the payload of the hit
    that the completed response names at [j], and keeps its rank and score. *)
Lemma receive_permutation_order (self : RankLLM V Prompt) (w : world) r hits permutation
    rank_start rank_end use_alpha response :
  hits_of (heap w) r = Some hits → 0 ≤ rank_start →
  uniform "rank" (slice hits rank_start rank_end) →
  uniform "score" (slice hits rank_start rank_end) →
  parsed_response (_rerank_type self) permutation use_alpha = Some response →
  let cut_range := slice hits rank_start rank_end in
  let order := completed_response (length cut_range) response in
  ∃ w' new,
    receive_permutation self r permutation rank_start rank_end use_alpha w = (Ok r, w')
    ∧ hits_of (heap w') r
      = Some (take (Z.to_nat rank_start) hits ++ new
              ++ drop (Z.to_nat rank_start + length cut_range) hits)
    ∧ calls w' = calls w
    ∧ order ≡ₚ seqZ 0 (Z.of_nat (length cut_range))
    ∧ Forall2 (λ d x, 0 ≤ x ∧ payload <$> cut_range !! Z.to_nat x = Some (payload d))
        new order
    ∧ (λ d : dict, d !! "rank") <$> new = (λ d : dict, d !! "rank") <$> cut_range
    ∧ (λ d : dict, d !! "score") <$> new = (λ d : dict, d !! "score") <$> cut_range.
Proof.
  intros Hhits Hstart Hrank Hscore Hparsed cut_range order.
  pose proof (run_receive_permutation self w r hits permutation rank_start rank_end
                use_alpha response Hhits Hstart Hparsed) as Hrun.
  cbn zeta in Hrun. fold cut_range order in Hrun.
  pose proof (completed_response_Permutation (length cut_range) response
                (parsed_response_NoDup _ _ _ _ Hparsed)) as Hperm.
  fold order in Hperm.
  assert (length order = length cut_range) as Hlen.
  { rewrite Hperm, length_seqZ. lia. }
  assert (∀ i x, order !! i = Some x →
            ∃ dj dx, 0 ≤ x ∧ cut_range !! i = Some dj
                     ∧ cut_range !! Z.to_nat x = Some dx) as Hvalid.
  { intros i x Hi.
    assert (x ∈ seqZ 0 (Z.of_nat (length cut_range))) as Hx.
    { rewrite <-Hperm. by eapply list_elem_of_lookup_2. }
    apply elem_of_range in Hx. apply lookup_lt_Some in Hi.
    destruct (lookup_lt_is_Some_2 cut_range i ltac:(lia)) as [dj Hdj].
    destruct (lookup_lt_is_Some_2 cut_range (Z.to_nat x) ltac:(lia)) as [dx Hdx].
    exists dj, dx. split_and!; [lia|done..]. }
  destruct (moved_is_Some cut_range 0 order) as [new Hmoved].
  { intros i x Hi. destruct (Hvalid i x Hi) as (dj & dx & Hx & Hdj & Hdx).
    pose proof (list_elem_of_lookup_2 _ _ _ Hdj). pose proof (list_elem_of_lookup_2 _ _ _ Hdx).
    destruct (moved_hit_is_inl dj dx) as [d Hd].
    - by apply (uniform_pair "rank" cut_range).
    - by apply (uniform_pair "score" cut_range).
    - by exists dj, dx, d. }
  rewrite Hmoved in Hrun. destruct Hrun as (w' & Hrun & Hhits' & Hcalls).
  pose proof (moved_length _ _ _ _ Hmoved) as Hlen_new.
  pose proof (moved_Some_pairs _ _ _ _ Hmoved) as Hpairs.
  assert (∀ i d, new !! i = Some d →
            ∃ x dj dx, order !! i = Some x ∧ 0 ≤ x ∧ cut_range !! i = Some dj
              ∧ cut_range !! Z.to_nat x = Some dx ∧ payload d = payload dx
              ∧ d !! "rank" = dj !! "rank" ∧ d !! "score" = dj !! "score") as Hnew.
  { intros i d Hi. pose proof (lookup_lt_Some _ _ _ Hi) as Hlt.
    destruct (lookup_lt_is_Some_2 order i ltac:(lia)) as [x Hx].
    destruct (Hpairs i x Hx) as (dj & dx & d' & Hx0 & Hdj & Hdx & Hhit & Hd').
    assert (d' = d) as -> by congruence. simpl in Hdj.
    pose proof (list_elem_of_lookup_2 _ _ _ Hdj). pose proof (list_elem_of_lookup_2 _ _ _ Hdx).
    apply moved_hit_inl in Hhit as [Hkeys Hpayload].
    destruct (Hkeys "rank" ltac:(by left)) as [_ Hr].
    destruct (Hkeys "score" ltac:(by right)) as [_ Hs].
    destruct (uniform_pair "rank" cut_range dj dx) as [_ Hr']; [done..|].
    destruct (uniform_pair "score" cut_range dj dx) as [_ Hs']; [done..|].
    exists x, dj, dx. split_and!; [done..| |]; congruence. }
  assert (∀ (A : Type) (f : dict → A),
            (∀ i d dj, new !! i = Some d → cut_range !! i = Some dj → f d = f dj) →
            f <$> new = f <$> cut_range) as Hcolumn.
  { intros A f Hf. apply list_eq. intros i. rewrite !list_lookup_fmap.
    destruct (new !! i) as [d|] eqn:Hd.
    - destruct (Hnew i d Hd) as (x & dj & dx & _ & _ & Hdj & _). rewrite Hdj. simpl.
      f_equal. by eapply Hf.
    - apply lookup_ge_None in Hd. rewrite lookup_ge_None_2 by lia. done. }
  exists w', new. split_and!; [done..| | |].
  - apply Forall2_same_length_lookup. split; [lia|]. intros i d x Hd Hx.
    destruct (Hnew i d Hd) as (x' & dj & dx & Hx' & Hx0 & _ & Hdx & Hpayload & _).
    assert (x' = x) as -> by congruence. split; [done|]. by rewrite Hdx, Hpayload.
  - apply Hcolumn. intros i d dj Hd Hdj.
    destruct (Hnew i d Hd) as (x & dj' & dx & _ & _ & Hdj' & _ & _ & Hr & _). congruence.
  - apply Hcolumn. intros i d dj Hd Hdj.
    destruct (Hnew i d Hd) as (x & dj' & dx & _ & _ & Hdj' & _ & _ & _ & Hs). congruence.
Qed.

(** Hits written in the order of a permutation of the positions carry the
    payloads of the window, each once. *)
Lemma order_payload_Permutation (cut_range new : list dict) (order : list Z) :
  order ≡ₚ seqZ 0 (Z.of_nat (length cut_range)) →
  Forall2 (λ d x, 0 ≤ x ∧ payload <$> cut_range !! Z.to_nat x = Some (payload d))
    new order →
  payload <$> new ≡ₚ payload <$> cut_range.
Proof.
  intros Hperm Hnew.
  assert (payload <$> new = (λ x, payload (cut_range !!! Z.to_nat x)) <$> order) as ->.
  { apply list_eq. intros i. rewrite !list_lookup_fmap.
    destruct (new !! i) as [d|] eqn:Hd.
    - destruct (Forall2_lookup_l _ _ _ _ _ Hnew Hd) as (x & -> & _ & Hx). simpl.
      destruct (cut_range !! Z.to_nat x) as [dx|] eqn:Hdx; [|done].
      injection Hx as <-. by rewrite (list_lookup_total_correct _ _ _ Hdx).
    - apply lookup_ge_None in Hd. rewrite lookup_ge_None_2; [done|].
      apply Forall2_length in Hnew. lia. }
  rewrite Hperm.
  assert ((λ x, payload (cut_range !!! Z.to_nat x)) <$> seqZ 0 (Z.of_nat (length cut_range))
          = payload <$> cut_range) as ->; [|done].
  apply list_eq. intros i. rewrite !list_lookup_fmap.
  destruct (cut_range !! i) as [d|] eqn:Hd.
  - rewrite lookup_seqZ_lt by (apply lookup_lt_Some in Hd; lia). simpl.
    replace (Z.to_nat (0 + Z.of_nat i)) with i by lia.
    by rewrite (list_lookup_total_correct _ _ _ Hd).
  - rewrite lookup_seqZ_ge by (apply lookup_ge_None in Hd; lia). done.
Qed.

Lemma filter_none {A} (P : A → Prop) `{!∀ x, Decision (P x)} (l : list A) :
  Forall (λ x, ¬ P x) l → filter P l = [].
Proof.
  induction 1 as [|x l Hx Hl IH]; [done|]. by rewrite filter_cons_False.
Qed.

(** A response that names every index of the window once is its own
    completion. *)
Lemma completed_response_id (n : nat) (response : list Z) :
  response ≡ₚ seqZ 0 (Z.of_nat n) → completed_response n response = response.
Proof.
  intros Hresponse. unfold completed_response.
  assert (filter (λ ss, ss ∈ seqZ 0 (Z.of_nat n)) response = response) as ->.
  { apply filter_all, Forall_forall. intros x Hx. by rewrite <-Hresponse. }
  rewrite filter_none; [apply app_nil_r|].
  apply Forall_forall. intros x Hx Hnot. apply Hnot. by rewrite Hresponse.
Qed.

(** X6.  When the hits of the window agree in having [rank] and [score] and
    the tokens of the answer are read as the indices [response], the window
    is rewritten in the order of the completed response: position [j] gets
    the fields of the hit that the response names at [j], except for [rank]
    and [score], which keep the values they had at position [j]; the hits
    before and after the window stay. *)
Theorem receive_permutation_places (self : RankLLM V Prompt) (w : world) r hits permutation
    rank_start rank_end use_alpha response :
  hits_of (heap w) r = Some hits → 0 ≤ rank_start →
  uniform "rank" (slice hits rank_start rank_end) →
  uniform "score" (slice hits rank_start rank_end) →
  parsed_response (_rerank_type self) permutation use_alpha = Some response →
  let cut_range := slice hits rank_start rank_end in
  let order := completed_response (length cut_range) response in
  ∃ w' new,
    receive_permutation self r permutation rank_start rank_end use_alpha w = (Ok r, w')
    ∧ hits_of (heap w') r
      = Some (take (Z.to_nat rank_start) hits ++ new
              ++ drop (Z.to_nat rank_start + length cut_range) hits)
    ∧ length new = length cut_range
    ∧ (∀ j d, new !! j = Some d →
         ∃ x dx dj, order !! j = Some x ∧ 0 ≤ x
           ∧ cut_range !! Z.to_nat x = Some dx ∧ cut_range !! j = Some dj
           ∧ payload d = payload dx
           ∧ d !! "rank" = dj !! "rank" ∧ d !! "score" = dj !! "score")
    ∧ (response ≡ₚ seqZ 0 (Z.of_nat (length cut_range)) → order = response).
Proof.
  intros Hhits Hstart Hrank Hscore Hparsed cut_range order.
  destruct (receive_permutation_order self w r hits permutation rank_start rank_end
              use_alpha response Hhits Hstart Hrank Hscore Hparsed)
    as (w' & new & Hrun & Hhits' & _ & Hperm & Hnew & Hranks & Hscores).
  fold cut_range order in Hhits', Hperm, Hnew, Hranks, Hscores.
  assert (length new = length cut_range) as Hlen.
  { rewrite <-(length_fmap (λ d : dict, d !! "rank") new), Hranks. apply length_fmap. }
  exists w', new. split_and!; [done..| |].
  - intros j d Hd.
    destruct (Forall2_lookup_l _ _ _ _ _ Hnew Hd) as (x & Hx & Hx0 & Hpayload).
    destruct (cut_range !! Z.to_nat x) as [dx|] eqn:Hdx; [|done].
    destruct (lookup_lt_is_Some_2 cut_range j) as [dj Hdj].
    { apply lookup_lt_Some in Hd. lia. }
    exists x, dx, dj. split_and!; [done..|by injection Hpayload| |].
    + apply (f_equal (λ l, l !! j)) in Hranks. rewrite !list_lookup_fmap, Hd, Hdj in Hranks.
      by injection Hranks.
    + apply (f_equal (λ l, l !! j)) in Hscores. rewrite !list_lookup_fmap, Hd, Hdj in Hscores.
      by injection Hscores.
  - apply completed_response_id.
Qed.

(** *** The scheduler from end to end *)

Lemma uniform_column key (l l' : list dict) :
  (λ d : dict, d !! key) <$> l = (λ d : dict, d !! key) <$> l' →
  uniform key l → uniform key l'.
Proof.
  intros Hcol [Hall|Hnone]; [left|right].
  - apply (Forall_fmap (λ d : dict, d !! key) is_Some). rewrite <-Hcol.
    by apply Forall_fmap.
  - apply (Forall_fmap (λ d : dict, d !! key) (λ o, o = None)). rewrite <-Hcol.
    by apply Forall_fmap.
Qed.

Lemma uniform_slice key (l : list dict) start stop :
  uniform key l → uniform key (slice l start stop).
Proof. intros [H|H]; [left|right]; by apply Forall_take, Forall_drop. Qed.

Lemma slice_window {A} (l : list A) start stop :
  0 ≤ start →
  l = take (Z.to_nat start) l ++ slice l start stop
        ++ drop (Z.to_nat start + length (slice l start stop)) l.
Proof.
  intros Hstart. destruct (slice_nonneg l start stop Hstart) as [Hcut _].
  rewrite Hcut at 1. rewrite <-drop_drop, take_drop. by rewrite take_drop.
Qed.

(** One window: the pipeline returns, the hits are the ones before with
    their payloads in another order, and one execution record is added. *)
Lemma permutation_pipeline_window (self : RankLLM V Prompt) (w : world) r hits entries
    use_logits use_alpha rank_start rank_end :
  hits_of (heap w) r = Some hits → trace_of (heap w) r = Some entries →
  0 ≤ rank_start →
  uniform "rank" hits → uniform "score" hits →
  (use_alpha = false →
   ∀ w' prompt n, Forall (λ c, isdigit c = true → isdecimal c = true)
                    (run_llm self w' prompt use_logits use_alpha n).1) →
  ∃ w' hits' info,
    permutation_pipeline self r use_logits use_alpha rank_start rank_end w = (Ok r, w')
    ∧ hits_of (heap w') r = Some hits'
    ∧ trace_of (heap w') r = Some (entries ++ [info])
    ∧ payload <$> hits' ≡ₚ payload <$> hits
    ∧ (λ d : dict, d !! "rank") <$> hits' = (λ d : dict, d !! "rank") <$> hits
    ∧ (λ d : dict, d !! "score") <$> hits' = (λ d : dict, d !! "score") <$> hits
    ∧ length (calls w') = (length (calls w) + 2)%nat.
Proof.
  intros Hhits Htrace Hstart Hrank Hscore Horacle.
  pose proof (permutation_pipeline_run self w r hits entries use_logits use_alpha
                rank_start rank_end Hhits Htrace) as Hrun.
  cbv zeta in Hrun.
  set (info := (asked self w r use_logits use_alpha rank_start rank_end).2) in *.
  destruct Hrun as (w3 & Hrun & Hhits3 & Htrace3 & Hcalls3 & _).
  destruct (parsed_response_total (_rerank_type self) (exec_response info) use_alpha)
    as [response Hparsed].
  { intros Halpha. apply (Horacle Halpha). }
  destruct (receive_permutation_order self w3 r hits (exec_response info) rank_start
              rank_end use_alpha response Hhits3 Hstart
              (uniform_slice _ _ _ _ Hrank) (uniform_slice _ _ _ _ Hscore) Hparsed)
    as (w' & new & Hreceive & Hhits' & Hcalls' & Hperm & Hnew & Hranks & Hscores).
  pose proof (receive_permutation_trace self w3 r (exec_response info) rank_start rank_end
                use_alpha r _ Htrace3) as [Htrace' _].
  rewrite Hreceive in Htrace'. cbn [snd] in Htrace'.
  pose proof (order_payload_Permutation _ _ _ Hperm Hnew) as Hpayload.
  pose proof (slice_window hits rank_start rank_end Hstart) as Hwindow.
  set (cut_range := slice hits rank_start rank_end) in *.
  exists w', (take (Z.to_nat rank_start) hits ++ new
              ++ drop (Z.to_nat rank_start + length cut_range) hits), info.
  split_and!; [by rewrite Hrun|done|done|..].
  - rewrite !fmap_app, Hpayload, <-!fmap_app. by rewrite <-Hwindow.
  - rewrite !fmap_app, Hranks, <-!fmap_app. by rewrite <-Hwindow.
  - rewrite !fmap_app, Hscores, <-!fmap_app. by rewrite <-Hwindow.
  - rewrite Hcalls', Hcalls3. unfold asked. cbn [fst calls].
    rewrite !length_app. simpl. lia.
Qed.

Lemma for_windows_reorders (self : RankLLM V Prompt) r use_logits use_alpha ws :
  (use_alpha = false →
   ∀ w' prompt n, Forall (λ c, isdigit c = true → isdecimal c = true)
                    (run_llm self w' prompt use_logits use_alpha n).1) →
  Forall (λ win : Z * Z, 0 ≤ win.1) ws →
  ∀ (w : world) hits entries,
    hits_of (heap w) r = Some hits → trace_of (heap w) r = Some entries →
    uniform "rank" hits → uniform "score" hits →
    ∃ w' hits' entries',
      for_windows (λ r s e, permutation_pipeline self r use_logits use_alpha s e) r ws w
      = (Ok r, w')
      ∧ hits_of (heap w') r = Some hits'
      ∧ trace_of (heap w') r = Some (entries ++ entries')
      ∧ length entries' = length ws
      ∧ payload <$> hits' ≡ₚ payload <$> hits
      ∧ (λ d : dict, d !! "rank") <$> hits' = (λ d : dict, d !! "rank") <$> hits
      ∧ (λ d : dict, d !! "score") <$> hits' = (λ d : dict, d !! "score") <$> hits
      ∧ length (calls w') = (length (calls w) + 2 * length ws)%nat.
Proof.
  intros Horacle. induction 1 as [|[s e] ws Hs Hws IH]; intros w hits entries
    Hhits Htrace Hrank Hscore.
  - exists w, hits, []. rewrite app_nil_r. split_and!; try done.
  - destruct (permutation_pipeline_window self w r hits entries use_logits use_alpha s e
                Hhits Htrace Hs Hrank Hscore Horacle)
      as (w1 & hits1 & info & Hrun1 & Hhits1 & Htrace1 & Hpay1 & Hrank1 & Hscore1 & Hcalls1).
    destruct (IH w1 hits1 (entries ++ [info]) Hhits1 Htrace1)
      as (w' & hits' & entries' & Hrun & Hhits' & Htrace' & Hlen & Hpay & Hranks & Hscores
          & Hcalls).
    { by eapply uniform_column. }
    { by eapply uniform_column. }
    exists w', hits', (info :: entries'). cbn [for_windows].
    rewrite (run_bind _ _ _ _ _ Hrun1). split_and!; [done|done| | | | | |].
    + by rewrite <-app_assoc in Htrace'.
    + simpl. by rewrite Hlen.
    + by rewrite Hpay.
    + congruence.
    + congruence.
    + rewrite Hcalls, Hcalls1. simpl. lia.
Qed.

(** X7.  On a result whose hits agree in having [rank] and [score], with a
    start that is not negative, a positive step and an oracle whose answers,
    in digit mode, hold decimal digits only, [sliding_windows] returns: a new
    result whose hits are those of the input with their payloads in another
    order, each once, and with [rank] and [score] where they were; it has
    one execution record more for every window, and two collaborator calls
    have been made for each.  The input has its hits as before. *)
Theorem sliding_windows_reorders (self : RankLLM V Prompt) fuel (w : world) r hits entries
    use_logits use_alpha rank_start rank_end window_size step :
  hits_of (heap w) r = Some hits → trace_of (heap w) r = Some entries →
  0 ≤ rank_start → 0 < step → rank_end - rank_start ≤ Z.of_nat fuel →
  uniform "rank" hits → uniform "score" hits →
  (use_alpha = false →
   ∀ w' prompt n, Forall (λ c, isdigit c = true → isdecimal c = true)
                    (run_llm self w' prompt use_logits use_alpha n).1) →
  ∃ r' w' hits' entries' ws,
    sliding_windows self fuel r use_logits use_alpha rank_start rank_end window_size step w
    = (Ok r', w')
    ∧ windows fuel rank_start step (rank_end - window_size) rank_end = Some ws
    ∧ hits_of (heap w') r' = Some hits'
    ∧ payload <$> hits' ≡ₚ payload <$> hits
    ∧ (λ d : dict, d !! "rank") <$> hits' = (λ d : dict, d !! "rank") <$> hits
    ∧ (λ d : dict, d !! "score") <$> hits' = (λ d : dict, d !! "score") <$> hits
    ∧ trace_of (heap w') r' = Some (entries ++ entries')
    ∧ length entries' = length ws
    ∧ length (calls w') = (length (calls w) + 2 * length ws)%nat
    ∧ r' ≠ r ∧ hits_of (heap w') r = Some hits.
Proof.
  intros Hhits Htrace Hstart Hstep Hfuel Hrank Hscore Horacle.
  destruct (windows_terminates fuel rank_start step (rank_end - window_size) rank_end)
    as [ws Hws]; [done..|].
  destruct (deepcopy_result_run w r hits entries Hhits Htrace)
    as (r' & w1 & Hcopy & Hhits1 & Htrace1 & Hsub1 & Hcalls1 & Hfresh).
  destruct (for_windows_reorders self r' use_logits use_alpha ws Horacle) with
    (w := w1) (hits := hits) (entries := entries)
    as (w' & hits' & entries' & Hrun & Hhits' & Htrace' & Hlen & Hpay & Hranks & Hscores
        & Hcalls); [|done..|].
  { eapply Forall_impl; [by eapply windows_bounds|]. intros [s e] [Hs _]. simpl in *. lia. }
  assert (sliding_windows self fuel r use_logits use_alpha rank_start rank_end window_size
            step w = (Ok r', w')) as Hsliding.
  { unfold sliding_windows. rewrite (run_bind _ _ _ _ _ Hcopy).
    by rewrite (sliding_loop_windows _ _ _ _ _ _ _ ws). }
  exists r', w', hits', entries', ws.
  split_and!; [done..|by rewrite Hcalls, Hcalls1| |].
  - intros ->. apply Hfresh. unfold hits_of in Hhits.
    destruct (heap w !! r) eqn:Hr; [|done]. by apply elem_of_dom.
  - eapply hits_of_weaken; [|done].
    destruct (keeps_sliding_windows (sealed (heap w)) (outside (heap w))
                (sealed_read _) (sealed_write _) (sealed_alloc _) (sealed_log _)
                self fuel r use_logits use_alpha rank_start rank_end window_size step w
                (sealed_self w)) as [[Hsub _] _].
    by rewrite Hsliding in Hsub.
Qed.

(** X8.  When the range is empty, or the first window start plus the step
    is [rank_start] (the window is larger than the range by exactly the step),
    the loop of [sliding_windows] is not entered: whatever the number of
    rounds allowed, the call returns a deep copy, with the hits and the
    execution records of the input, and calls no collaborator. *)
Theorem sliding_windows_no_window (self : RankLLM V Prompt) fuel (w : world) r hits entries
    use_logits use_alpha rank_start rank_end window_size step :
  hits_of (heap w) r = Some hits → trace_of (heap w) r = Some entries →
  rank_end ≤ rank_start ∨ rank_end - window_size + step = rank_start →
  ∃ r' w',
    sliding_windows self fuel r use_logits use_alpha rank_start rank_end window_size step w
    = (Ok r', w')
    ∧ hits_of (heap w') r' = Some hits
    ∧ trace_of (heap w') r' = Some entries
    ∧ calls w' = calls w
    ∧ r' ≠ r.
Proof.
  intros Hhits Htrace Hnone.
  destruct (deepcopy_result_run w r hits entries Hhits Htrace)
    as (r' & w1 & Hcopy & Hhits1 & Htrace1 & Hsub1 & Hcalls1 & Hfresh).
  exists r', w1. split_and!; [|done..|].
  - unfold sliding_windows. rewrite (run_bind _ _ _ _ _ Hcopy).
    destruct fuel; simpl; by rewrite bool_decide_eq_false_2 by lia.
  - intros ->. apply Hfresh. unfold hits_of in Hhits.
    destruct (heap w !! r) eqn:Hr; [|done]. by apply elem_of_dom.
Qed.

(** *** The batched pipeline with too few answers *)

Lemma batched_loop_short (self : RankLLM V Prompt) (answers : list (text * Z)) use_alpha
    rank_start rank_end results prompts index (w : world) :
  0 ≤ index ≤ Z.of_nat (length answers) →
  Z.of_nat (length answers) < index + Z.of_nat (length results `min` length prompts) →
  returned (batched_loop self answers use_alpha rank_start rank_end index results prompts
              w).1 = false.
Proof.
  revert prompts index w.
  induction results as [|result results IH]; intros [|[prompt n_in] prompts] index w
    Hindex Hshort; simpl in Hshort; try lia.
  cbn [batched_loop].
  destruct (decide (index < Z.of_nat (length answers))) as [Hlt|Hge].
  - destruct (lookup_lt_is_Some_2 answers (Z.to_nat index) ltac:(lia)) as [[answer n_out] Ha].
    rewrite (run_bind _ _ _ _ _ (run_getitem _ _ _ _ (proj1 Hindex) Ha)).
    apply returned_bind. intros _ w'. apply IH; lia.
  - unfold getitem, position.
    rewrite !bool_decide_eq_false_2 by lia. done.
Qed.

(** X9.  When the batched oracle gives fewer answers than there are pairs
    of a result and a rendered prompt, [permutation_pipeline_batched] does
    not return: the loop raises, at the latest with [IndexError] at the first
    pair that has no answer. *)
Theorem permutation_pipeline_batched_short_answers (self : RankLLM V Prompt) results
    use_logits use_alpha rank_start rank_end (w : world) :
  let w1 := World (heap w)
              (calls w ++ [CreatePromptBatched results use_alpha rank_start rank_end]) in
  let prompts := create_prompt_batched self w1 results use_alpha rank_start rank_end in
  let w2 := World (heap w)
              (calls w1 ++ [RunLLMBatched (fst <$> prompts) use_logits use_alpha
                              (rank_end - rank_start)]) in
  let answers := run_llm_batched self w2 (fst <$> prompts) use_logits use_alpha
                   (rank_end - rank_start) in
  (length answers < length results `min` length prompts)%nat →
  returned (permutation_pipeline_batched self results use_logits use_alpha
              rank_start rank_end w).1 = false
  ∧ (answers = [] → permutation_pipeline_batched self results use_logits use_alpha
                      rank_start rank_end w = (Raise IndexError, w2)).
Proof.
  intros w1 prompts w2 answers Hshort.
  assert (permutation_pipeline_batched self results use_logits use_alpha rank_start
            rank_end w
          = (batched_loop self answers use_alpha rank_start rank_end 0 results prompts;;
             mret results) w2) as ->.
  { done. }
  split.
  - unfold mbind, M_bind.
    pose proof (batched_loop_short self answers use_alpha rank_start rank_end results
                  prompts 0 w2 ltac:(lia) ltac:(lia)) as Hloop.
    by destruct (batched_loop _ _ _ _ _ _ _ _ w2) as [[[]| |] w'].
  - intros Hnone. rewrite Hnone in *. simpl in Hshort.
    destruct results as [|result results]; [simpl in Hshort; lia|].
    destruct prompts as [|[prompt n_in] prompts]; [simpl in Hshort; lia|]. done.
Qed.

(** *** What the pipeline changes *)

Lemma receive_permutation_returns (self : RankLLM V Prompt) (w : world) r permutation
    rank_start rank_end use_alpha a :
  (receive_permutation self r permutation rank_start rank_end use_alpha w).1 = Ok a → a = r.
Proof.
  unfold receive_permutation. destruct (parsed_response _ _ _); [|done].
  unfold mbind, M_bind.
  destruct (attr_hits r w) as [[hits| |] w1]; [|done..].
  destruct (read_list hits w1) as [[items| |] w2]; [|done..].
  destruct (mapM read_dict _ w2) as [[cut_range| |] w3]; [|done..].
  destruct (reorder _ _ _ _ _ w3) as [[[]| |] w4]; [|done..].
  by intros [= <-].
Qed.

(** X10.  [permutation_pipeline] works in place: a result it returns is the
    very object it was given, and of the objects that were in the store it
    changes none but the result, its list of hits, its hits and its list of
    execution records, however it ends. *)
Theorem permutation_pipeline_in_place (self : RankLLM V Prompt) (w : world) r h t items hits
    entries use_logits use_alpha rank_start rank_end :
  holds w r h t items hits → trace_of (heap w) r = Some entries →
  let run := permutation_pipeline self r use_logits use_alpha rank_start rank_end w in
  let own := r :: h :: items ++ option_list t in
  filter (λ lo : loc * obj, lo.1 ∉ own) (heap w) ⊆ heap run.2
  ∧ (returned run.1 = true → run.1 = Ok r).
Proof.
  intros Hholds Htrace run own.
  pose proof Hholds as (Hr & Hh & Hds).
  set (σ0 := filter (λ lo : loc * obj, lo.1 ∉ own) (heap w)).
  assert (∀ l, l ∈ own → outside σ0 l) as Hown.
  { intros l Hl Hin. apply elem_of_dom in Hin as [o Ho].
    apply map_lookup_filter_Some in Ho as [_ Hnot]. by apply Hnot. }
  assert (sealed σ0 w) as Hsealed.
  { split; [apply map_filter_subseteq|].
    intros l o Hl Hout.
    assert (l ∈ own) as Hin.
    { destruct (decide (l ∈ own)) as [|Hnot]; [done|]. exfalso. apply Hout.
      apply elem_of_dom. exists o. by apply map_lookup_filter_Some. }
    apply Forall_forall. intros l' Hl'. apply Hown.
    unfold own in Hin. rewrite !elem_of_cons, elem_of_app in Hin.
    destruct Hin as [-> | [-> | [Hin|Hin]]].
    - rewrite Hr in Hl. injection Hl as <-. simpl in Hl'.
      apply elem_of_cons in Hl' as [-> | Hl']; unfold own; set_solver.
    - rewrite Hh in Hl. injection Hl as <-. simpl in Hl'. unfold own. set_solver.
    - apply list_elem_of_lookup in Hin as [i Hi].
      destruct (Forall2_lookup_l _ _ _ _ _ Hds Hi) as (d & _ & Hd).
      rewrite Hd in Hl. injection Hl as <-. by apply not_elem_of_nil in Hl'.
    - unfold trace_of in Htrace. rewrite Hr in Htrace. destruct t as [tl|]; [|set_solver].
      apply list_elem_of_singleton in Hin as ->.
      destruct (heap w !! tl) as [[| | |es]|]; try done. injection Hl as <-.
      by apply not_elem_of_nil in Hl'. }
  split.
  - destruct (keeps_permutation_pipeline (sealed σ0) (outside σ0)
                (sealed_read _) (sealed_write _) (sealed_alloc _) (sealed_log _)
                self r use_logits use_alpha rank_start rank_end
                ltac:(apply Hown; unfold own; set_solver) w Hsealed) as [[Hsub _] _].
    done.
  - pose proof (permutation_pipeline_run self w r hits entries use_logits use_alpha
                  rank_start rank_end ltac:(apply hits_of_holds; eauto) Htrace) as Hrun.
    cbv zeta in Hrun. destruct Hrun as (w3 & Hrun & _). fold run in Hrun.
    rewrite Hrun. intros Hreturned.
    destruct (receive_permutation _ _ _ _ _ _ w3) as [[a| |] w'] eqn:Hreceive; try done.
    simpl. f_equal. eapply receive_permutation_returns. by rewrite Hreceive.
Qed.

End store_more.

(** ** The identifiers in the text of a prompt *)

Section replace_number_facts.
Context {U : Unicode}.

Lemma give_back_spec n (s1 g rest : text) :
  give_back n s1 = Some (g, rest) →
  s1 = g ++ [93%N] ++ rest ∧ (1 ≤ length g ≤ n)%nat.
Proof.
  induction n as [|n IH]; [done|]. cbn [give_back].
  destruct (drop (S n) s1) as [|c rest'] eqn:Hdrop.
  - intros H. destruct (IH H). split; [done|lia].
  - destruct (N.eqb_spec c 93) as [->|_].
    + intros [= <- <-]. split.
      * rewrite <-(take_drop (S n) s1) at 1. by rewrite Hdrop.
      * assert (S n < length s1)%nat.
        { destruct (decide (S n < length s1)%nat); [done|].
          rewrite drop_ge in Hdrop by lia. done. }
        rewrite length_take. lia.
    + intros H. destruct (IH H). split; [done|lia].
Qed.

Lemma bracketed_by_spec class (s g rest : text) :
  bracketed_by class s = Some (g, rest) →
  s = [91%N] ++ g ++ [93%N] ++ rest ∧ g ≠ [] ∧ Forall (λ c, class c = true) g.
Proof.
  unfold bracketed_by. destruct s as [|c s1]; [done|].
  destruct (N.eqb_spec c 91) as [->|_]; [|done]. intros Hback.
  apply give_back_spec in Hback as [-> Hlen]. split_and!; [done|destruct g; [simpl in Hlen; lia|done]|].
  pose proof (take_while_all class (g ++ [93%N] ++ rest)) as Hrun.
  assert (g = take (length g) (take_while class (g ++ [93%N] ++ rest))) as ->.
  { assert (∀ n (s : text), (n ≤ length (take_while class s))%nat →
              take n (take_while class s) = take n s) as Htake.
    { intros n s. revert n. induction s as [|a s IHs]; intros n Hn; simpl in *.
      - by rewrite !take_nil.
      - destruct (class a); simpl in *; [|by replace n with 0%nat by lia].
        destruct n; [done|]. simpl. f_equal. apply IHs. lia. }
    rewrite Htake by lia. by rewrite take_app_length. }
  by apply Forall_take.
Qed.

(** What [re.sub] may do to a character: keep it, or turn a square bracket
    into the round one. *)
Definition rounded (c c' : N) : Prop :=
  c' = c ∨ (c = 91%N ∧ c' = 40%N) ∨ (c = 93%N ∧ c' = 41%N).

Lemma rounded_refl (s : text) : Forall2 rounded s s.
Proof. apply Forall2_same_length_lookup. split; [done|]. intros i c c' ? ?. left. congruence. Qed.

Lemma sub_from_rounded class skip (s : text) :
  Forall2 rounded (drop skip s) (sub_from class skip s).
Proof.
  revert skip. induction s as [|c s IH]; intros skip; [by rewrite drop_nil|].
  cbn [sub_from]. destruct skip as [|k]; [|apply IH].
  rewrite drop_0. destruct (bracketed_by class (c :: s)) as [[g rest]|] eqn:Hmatch.
  - apply bracketed_by_spec in Hmatch as (Hs & _ & _). simpl in Hs.
    injection Hs as -> ->. constructor; [right; by left|].
    apply Forall2_app; [apply rounded_refl|]. simpl.
    constructor; [right; by right|].
    specialize (IH (length g + 1)%nat).
    rewrite <-drop_drop, drop_app_length in IH. exact IH.
  - constructor; [by left|]. specialize (IH 0%nat). by rewrite drop_0 in IH.
Qed.

Lemma bracketed_by_run class (g rest : text) :
  g ≠ [] → Forall (λ c, class c = true) g → class 93%N = false →
  bracketed_by class ([91%N] ++ g ++ [93%N] ++ rest) = Some (g, rest).
Proof.
  intros Hne Hg Hclose. cbn [bracketed_by app]. rewrite N.eqb_refl.
  assert (take_while class (g ++ 93%N :: rest) = g) as ->.
  { clear Hne. induction Hg as [|c g Hc Hg IH]; simpl; [by rewrite Hclose|].
    by rewrite Hc, IH. }
  destruct g as [|c g]; [done|]. cbn [length give_back].
  change (S (length g)) with (length (c :: g)).
  rewrite drop_app_length. simpl. by rewrite take_app_length.
Qed.

(** A match in a text is replaced, unless it starts inside an earlier
    match; it cannot, when the class leaves out the opening bracket. *)
Lemma sub_from_replaces class skip (s : text) k g rest :
  class 91%N = false →
  (skip ≤ k)%nat →
  (∀ j, (j < skip)%nat → s !! j ≠ Some 91%N) →
  bracketed_by class (drop k s) = Some (g, rest) →
  sub_from class skip s !! (k - skip)%nat = Some 40%N.
Proof.
  intros Hopen. revert skip k g rest.
  induction s as [|c s IH]; intros skip k g rest Hk Hskip Hmatch.
  { by rewrite drop_nil in Hmatch. }
  cbn [sub_from]. destruct skip as [|j].
  - destruct (bracketed_by class (c :: s)) as [[g0 rest0]|] eqn:Hhead.
    + destruct k as [|k']; [done|].
      apply bracketed_by_spec in Hhead as (Hs & _ & Hg0). simpl in Hs.
      injection Hs as -> ->.
      assert (∀ i, (i < length g0 + 1)%nat → (g0 ++ 93%N :: rest0) !! i ≠ Some 91%N)
        as Hinside.
      { intros i Hi. destruct (decide (i < length g0)%nat) as [Hlt|Hge].
        - rewrite lookup_app_l by done. intros Hin.
          eapply Forall_lookup_1 in Hg0; [|done]. cbn beta in Hg0. congruence.
        - rewrite lookup_app_r by lia. replace (i - length g0)%nat with 0%nat by lia. done. }
      assert ((g0 ++ 93%N :: rest0) !! k' = Some 91%N) as Hk'.
      { simpl in Hmatch. apply bracketed_by_spec in Hmatch as (Hdrop & _).
        rewrite <-(take_drop k' (g0 ++ 93%N :: rest0)), Hdrop.
        assert (k' < length (g0 ++ 93%N :: rest0))%nat.
        { destruct (decide (k' < length (g0 ++ 93%N :: rest0))%nat); [done|].
          rewrite drop_ge in Hdrop by lia. done. }
        rewrite lookup_app_r by (rewrite length_take; lia).
        rewrite length_take. by replace (k' - _)%nat with 0%nat by lia. }
      assert (length g0 + 1 ≤ k')%nat as Hpast.
      { destruct (decide (length g0 + 1 ≤ k')%nat); [done|].
        exfalso. apply (Hinside k'); [lia|done]. }
      specialize (IH (length g0 + 1)%nat k' g rest Hpast Hinside Hmatch).
      rewrite Nat.sub_0_r. cbn [app].
      rewrite lookup_cons_ne_0 by lia. cbn [Nat.pred].
      rewrite lookup_app_r by lia. rewrite lookup_cons_ne_0 by lia.
      rewrite <-IH. f_equal. lia.
    + destruct k as [|k']; [rewrite drop_0 in Hmatch; congruence|].
      rewrite Nat.sub_0_r. simpl.
      rewrite <-(IH 0%nat k' g rest); [by rewrite Nat.sub_0_r|lia| |done].
      intros i Hi. lia.
  - destruct k as [|k']; [lia|]. simpl.
    apply (IH j k' g rest); [lia| |done].
    intros i Hi. apply (Hskip (S i)). lia.
Qed.

Lemma sub_from_none class (s : text) :
  (∀ k, bracketed_by class (drop k s) = None) → sub_from class 0 s = s.
Proof.
  induction s as [|c s IH]; intros Hnone; [done|]. cbn [sub_from].
  pose proof (Hnone 0%nat) as Hhead. rewrite drop_0 in Hhead. rewrite Hhead.
  f_equal. apply IH. intros k. apply (Hnone (S k)).
Qed.

Lemma sub_from_skip class (a b : text) :
  sub_from class (length a) (a ++ b) = sub_from class 0 b.
Proof. induction a as [|c a IH]; [done|]. simpl. apply IH. Qed.

Lemma rounded_decimal c c' : isdecimal c' = true → rounded c c' → c = c'.
Proof.
  intros Hc' [->|[[-> ->]|[-> ->]]]; [done|exfalso..].
  - by rewrite ascii_isdecimal in Hc'.
  - by rewrite ascii_isdecimal in Hc'.
Qed.

(** X11.  In digit mode [_replace_number] changes square brackets into
    round ones and nothing else, so the text keeps its length; no number in
    square brackets is left anywhere in the result; and applying it a second
    time changes nothing. *)
Theorem replace_number_digits (s : text) :
  let out := _replace_number s false in
  Forall2 rounded s out
  ∧ (∀ k, bracketed_by isdecimal (drop k out) = None)
  ∧ _replace_number out false = out.
Proof.
  intros out.
  assert (Forall2 rounded s out) as Hrounded.
  { pose proof (sub_from_rounded isdecimal 0 s) as H. by rewrite drop_0 in H. }
  assert (isdecimal 91%N = false) as Hopen by by rewrite ascii_isdecimal.
  assert (isdecimal 93%N = false) as Hclose by by rewrite ascii_isdecimal.
  assert (∀ k, bracketed_by isdecimal (drop k out) = None) as Hnone.
  { intros k. destruct (bracketed_by isdecimal (drop k out)) as [[g rest]|] eqn:Hmatch;
      [exfalso|done].
    apply bracketed_by_spec in Hmatch as (Hdrop & Hne & Hg).
    pose proof (Forall2_drop _ _ _ k Hrounded) as Hk. rewrite Hdrop in Hk.
    apply Forall2_app_inv_r in Hk as (open & tail & Hopen' & Htail & Hs).
    apply Forall2_app_inv_r in Htail as (g' & tail' & Hg' & Htail' & ->).
    apply Forall2_app_inv_r in Htail' as (close & rest' & Hclose' & _ & ->).
    apply Forall2_cons_inv_r in Hopen' as (c0 & ? & Hc0 & Hnil & ->).
    apply Forall2_nil_inv_r in Hnil as ->.
    apply Forall2_cons_inv_r in Hclose' as (c1 & ? & Hc1 & Hnil & ->).
    apply Forall2_nil_inv_r in Hnil as ->.
    assert (c0 = 91%N) as -> by (destruct Hc0 as [->|[[_ ?]|[_ ?]]]; done).
    assert (c1 = 93%N) as -> by (destruct Hc1 as [->|[[_ ?]|[_ ?]]]; done).
    assert (g' = g) as ->.
    { apply list_eq_Forall2. apply Forall2_same_length_lookup.
      split; [by eapply Forall2_length|]. intros i c c' Hc Hc'.
      pose proof (Forall2_lookup_lr _ _ _ _ _ _ Hg' Hc Hc') as Hcc.
      apply rounded_decimal in Hcc; [done|]. by eapply (Forall_lookup_1 _ _ _ _ Hg). }
    pose proof (sub_from_replaces isdecimal 0 s k g rest' Hopen ltac:(lia)
                  ltac:(intros; lia)) as Hreplaced.
    rewrite Hs, bracketed_by_run in Hreplaced by done. specialize (Hreplaced eq_refl).
    rewrite Nat.sub_0_r in Hreplaced. fold (_replace_number s false) in Hreplaced.
    fold out in Hreplaced.
    assert (out !! k = Some 91%N) as Hout.
    { rewrite <-(take_drop k out), Hdrop.
      assert (k < length out)%nat.
      { destruct (decide (k < length out)%nat); [done|].
        rewrite drop_ge in Hdrop by lia. done. }
      rewrite lookup_app_r by (rewrite length_take; lia).
      rewrite length_take. by replace (k - _)%nat with 0%nat by lia. }
    congruence. }
  split_and!; [done..|]. by apply sub_from_none.
Qed.

Lemma give_back_last (g tail after : text) j :
  g ≠ [] → Forall (λ c, c ≠ 93%N) tail →
  (∀ c, head after = Some c → c ≠ 93%N) →
  (j ≤ length tail + 1)%nat →
  give_back (length g + j) (g ++ [93%N] ++ tail ++ after) = Some (g, tail ++ after).
Proof.
  intros Hne Htail Hafter. induction j as [|j IH]; intros Hj.
  - rewrite Nat.add_0_r. destruct g as [|c g]; [done|]. cbn [length give_back].
    change (S (length g)) with (length (c :: g)).
    rewrite drop_app_length. simpl. by rewrite take_app_length.
  - replace (length g + S j)%nat with (S (length g + j)) by lia. cbn [give_back].
    replace (S (length g + j)) with (length g + S j)%nat by lia.
    rewrite <-drop_drop, drop_app_length. simpl.
    destruct (drop j (tail ++ after)) as [|c rest] eqn:Hdrop; [apply IH; lia|].
    assert (c ≠ 93%N) as Hc.
    { destruct (decide (j < length tail)%nat) as [Hlt|Hge].
      - destruct (lookup_lt_is_Some_2 tail j Hlt) as [c' Hc'].
        assert ((tail ++ after) !! j = Some c) as Hlookup.
        { rewrite <-(take_drop j (tail ++ after)), Hdrop.
          assert (j < length (tail ++ after))%nat by (rewrite length_app; lia).
          rewrite lookup_app_r by (rewrite length_take; lia).
          rewrite length_take. by replace (j - _)%nat with 0%nat by lia. }
        rewrite lookup_app_l in Hlookup by done.
        assert (c' = c) as -> by congruence. by eapply (Forall_lookup_1 _ _ _ _ Htail).
      - assert (j = length tail) as -> by lia.
        rewrite drop_app_length in Hdrop. apply Hafter. by rewrite Hdrop. }
    destruct (N.eqb_spec c 93); [done|]. apply IH. lia.
Qed.

(** X12.  In alphabetic mode [_replace_number] also changes brackets only,
    but the class [A-z] of its pattern holds the two square brackets
    themselves: after an opening bracket the group runs over all the class
    characters up to the last closing bracket of their run, brackets inside
    the group included, and what the group holds is not looked at again.  So
    a bracketed letter inside the group, as in [[A]], stays in the result. *)
Theorem replace_number_alpha :
  (∀ s : text, Forall2 rounded s (_replace_number s true))
  ∧ (∀ g tail after : text,
       g ≠ [] → Forall (λ c, in_A_z c = true) g →
       Forall (λ c, in_A_z c = true ∧ c ≠ 93%N) tail →
       (∀ c, head after = Some c → in_A_z c = false) →
       _replace_number ([91%N] ++ g ++ [93%N] ++ tail ++ after) true
       = [40%N] ++ g ++ [41%N] ++ _replace_number (tail ++ after) true)
  ∧ (∀ g : text, g ≠ [] → Forall (λ c, in_A_z c = true) g →
       _replace_number ([91%N; 91%N] ++ g ++ [93%N; 93%N]) true
       = [40%N; 91%N] ++ g ++ [93%N; 41%N]).
Proof.
  assert (∀ g tail after : text,
            g ≠ [] → Forall (λ c, in_A_z c = true) g →
            Forall (λ c, in_A_z c = true ∧ c ≠ 93%N) tail →
            (∀ c, head after = Some c → in_A_z c = false) →
            _replace_number ([91%N] ++ g ++ [93%N] ++ tail ++ after) true
            = [40%N] ++ g ++ [41%N] ++ _replace_number (tail ++ after) true) as Hgroup.
  { intros g tail after Hne Hg Htail Hafter. unfold _replace_number.
    cbn [sub_from app bracketed_by]. rewrite N.eqb_refl.
    assert (take_while in_A_z (g ++ 93%N :: tail ++ after) = g ++ 93%N :: tail) as ->.
    { clear Hne. induction Hg as [|c g Hc Hg IH]; simpl.
      - f_equal. induction Htail as [|c tail [Hc _] Htail IH]; simpl.
        + destruct after as [|c after]; [done|]. simpl. by rewrite (Hafter c eq_refl).
        + by rewrite Hc, IH.
      - by rewrite Hc, IH. }
    rewrite length_app. cbn [length].
    pose proof (give_back_last g tail after (S (length tail)) Hne) as Hback.
    cbn [app] in Hback. rewrite Hback; [| | |lia].
    - do 2 f_equal. f_equal.
      replace (length g + 1)%nat with (length (g ++ [93%N])) by (rewrite length_app; simpl; lia).
      change (g ++ 93%N :: tail ++ after) with (g ++ [93%N] ++ tail ++ after).
      rewrite (app_assoc g [93%N]). apply sub_from_skip.
    - eapply Forall_impl; [done|]. by intros c [_ ?].
    - intros c Hc ->. by pose proof (Hafter _ Hc). }
  split_and!; [|done|].
  - intros s. pose proof (sub_from_rounded in_A_z 0 s) as H. by rewrite drop_0 in H.
  - intros g Hne Hg.
    replace ([91%N; 91%N] ++ g ++ [93%N; 93%N])
      with ([91%N] ++ ([91%N] ++ g ++ [93%N]) ++ [93%N] ++ [] ++ []).
    2:{ simpl. by rewrite <-app_assoc. }
    rewrite Hgroup; [|done| |done|done].
    + simpl. by rewrite <-app_assoc.
    + constructor; [done|]. apply Forall_app. split; [done|]. by constructor.
Qed.

End replace_number_facts.

(** ** An answer in the form the prompt asks for *)

Section round_trip.
Context {U : Unicode}.

(** The identifier of the hit at index [x]: its number, from 1, in square
    brackets, or its letter, from [A]. *)
Definition item (x : Z) : text := [91%N] ++ str (x + 1) ++ [93%N].

Definition item_alpha (x : Z) : text := [91%N; Z.to_N (x + 65); 93%N].

(** The answer that ranks the hits in the order [l]: their identifiers,
    with [" > "] between them. *)
Fixpoint ranking (item : Z → text) (l : list Z) : text :=
  match l with
  | [] => []
  | x :: l' =>
      match l' with
      | [] => item x
      | _ :: _ => item x ++ py " > " ++ ranking item l'
      end
  end.

Lemma ranking_cons item x l :
  ranking item (x :: l) = item x ++ (if l is [] then [] else py " > " ++ ranking item l).
Proof. destruct l; simpl; [by rewrite app_nil_r|done]. Qed.

(** *** The tokens of the cleaned answer *)

Lemma split_from_token (tok rest : text) :
  tok ≠ [] → Forall (λ c, isspace c = false) tok →
  split_from [] ([32%N] ++ tok ++ [32%N] ++ rest) = tok :: split_from [] rest.
Proof.
  intros Hne Htok. cbn [app split_from]. rewrite isspace_space.
  rewrite split_from_run by done. cbn [split_from]. rewrite isspace_space, app_nil_r.
  destruct (rev tok) eqn:Hrev.
  - apply (f_equal (@rev N)) in Hrev. rewrite rev_involutive in Hrev. done.
  - by rewrite <-Hrev, rev_involutive.
Qed.

Lemma tokens_of_pieces (piece : N → text) (item : Z → text) (l : list Z) :
  (∀ x, x ∈ l → flat_map piece (item x) = [32%N] ++ str (x + 1) ++ [32%N] ∧ 0 ≤ x) →
  flat_map piece (py " > ") = [32%N; 32%N; 32%N] →
  split (flat_map piece (ranking item l)) = (λ x, str (x + 1)) <$> l.
Proof.
  intros Hitem Hsep. unfold split. induction l as [|x l IH]; [done|].
  rewrite ranking_cons, flat_map_app.
  destruct (Hitem x ltac:(by left)) as [-> Hx].
  destruct (str_digits (x + 1) ltac:(lia)) as [Hdigits Hne].
  assert (Forall (λ c, isspace c = false) (str (x + 1))) as Hnospace.
  { eapply Forall_impl; [done|]. apply ascii_digit_not_isspace. }
  rewrite <-!app_assoc. rewrite split_from_token by done. rewrite fmap_cons. f_equal.
  destruct l as [|y l]; [done|].
  rewrite flat_map_app, Hsep. cbn [app split_from]. rewrite !isspace_space.
  apply IH. intros z Hz. apply Hitem. by right.
Qed.

Lemma remove_duplicate_NoDup_id (l : list Z) : NoDup l → _remove_duplicate l = l.
Proof.
  induction 1 as [|x l Hx Hl IH]; [done|].
  rewrite remove_duplicate_cons. f_equal.
  rewrite filter_all; [done|]. apply Forall_forall. by intros y Hy ->.
Qed.

Lemma parsed_tokens (l : list Z) :
  Forall (λ x, 0 ≤ x) l →
  mapM (λ x, (λ v, v - 1) <$> int x) ((λ x, str (x + 1)) <$> l) = Some l.
Proof.
  intros Hl. apply mapM_Some. apply Forall2_fmap_l, Forall2_same_length_lookup.
  split; [done|]. intros i x y Hx Hy. cbn beta in *.
  assert (y = x) as -> by congruence.
  eapply Forall_lookup_1 in Hl; [|done]. cbn beta in Hl.
  unfold compose. rewrite int_str by lia. simpl. f_equal. lia.
Qed.

(** *** The pattern on a well-formed answer *)

Lemma take_while_run (p : N → bool) (a r : text) c :
  Forall (λ x, p x = true) a → p c = false → take_while p (a ++ c :: r) = a.
Proof. induction 1 as [|x a Hx Ha IH]; intros Hc; simpl; [by rewrite Hc|]. by rewrite Hx, IH. Qed.

Lemma drop_while_run (p : N → bool) (a r : text) c :
  Forall (λ x, p x = true) a → p c = false → drop_while p (a ++ c :: r) = c :: r.
Proof. induction 1 as [|x a Hx Ha IH]; intros Hc; simpl; [by rewrite Hc|]. by rewrite Hx, IH. Qed.

Lemma bracketed_item x (rest : text) :
  0 ≤ x → bracketed (item x ++ rest) = Some (item x, rest).
Proof.
  intros Hx. destruct (str_digits (x + 1) ltac:(lia)) as [Hdigits Hne].
  assert (Forall (λ c, isdecimal c = true) (str (x + 1))) as Hdec.
  { eapply Forall_impl; [done|]. apply ascii_digit_isdecimal. }
  assert (isdecimal 93%N = false) as Hclose by by rewrite ascii_isdecimal.
  unfold item, bracketed. rewrite <-!app_assoc. cbn [app]. rewrite N.eqb_refl.
  rewrite take_while_run, drop_while_run by done.
  destruct (str (x + 1)) as [|d ds]; [done|]. by rewrite N.eqb_refl.
Qed.

(** What follows the first identifier of a ranking. *)
Definition ranking_tail (item : Z → text) (l : list Z) : text :=
  if l is [] then [] else py " > " ++ ranking item l.

Lemma more_items_ranking fuel (l : list Z) :
  Forall (λ x, 0 ≤ x) l →
  (length (ranking_tail item l) ≤ fuel)%nat →
  more_items fuel (ranking_tail item l) = (ranking_tail item l, []).
Proof.
  intros Hl. revert fuel. induction Hl as [|x l Hx Hl IH]; intros fuel Hfuel.
  { by destruct fuel. }
  destruct fuel as [|fuel]; [simpl in Hfuel; lia|].
  unfold ranking_tail. rewrite ranking_cons. fold (ranking_tail item l).
  assert (isspace 62%N = false) as Hgt by by rewrite ascii_isspace.
  assert (isspace 91%N = false) as Hopen by by rewrite ascii_isspace.
  change (py " > ") with [32%N; 62%N; 32%N].
  set (R := item x ++ ranking_tail item l).
  assert (drop_while isspace R = R ∧ take_while isspace R = []) as [HdR HtR].
  { unfold R, item. cbn [app drop_while take_while]. by rewrite Hopen. }
  cbn [more_items app drop_while take_while].
  rewrite !isspace_space, Hgt. cbv beta iota. cbn [N.eqb Pos.eqb].
  cbn [drop_while take_while]. rewrite !isspace_space. cbv beta iota.
  rewrite HdR, HtR. unfold R.
  rewrite bracketed_item by done. rewrite IH; [done|].
  unfold ranking_tail in Hfuel. rewrite ranking_cons in Hfuel.
  fold (ranking_tail item l) in Hfuel. rewrite !length_app in Hfuel. simpl in Hfuel. lia.
Qed.

Lemma findall_from_all (s : text) skip : (length s ≤ skip)%nat → findall_from skip s = [].
Proof.
  revert skip. induction s as [|c s IH]; intros skip Hskip; [done|].
  simpl in *. destruct skip as [|k]; [lia|]. apply IH. lia.
Qed.

Lemma findall_ranking x (l : list Z) :
  0 ≤ x → Forall (λ x, 0 ≤ x) l →
  findall (ranking item (x :: l)) = [ranking item (x :: l)].
Proof.
  intros Hx Hl. rewrite ranking_cons. fold (ranking_tail item l).
  assert (isspace 91%N = false) as Hopen by by rewrite ascii_isspace.
  assert (match_ranked_list (item x ++ ranking_tail item l)
          = Some (item x ++ ranking_tail item l,
                  length (item x ++ ranking_tail item l))) as Hmatch.
  { unfold match_ranked_list.
    assert (drop_while isspace (item x ++ ranking_tail item l)
            = item x ++ ranking_tail item l) as ->.
    { unfold item. cbn [app drop_while]. by rewrite Hopen. }
    assert (take_while isspace (item x ++ ranking_tail item l) = []) as ->.
    { unfold item. cbn [app take_while]. by rewrite Hopen. }
    rewrite bracketed_item by done. rewrite more_items_ranking by done.
    simpl. do 2 f_equal. lia. }
  unfold findall. unfold item in *. cbn [app] in *. cbn [findall_from].
  rewrite Hmatch. f_equal. apply findall_from_all. simpl. lia.
Qed.

Lemma ranking_chars (l : list Z) :
  Forall (λ x, 0 ≤ x) l →
  Forall (λ c, c ∈ [91%N; 93%N; 32%N; 62%N] ∨ ascii_digit c) (ranking item l).
Proof.
  induction 1 as [|x l Hx Hl IH]; [done|]. rewrite ranking_cons.
  destruct (str_digits (x + 1) ltac:(lia)) as [Hdigits _].
  apply Forall_app. split.
  - unfold item. apply Forall_app. split; [repeat constructor; left; set_solver|].
    apply Forall_app. split; [|repeat constructor; left; set_solver].
    eapply Forall_impl; [done|]. by right.
  - destruct l; [done|]. apply Forall_app. split; [|done].
    repeat constructor; left; set_solver.
Qed.

Lemma ranking_alpha_chars (l : list Z) :
  Forall (λ x, 0 ≤ x < 26) l →
  Forall (λ c, (c < 128)%N ∧ ¬ ascii_digit c ∧ c ≠ 60%N) (ranking item_alpha l).
Proof.
  induction 1 as [|x l Hx Hl IH]; [done|]. rewrite ranking_cons.
  apply Forall_app. split.
  - unfold item_alpha.
    repeat (apply Forall_cons; split; [unfold ascii_digit; lia|]). done.
  - destruct l; [done|]. apply Forall_app. split; [|done].
    change (py " > ") with [32%N; 62%N; 32%N].
    repeat (apply Forall_cons; split; [unfold ascii_digit; lia|]). done.
Qed.

Lemma findall_from_no_decimal skip (s : text) :
  Forall (λ c, isdecimal c = false) s → findall_from skip s = [].
Proof.
  intros Hs. revert skip. induction Hs as [|c s Hc Hs IH]; intros skip; [done|].
  cbn [findall_from]. destruct skip; [|apply IH].
  assert (match_ranked_list (c :: s) = None) as ->; [|apply IH].
  unfold match_ranked_list.
  assert (Forall (λ c, isdecimal c = false) (drop_while isspace (c :: s))) as Hdrop.
  { apply Forall_drop_while. by constructor. }
  destruct (drop_while isspace (c :: s)) as [|c' s1]; [done|].
  apply Forall_cons in Hdrop as [_ Hs1]. unfold bracketed.
  destruct (c' =? 91)%N; [|done].
  destruct Hs1 as [|d s2 Hd _]; [done|]. simpl. by rewrite Hd.
Qed.

(** In reasoning mode a well-formed answer without the markers is taken
    whole. *)
Lemma extracted_ranking _rerank_type (l : list Z) :
  Forall (λ x, 0 ≤ x) l → extracted _rerank_type (ranking item l) = ranking item l.
Proof.
  intros Hl. unfold extracted. destruct (String.eqb _ _); [|done].
  rewrite parse_reasoning_permutation_whole.
  - destruct l as [|x l]; [done|]. apply Forall_cons in Hl as [Hx Hl].
    rewrite findall_ranking by done. cbn [list_find].
    by destruct (decide (62%N ∈ ranking item (x :: l))).
  - unfold answer_region.
    rewrite (index_absent end_of_reasoning_tag _ 60%N _ eq_refl); [done|].
    intros Hin. pose proof (ranking_chars l Hl) as Hchars.
    eapply Forall_forall in Hchars; [|done]. unfold ascii_digit in Hchars.
    destruct Hchars as [Hc|Hc]; [|lia].
    repeat (apply elem_of_cons in Hc as [Hc|Hc]; [done|]). by apply not_elem_of_nil in Hc.
Qed.

Lemma extracted_ranking_alpha _rerank_type (l : list Z) :
  Forall (λ x, 0 ≤ x < 26) l →
  extracted _rerank_type (ranking item_alpha l) = ranking item_alpha l.
Proof.
  intros Hl. unfold extracted. destruct (String.eqb _ _); [|done].
  pose proof (ranking_alpha_chars l Hl) as Hchars.
  rewrite parse_reasoning_permutation_whole.
  - unfold findall. rewrite findall_from_no_decimal; [done|].
    eapply Forall_impl; [done|]. intros c (Hascii & Hnot & _).
    rewrite ascii_isdecimal by done. unfold ascii_digit in Hnot.
    destruct (N.leb_spec 48 c), (N.leb_spec c 57); simpl; try done. lia.
  - unfold answer_region.
    rewrite (index_absent end_of_reasoning_tag _ 60%N _ eq_refl); [done|].
    intros Hin. eapply Forall_forall in Hchars; [|done]. by destruct Hchars as (_ & _ & ?).
Qed.

(** *** Reading the answer back *)

Lemma parsed_response_extracted _rerank_type (s : text) (l : list Z) :
  extracted _rerank_type s = ranking item l →
  NoDup l → Forall (λ x, 0 ≤ x) l →
  parsed_response _rerank_type s false = Some l.
Proof.
  intros Hextracted Hnodup Hl. unfold parsed_response.
  rewrite clean_response_pieces, split_strip, Hextracted.
  rewrite (tokens_of_pieces digit_piece item l).
  - rewrite parsed_tokens by done. simpl. by rewrite remove_duplicate_NoDup_id.
  - intros x Hx. eapply Forall_forall in Hl; [|done]. split; [|done].
    destruct (str_digits (x + 1) ltac:(lia)) as [Hdigits _].
    unfold item. rewrite !flat_map_app. cbn [flat_map]. unfold digit_piece at 1 3.
    rewrite !ascii_isdigit by done. cbn. do 2 f_equal.
    clear Hx. induction Hdigits as [|c ds Hc Hds IH]; [done|]. simpl.
    unfold digit_piece at 1. rewrite ascii_digit_isdigit by done. simpl. by f_equal.
  - cbn. unfold digit_piece. by rewrite !ascii_isdigit.
Qed.

Lemma parsed_response_ranking _rerank_type (l : list Z) :
  NoDup l → Forall (λ x, 0 ≤ x) l →
  parsed_response _rerank_type (ranking item l) false = Some l.
Proof. intros. apply parsed_response_extracted; [by apply extracted_ranking|done..]. Qed.

Lemma parsed_response_ranking_alpha _rerank_type (l : list Z) :
  NoDup l → Forall (λ x, 0 ≤ x < 26) l →
  parsed_response _rerank_type (ranking item_alpha l) true = Some l.
Proof.
  intros Hnodup Hl. unfold parsed_response.
  rewrite clean_response_pieces, split_strip, extracted_ranking_alpha by done.
  rewrite (tokens_of_pieces alpha_piece item_alpha l).
  - rewrite parsed_tokens; [|eapply Forall_impl; [done|]; intros x Hx; cbn beta in *; lia].
    simpl. by rewrite remove_duplicate_NoDup_id.
  - intros x Hx. eapply Forall_forall in Hl; [|done]. split; [|lia].
    unfold item_alpha. cbn [flat_map]. unfold alpha_piece.
    rewrite !ascii_isalpha by lia. cbn [N.leb andb orb].
    assert (((65 <=? Z.to_N (x + 65)) && (Z.to_N (x + 65) <=? 90)
             || (97 <=? Z.to_N (x + 65)) && (Z.to_N (x + 65) <=? 122))%N = true) as ->.
    { destruct (N.leb_spec 65 (Z.to_N (x + 65))), (N.leb_spec (Z.to_N (x + 65)) 90);
        simpl; try done; lia. }
    rewrite app_nil_r. simpl. do 2 f_equal. unfold ALPH_START_IDX. f_equal. lia.
  - cbn. unfold alpha_piece. by rewrite !ascii_isalpha.
Qed.

(** X13.  An answer in the form the prompt asks for is read back as it was
    written: the identifiers of distinct hits, as numbers from 1 or as
    letters from [A], in square brackets with [" > "] between them, give
    the indices of these hits in their order, in both parser modes. *)
Theorem parsed_response_round_trip :
  (∀ _rerank_type (l : list Z),
     NoDup l → Forall (λ x, 0 ≤ x) l →
     parsed_response _rerank_type (ranking item l) false = Some l)
  ∧ (∀ _rerank_type (l : list Z),
       NoDup l → Forall (λ x, 0 ≤ x < 26) l →
       parsed_response _rerank_type (ranking item_alpha l) true = Some l).
Proof.
  split; intros.
  - by apply parsed_response_ranking.
  - by apply parsed_response_ranking_alpha.
Qed.

(** *** An answer between the markers *)

Lemma index_skip (sub pre s : text) a sub' :
  sub = a :: sub' → a ∉ pre →
  index sub (pre ++ s) = (λ i, length pre + i)%nat <$> index sub s.
Proof.
  intros -> Ha. induction pre as [|c pre IH]; simpl.
  - by destruct (index (a :: sub') s).
  - destruct (N.eqb_spec a c) as [->|_]; [exfalso; apply Ha; by left|]. simpl.
    rewrite IH by (intros Hin; apply Ha; by right).
    by destruct (index (a :: sub') s).
Qed.

Lemma starts_with_app (sub s : text) : starts_with sub (sub ++ s) = true.
Proof. induction sub as [|a sub IH]; [done|]. simpl. by rewrite N.eqb_refl. Qed.

Lemma index_here (sub s : text) : index sub (sub ++ s) = Some 0%nat.
Proof. destruct sub, s; simpl; rewrite ?N.eqb_refl, ?starts_with_app; done. Qed.

Lemma remove_from_absent (sub s : text) a sub' :
  sub = a :: sub' → a ∉ s → remove_from sub 0 s = s.
Proof.
  intros -> Ha. induction s as [|c s IH]; [done|]. cbn [remove_from starts_with].
  destruct (N.eqb_spec a c) as [->|_]; [exfalso; apply Ha; by left|]. simpl.
  f_equal. apply IH. intros Hin. apply Ha. by right.
Qed.

Lemma ranking_no_angle (l : list Z) : Forall (λ x, 0 ≤ x) l → 60%N ∉ ranking item l.
Proof.
  intros Hl Hin. pose proof (ranking_chars l Hl) as Hchars.
  eapply Forall_forall in Hchars; [|done]. unfold ascii_digit in Hchars.
  destruct Hchars as [Hc|Hc]; [|lia].
  repeat (apply elem_of_cons in Hc as [Hc|Hc]; [done|]). by apply not_elem_of_nil in Hc.
Qed.

(** The text in which an answer stands between the markers, after the
    reasoning [pre] and before whatever follows. *)
Definition marked (pre answer post : text) : text :=
  pre ++ end_of_reasoning_tag ++ start_of_answer_tag ++ answer ++ end_of_answer_tag ++ post.

Lemma answer_region_marked (pre post : text) (l : list Z) :
  60%N ∉ pre → Forall (λ x, 0 ≤ x) l → l ≠ [] →
  answer_region (marked pre (ranking item l) post)
  = Some (end_of_reasoning_tag ++ ranking item l).
Proof.
  intros Hpre Hl Hne. pose proof (ranking_no_angle l Hl) as Hbody.
  set (body := ranking item l) in *.
  unfold answer_region, marked.
  rewrite (index_skip end_of_reasoning_tag pre _ 60%N _ eq_refl Hpre), index_here.
  cbn [fmap option_fmap option_map mbind option_bind].
  rewrite (index_skip end_of_answer_tag pre _ 60%N _ eq_refl Hpre).
  assert (index end_of_answer_tag
            (end_of_reasoning_tag ++ start_of_answer_tag ++ body ++ end_of_answer_tag ++ post)
          = Some (16 + length body)%nat) as ->.
  { change end_of_reasoning_tag with [60; 47; 116; 104; 105; 110; 107; 62]%N.
    change start_of_answer_tag with [60; 97; 110; 115; 119; 101; 114; 62]%N.
    change end_of_answer_tag with [60; 47; 97; 110; 115; 119; 101; 114; 62]%N at 1.
    cbn [app index starts_with N.eqb Pos.eqb andb fmap option_fmap option_map].
    rewrite (index_skip _ body _ 60%N _ eq_refl Hbody), index_here. simpl.
    f_equal. lia. }
  cbn [fmap option_fmap option_map mbind option_bind]. f_equal.
  unfold substring. rewrite drop_app_length'; [|lia].
  replace (length pre + (16 + length body) - (length pre + 0))%nat
    with (length (end_of_reasoning_tag ++ start_of_answer_tag ++ body)).
  2:{ rewrite !length_app. simpl. lia. }
  replace (end_of_reasoning_tag ++ start_of_answer_tag ++ body ++ end_of_answer_tag ++ post)
    with ((end_of_reasoning_tag ++ start_of_answer_tag ++ body) ++ end_of_answer_tag ++ post)
    by (by rewrite <-!app_assoc).
  rewrite take_app_length.
  assert (remove_all start_of_answer_tag
            (end_of_reasoning_tag ++ start_of_answer_tag ++ body)
          = end_of_reasoning_tag ++ body) as ->.
  { change end_of_reasoning_tag with [60; 47; 116; 104; 105; 110; 107; 62]%N.
    change start_of_answer_tag with [60; 97; 110; 115; 119; 101; 114; 62]%N.
    unfold remove_all.
    cbn [app remove_from starts_with N.eqb Pos.eqb andb length Nat.sub].
    do 8 f_equal. by apply (remove_from_absent _ _ 60%N _ eq_refl). }
  destruct l as [|x l]; [done|].
  destruct (last body) as [c'|] eqn:Hlast.
  - apply (strip_id _ 60%N 93%N); [done|by rewrite ascii_isspace| |by rewrite ascii_isspace].
    rewrite last_app. unfold body. rewrite ranking_cons.
    assert (∀ l' : list Z, last (ranking_tail item l') = None
                           ∨ last (ranking_tail item l') = Some 93%N) as Htail.
    { clear. induction l' as [|y l' IH]; [by left|]. right.
      unfold ranking_tail. rewrite ranking_cons. fold (ranking_tail item l').
      rewrite !last_app. destruct IH as [-> | ->]; [|done].
      unfold item. by rewrite !last_app. }
    fold (ranking_tail item l). rewrite last_app.
    destruct (Htail l) as [-> | ->]; [|done]. unfold item. by rewrite !last_app.
  - apply last_None in Hlast. unfold body in Hlast. rewrite ranking_cons in Hlast.
    by destruct (str (x + 1)).
Qed.

Lemma findall_from_other c (s : text) :
  isspace c = false → c ≠ 91%N → findall_from 0 (c :: s) = findall_from 0 s.
Proof.
  intros Hspace Hopen. cbn [findall_from]. unfold match_ranked_list.
  cbn [drop_while]. rewrite Hspace. unfold bracketed.
  by destruct (N.eqb_spec c 91).
Qed.

(** X14.  In reasoning mode, an answer that stands between the markers, in
    the form the prompt asks for, is what is parsed, whatever the reasoning
    before the end-of-reasoning marker holds (digits and brackets included, an
    opening angle bracket excepted) and whatever follows the end-of-answer
    marker: [parse_reasoning_permutation] returns the answer with
    [matched = true], and the indices read are those of the answer. *)
Theorem parse_reasoning_permutation_marked (pre post : text) (l : list Z) :
  60%N ∉ pre → NoDup l → Forall (λ x, 0 ≤ x) l → l ≠ [] →
  parse_reasoning_permutation (marked pre (ranking item l) post) = (ranking item l, true)
  ∧ parsed_response "code_reasoning" (marked pre (ranking item l) post) false = Some l.
Proof.
  intros Hpre Hnodup Hl Hne.
  assert (parse_reasoning_permutation (marked pre (ranking item l) post)
          = (ranking item l, true)) as Hparse.
  { apply (parse_reasoning_permutation_region _ (end_of_reasoning_tag ++ ranking item l));
      [by apply answer_region_marked|].
    unfold findall.
    change end_of_reasoning_tag with [60; 47; 116; 104; 105; 110; 107; 62]%N.
    cbn [app]. rewrite !findall_from_other by (by rewrite ?ascii_isspace).
    destruct l as [|x l]; [done|]. apply Forall_cons in Hl as [Hx Hl].
    pose proof (findall_ranking x l Hx Hl) as Hall. unfold findall in Hall.
    by rewrite Hall. }
  split; [done|]. apply parsed_response_extracted; [|done..].
  unfold extracted. simpl. by rewrite Hparse.
Qed.

End round_trip.

Lemma parse_reasoning_permutation_marked_witness :
  parse_reasoning_permutation (U:=latin1) (marked (py "[9] is best") (ranking item [1; 0])
                                 (py " done"))
  = (ranking item [1; 0], true)
  ∧ parsed_response (U:=latin1) "code_reasoning"
      (marked (py "[9] is best") (ranking item [1; 0]) (py " done")) false = Some [1; 0].
Proof.
  apply (parse_reasoning_permutation_marked (U:=latin1) (py "[9] is best") (py " done")
           [1; 0]).
  - apply (bool_decide_unpack _). by vm_compute.
  - apply (bool_decide_unpack _). by vm_compute.
  - repeat constructor; lia.
  - done.
Defined.

(** ** When the answer is not read *)

Section value_error.
Context {U : Unicode}.

(** A character that [_clean_response] keeps in digit mode and that [int]
    does not read. *)
Definition unreadable (c : N) : Prop :=
  isdigit c = true ∧ isdecimal c = false ∧ isspace c = false.

#[local] Instance unreadable_dec c : Decision (unreadable c).
Proof. unfold unreadable. apply _. Defined.

Lemma split_from_covers cur (s : text) c :
  c ∈ s ∨ c ∈ cur → isspace c = false → Exists (λ tok, c ∈ tok) (split_from cur s).
Proof.
  intros Hc Hspace. revert cur Hc. induction s as [|a s IH]; intros cur Hc; simpl.
  - destruct Hc as [Hc|Hc]; [by apply not_elem_of_nil in Hc|].
    destruct cur as [|b cur]; [by apply not_elem_of_nil in Hc|].
    apply Exists_cons_hd. apply list_elem_of_In, in_rev. rewrite rev_involutive. by apply list_elem_of_In.
  - destruct (isspace a) eqn:Ha.
    + assert (c ≠ a) as Hne by congruence.
      destruct cur as [|b cur].
      * apply IH. left. destruct Hc as [Hc|Hc]; [|by apply not_elem_of_nil in Hc].
        by apply elem_of_cons in Hc as [?|?].
      * destruct Hc as [Hc|Hc].
        -- apply Exists_cons_tl, IH. left. by apply elem_of_cons in Hc as [?|?].
        -- apply Exists_cons_hd. apply list_elem_of_In, in_rev. rewrite rev_involutive. by apply list_elem_of_In.
    + apply IH. destruct Hc as [Hc|Hc].
      * apply elem_of_cons in Hc as [->|Hc]; [right; by left|by left].
      * right. by right.
Qed.

(** X16.  The answer is not read, and [ValueError] is raised, exactly in
    digit mode on an answer (in reasoning mode: on what is extracted from it)
    that holds a character which [isdigit] accepts, which is no decimal digit
    and no whitespace; in alphabetic mode every answer is read.  ([int] is
    taken without the limit that CPython puts on the number of digits.) *)
Theorem parsed_response_value_error :
  (∀ _rerank_type (permutation : text),
     parsed_response _rerank_type permutation false = None
     ↔ Exists unreadable (extracted _rerank_type permutation))
  ∧ (∀ _rerank_type (permutation : text),
       is_Some (parsed_response _rerank_type permutation true)).
Proof.
  split; [|intros; by apply parsed_response_total].
  intros rt s. unfold parsed_response.
  rewrite clean_response_pieces, split_strip.
  set (x := extracted rt s). split.
  - intros Hnone. destruct (decide (Exists unreadable x)) as [|Hnot]; [done|exfalso].
    apply not_Exists_Forall in Hnot; [|apply _].
    assert (Forall (λ x, x ≠ [] ∧ Forall (λ c, isdecimal c = true) x)
              (split (flat_map digit_piece x))) as Htokens.
    { apply split_tokens, Forall_flat_map.
      eapply Forall_impl; [done|]. intros c Hc. cbn beta in Hc. unfold digit_piece.
      destruct (isdigit c) eqn:Hdigit.
      - constructor; [|done]. intros Hspace.
        destruct (isdecimal c) eqn:Hdec; [done|]. by destruct Hc.
      - constructor; [|done]. by rewrite isspace_space. }
    destruct (mapM _ (split _)) as [response|] eqn:HmapM; [done|].
    apply eq_None_not_Some in HmapM. apply HmapM, mapM_is_Some.
    eapply Forall_impl; [done|]. intros tok [Hne Htok]. cbn.
    unfold int. destruct tok; [done|]. by rewrite forallb_all.
  - intros Hbad. apply Exists_exists in Hbad as (c & Hc & Hdigit & Hdec & Hspace).
    assert (c ∈ flat_map digit_piece x) as Hkept.
    { apply list_elem_of_In, in_flat_map. exists c. split; [by apply list_elem_of_In|].
      unfold digit_piece. rewrite Hdigit. by left. }
    pose proof (split_from_covers [] _ c (or_introl Hkept) Hspace) as Htok.
    apply Exists_exists in Htok as (tok & Htok & Hin).
    destruct (mapM _ (split _)) as [response|] eqn:HmapM; [exfalso|done].
    assert (is_Some (mapM (λ x0, (λ v, v - 1) <$> int x0) (split (flat_map digit_piece x))))
      as Hsome by by rewrite HmapM.
    apply mapM_is_Some in Hsome. eapply Forall_forall in Hsome; [|exact Htok].
    destruct Hsome as [v Hv]. apply fmap_Some in Hv as (v' & Hint & _).
    unfold int in Hint. destruct tok as [|a tok]; [done|].
    destruct (forallb isdecimal (a :: tok)) eqn:Hall; [|done].
    rewrite forallb_forall in Hall. specialize (Hall c). rewrite Hall in Hdec; [done|].
    by apply list_elem_of_In.
Qed.

End value_error.

(** ** Windows at the ends of the list *)

Section bounds.
Context {U : Unicode} {V Prompt : Type}.

Local Abbreviation world := (world V Prompt).

(** X17.  An empty window ([rank_start] at or past the end of the hits, or
    [rank_end] at or before [rank_start]) makes [receive_permutation] return
    with the store as it was, whatever the answer names.  A start more than
    the length of the list below zero, which the slice takes as the start of
    the list, is then used as an index: with a window that is not empty
    [receive_permutation] raises [IndexError], the hits being as before. *)
Theorem receive_permutation_bounds :
  (∀ (self : RankLLM V Prompt) (w : world) r hits permutation rank_start rank_end
     use_alpha response,
     hits_of (heap w) r = Some hits →
     parsed_response (_rerank_type self) permutation use_alpha = Some response →
     slice hits rank_start rank_end = [] →
     receive_permutation self r permutation rank_start rank_end use_alpha w = (Ok r, w))
  ∧ (∀ (self : RankLLM V Prompt) (w : world) r hits permutation rank_start rank_end
       use_alpha response,
       hits_of (heap w) r = Some hits →
       parsed_response (_rerank_type self) permutation use_alpha = Some response →
       rank_start < - Z.of_nat (length hits) →
       slice hits rank_start rank_end ≠ [] →
       ∃ w', receive_permutation self r permutation rank_start rank_end use_alpha w
             = (Raise IndexError, w')
             ∧ hits_of (heap w') r = Some hits).
Proof.
  split.
  - intros self w r hits permutation rs re ua response Hhits Hparsed Hempty.
    apply hits_of_holds in Hhits as (h & t & items & Hr & Hh & Hds).
    unfold receive_permutation. rewrite Hparsed.
    rewrite (run_bind _ _ _ _ _ (run_attr_hits _ _ _ _ Hr)).
    rewrite (run_bind _ _ _ _ _ (run_read_list _ _ _ Hh)).
    pose proof (Forall2_slice _ _ _ rs re Hds) as Hcut. rewrite Hempty in Hcut.
    rewrite (run_bind _ _ _ _ _ (run_mapM_read_dict _ _ _ Hcut)). cbn zeta.
    assert (completed_response (length (@nil (gmap string V))) response = []) as ->.
    { unfold completed_response. change (seqZ 0 (Z.of_nat (length (@nil (gmap string V)))))
        with (@nil Z). cbn zeta.
      rewrite (filter_none (λ ss, ss ∈ @nil Z)); [done|].
      apply Forall_forall. intros x _. apply not_elem_of_nil. }
    done.
  - intros self w r hits permutation rs re ua response Hhits Hparsed Hlow Hne.
    pose proof Hhits as Hhits0.
    apply hits_of_holds in Hhits as (h & t & items & Hr & Hh & Hds).
    pose proof (Forall2_length _ _ _ Hds) as Hlen.
    unfold receive_permutation. rewrite Hparsed.
    rewrite (run_bind _ _ _ _ _ (run_attr_hits _ _ _ _ Hr)).
    rewrite (run_bind _ _ _ _ _ (run_read_list _ _ _ Hh)).
    rewrite (run_bind _ _ _ _ _
               (run_mapM_read_dict _ _ _ (Forall2_slice _ _ _ rs re Hds))).
    cbn zeta. set (cut_range := slice hits rs re) in *.
    pose proof (completed_response_Permutation (length cut_range) response
                  (parsed_response_NoDup _ _ _ _ Hparsed)) as Hperm.
    destruct (completed_response (length cut_range) response) as [|x rest] eqn:Horder.
    { apply Permutation_nil_l in Hperm. destruct cut_range; [done|].
      rewrite seqZ_cons in Hperm by (simpl; lia). done. }
    assert (x ∈ seqZ 0 (Z.of_nat (length cut_range))) as Hx by (rewrite <-Hperm; by left).
    apply elem_of_seqZ in Hx.
    destruct (lookup_lt_is_Some_2 cut_range (Z.to_nat x) ltac:(lia)) as [dx Hdx].
    destruct (run_alloc w (ObjDict dx)) as (Halloc & Hfresh & Hsub).
    set (l := fresh (dom (heap w))) in *.
    set (w1 := World (<[l:=ObjDict dx]> (heap w)) (calls w)) in *.
    assert (heap w1 !! r = Some (ObjResult h t)) as Hr1
      by apply (lookup_weaken _ _ _ _ Hr Hsub).
    assert (heap w1 !! h = Some (ObjList items)) as Hh1
      by apply (lookup_weaken _ _ _ _ Hh Hsub).
    exists w1. split; [|by eapply hits_of_weaken].
    assert (list_setitem h (0 + rs) l w1 = (Raise IndexError, w1)) as Hset.
    { unfold list_setitem. rewrite (run_bind _ _ _ _ _ (run_read_list _ _ _ Hh1)).
      unfold position. by rewrite !bool_decide_eq_false_2 by lia. }
    apply run_bind_raise. cbn [reorder].
    rewrite (run_bind _ _ _ _ _ (run_getitem _ _ _ _ (proj1 Hx) Hdx)).
    rewrite (run_bind _ _ _ _ _ Halloc).
    rewrite (run_bind _ _ _ _ _ (run_attr_hits _ _ _ _ Hr1)).
    by apply run_bind_raise.
Qed.

End bounds.

(** ** The ranking that the oracle wrote is the one applied *)

Section applied.
Context {U : Unicode} {V Prompt : Type}.

Local Abbreviation world := (world V Prompt).
Local Abbreviation dict := (gmap string V).

(** X15.  When the answer names every hit of the window once, in the form
    the prompt asks for (numbers in digit mode, letters in alphabetic mode,
    for a window of at most 26 hits), [receive_permutation] puts the hits of
    the window in the order of the answer: position [j] gets the payload of
    the hit that the answer names at [j], and [rank] and [score] stay at
    their positions. *)
Theorem receive_permutation_applies_ranking (self : RankLLM V Prompt) (w : world) r hits
    rank_start rank_end (l : list Z) (use_alpha : bool) :
  hits_of (heap w) r = Some hits → 0 ≤ rank_start →
  uniform "rank" (slice hits rank_start rank_end) →
  uniform "score" (slice hits rank_start rank_end) →
  l ≡ₚ seqZ 0 (Z.of_nat (length (slice hits rank_start rank_end))) →
  (use_alpha = true → (length (slice hits rank_start rank_end) ≤ 26)%nat) →
  let cut_range := slice hits rank_start rank_end in
  let answer := ranking (if use_alpha then item_alpha else item) l in
  ∃ w' new,
    receive_permutation self r answer rank_start rank_end use_alpha w = (Ok r, w')
    ∧ hits_of (heap w') r
      = Some (take (Z.to_nat rank_start) hits ++ new
              ++ drop (Z.to_nat rank_start + length cut_range) hits)
    ∧ Forall2 (λ d x, 0 ≤ x ∧ payload <$> cut_range !! Z.to_nat x = Some (payload d))
        new l
    ∧ (λ d : dict, d !! "rank") <$> new = (λ d : dict, d !! "rank") <$> cut_range
    ∧ (λ d : dict, d !! "score") <$> new = (λ d : dict, d !! "score") <$> cut_range.
Proof.
  intros Hhits Hstart Hrank Hscore Hperm Hsize cut_range answer.
  fold cut_range in Hperm, Hsize.
  assert (NoDup l) as Hnodup by (rewrite Hperm; apply NoDup_seqZ).
  assert (Forall (λ x, 0 ≤ x < Z.of_nat (length cut_range)) l) as Hl.
  { apply Forall_forall. intros x Hx. rewrite Hperm in Hx. apply elem_of_seqZ in Hx. lia. }
  assert (parsed_response (_rerank_type self) answer use_alpha = Some l) as Hparsed.
  { unfold answer. destruct use_alpha.
    - apply parsed_response_ranking_alpha; [done|].
      eapply Forall_impl; [done|]. intros x Hx. cbn beta in Hx. specialize (Hsize eq_refl). lia.
    - apply parsed_response_ranking; [done|].
      eapply Forall_impl; [done|]. intros x Hx. cbn beta in Hx. lia. }
  destruct (receive_permutation_order self w r hits answer rank_start rank_end use_alpha l
              Hhits Hstart Hrank Hscore Hparsed)
    as (w' & new & Hrun & Hhits' & _ & _ & Hnew & Hranks & Hscores).
  fold cut_range in Hhits', Hnew, Hranks, Hscores.
  rewrite completed_response_id in Hnew by done.
  by exists w', new.
Qed.

End applied.

(** ** Runs of the properties above *)

Lemma trace_of_store_of_ranked_hits : trace_of (heap (store_of ranked_hits)) 1 = Some [].
Proof. by vm_compute. Qed.

Lemma holds_store_of_ranked_hits :
  holds (store_of ranked_hits) 1 2 None [3; 4; 5]%positive ranked_hits.
Proof. split_and!; [by vm_compute..|]. repeat constructor; by vm_compute. Qed.

Lemma uniform_all_ranked_hits key :
  key = "rank" ∨ key = "score" → uniform key ranked_hits.
Proof. intros [-> | ->]; left; apply (bool_decide_unpack _); by vm_compute. Qed.

Lemma fixed_ranker_decimal _rerank_type use_logits use_alpha :
  use_alpha = false →
  ∀ (w' : world Z text) (prompt : text) n,
    Forall (λ c, isdigit (Unicode:=latin1) c = true → isdecimal c = true)
      (run_llm (fixed_ranker _rerank_type (py "[2] > [1]")) w' prompt use_logits use_alpha n).1.
Proof. intros _ w' prompt n. apply decimal_digits_only, py_ascii_21. Qed.

Lemma sliding_windows_cover_witness :
  ∃ ws,
    sliding_windows (U:=latin1) (fixed_ranker "" (py "[2] > [1]")) 3 1 false false 0 3 2 1
      (store_of ranked_hits)
    = (rerank_result ← deepcopy_result 1;
       for_windows (λ r s e, permutation_pipeline (U:=latin1)
                               (fixed_ranker "" (py "[2] > [1]")) r false false s e)
         rerank_result ws) (store_of ranked_hits)
    ∧ ∀ p, 0 ≤ p < 3 → Exists (λ win, win.1 ≤ p < win.2) ws.
Proof.
  apply (sliding_windows_cover (U:=latin1) (fixed_ranker "" (py "[2] > [1]")) 3 1%positive
           false false 0 3 2 1 (store_of ranked_hits)); lia.
Defined.

Lemma get_ranking_cost_total_witness :
  ∃ ws,
    cost_windows 100 0 100 20 10 = Some ws
    ∧ get_ranking_cost (fixed_ranker "" []) 100 (λ (_ : unit) _ _, []) [(); ()] 0 100 20 10
        0 0
      = Some (total ((λ result,
                        total ((λ win, get_num_tokens (fixed_ranker "" [])
                                         ((λ (_ : unit) _ _, []) result win.1 win.2)
                                       + num_output_tokens (fixed_ranker "" [])) <$> ws))
                     <$> [(); ()]))
    ∧ (100 - 20 < 0 → ws = []).
Proof.
  apply (get_ranking_cost_total (fixed_ranker "" []) 100
           (λ (_ : unit) _ _, []) [(); ()] 0 100 20 10); lia.
Defined.

Lemma permutation_pipeline_records_witness :
  let self := fixed_ranker "" (py "[2] > [1]") in
  let w := store_of ranked_hits in
  let run := permutation_pipeline (U:=latin1) self 1 false false 0 3 w in
  let info := (asked self w 1 false false 0 3).2 in
  trace_of (heap run.2) 1 = Some ([] ++ [info])
  ∧ calls run.2 = calls w ++ [CreatePrompt 1%positive false 0 3;
                              RunLLM (exec_prompt info) false false (3 - 0)]
  ∧ exec_response info
    = (run_llm self (asked self w 1 false false 0 3).1 (exec_prompt info) false false
         (3 - 0)).1
  ∧ (parsed_response (U:=latin1) (_rerank_type self) (exec_response info) false = None →
     run.1 = Raise ValueError ∧ hits_of (heap run.2) 1 = Some ranked_hits).
Proof.
  apply (permutation_pipeline_records (U:=latin1) (fixed_ranker "" (py "[2] > [1]"))
           (store_of ranked_hits) 1%positive ranked_hits [] false false 0 3).
  - exact store_of_ranked_hits.
  - exact trace_of_store_of_ranked_hits.
Defined.

Lemma receive_permutation_places_witness :
  let cut_range := slice ranked_hits 0 3 in
  let order := completed_response (length cut_range) [1; 0] in
  ∃ w' new,
    receive_permutation (U:=latin1) (fixed_ranker "" []) 1 (py "[2] > [1]") 0 3 false
      (store_of ranked_hits) = (Ok 1%positive, w')
    ∧ hits_of (heap w') 1
      = Some (take (Z.to_nat 0) ranked_hits ++ new
              ++ drop (Z.to_nat 0 + length cut_range) ranked_hits)
    ∧ length new = length cut_range
    ∧ (∀ j d, new !! j = Some d →
         ∃ x dx dj, order !! j = Some x ∧ 0 ≤ x
           ∧ cut_range !! Z.to_nat x = Some dx ∧ cut_range !! j = Some dj
           ∧ payload d = payload dx
           ∧ d !! "rank" = dj !! "rank" ∧ d !! "score" = dj !! "score")
    ∧ ([1; 0] ≡ₚ seqZ 0 (Z.of_nat (length cut_range)) → order = [1; 0]).
Proof.
  apply (receive_permutation_places (U:=latin1) (fixed_ranker "" []) (store_of ranked_hits)
           1%positive ranked_hits (py "[2] > [1]") 0 3 false [1; 0]).
  - exact store_of_ranked_hits.
  - lia.
  - apply uniform_ranked_hits. by left.
  - apply uniform_ranked_hits. by right.
  - by vm_compute.
Defined.

Lemma sliding_windows_reorders_witness :
  ∃ r' w' hits' entries' ws,
    sliding_windows (U:=latin1) (fixed_ranker "" (py "[2] > [1]")) 3 1 false false 0 3 2 1
      (store_of ranked_hits) = (Ok r', w')
    ∧ windows 3 0 1 (3 - 2) 3 = Some ws
    ∧ hits_of (heap w') r' = Some hits'
    ∧ payload <$> hits' ≡ₚ payload <$> ranked_hits
    ∧ (λ d : gmap string Z, d !! "rank") <$> hits'
      = (λ d : gmap string Z, d !! "rank") <$> ranked_hits
    ∧ (λ d : gmap string Z, d !! "score") <$> hits'
      = (λ d : gmap string Z, d !! "score") <$> ranked_hits
    ∧ trace_of (heap w') r' = Some ([] ++ entries')
    ∧ length entries' = length ws
    ∧ length (calls w') = (length (calls (store_of ranked_hits)) + 2 * length ws)%nat
    ∧ r' ≠ 1%positive ∧ hits_of (heap w') 1 = Some ranked_hits.
Proof.
  apply (sliding_windows_reorders (U:=latin1) (fixed_ranker "" (py "[2] > [1]")) 3
           (store_of ranked_hits) 1%positive ranked_hits [] false false 0 3 2 1).
  - exact store_of_ranked_hits.
  - exact trace_of_store_of_ranked_hits.
  - lia.
  - lia.
  - lia.
  - apply uniform_all_ranked_hits. by left.
  - apply uniform_all_ranked_hits. by right.
  - apply fixed_ranker_decimal.
Defined.

Lemma sliding_windows_no_window_witness :
  ∃ r' w',
    sliding_windows (U:=latin1) (fixed_ranker "" (py "[2] > [1]")) 0 1 false false 0 3 4 1
      (store_of ranked_hits) = (Ok r', w')
    ∧ hits_of (heap w') r' = Some ranked_hits
    ∧ trace_of (heap w') r' = Some []
    ∧ calls w' = calls (store_of ranked_hits)
    ∧ r' ≠ 1%positive.
Proof.
  apply (sliding_windows_no_window (U:=latin1) (fixed_ranker "" (py "[2] > [1]")) 0
           (store_of ranked_hits) 1%positive ranked_hits [] false false 0 3 4 1).
  - exact store_of_ranked_hits.
  - exact trace_of_store_of_ranked_hits.
  - right. lia.
Defined.

(** A ranker whose batched oracle gives no answer. *)
Definition silent_ranker : RankLLM Z text :=
  {| _rerank_type := "";
     create_prompt := λ _ _ _ _ _, ([], 0);
     run_llm := λ _ _ _ _ _, ([], 0);
     create_prompt_batched := λ _ results _ _ _, (λ _, ([], 0)) <$> results;
     run_llm_batched := λ _ _ _ _ _, [];
     get_num_tokens := λ _, 0;
     num_output_tokens := 0 |}.

Lemma permutation_pipeline_batched_short_answers_witness :
  let w := batch_store in
  let w1 := World (heap w) (calls w ++ [CreatePromptBatched [1; 5]%positive false 0 2]) in
  let prompts := create_prompt_batched silent_ranker w1 [1; 5]%positive false 0 2 in
  let w2 := World (heap w)
              (calls w1 ++ [RunLLMBatched (fst <$> prompts) false false (2 - 0)]) in
  let answers := run_llm_batched silent_ranker w2 (fst <$> prompts) false false (2 - 0) in
  returned (permutation_pipeline_batched (U:=latin1) silent_ranker [1; 5]%positive false
              false 0 2 w).1 = false
  ∧ (answers = [] → permutation_pipeline_batched (U:=latin1) silent_ranker [1; 5]%positive
                      false false 0 2 w = (Raise IndexError, w2)).
Proof.
  apply (permutation_pipeline_batched_short_answers (U:=latin1) silent_ranker
           [1; 5]%positive false false 0 2 batch_store).
  simpl. lia.
Defined.

Lemma permutation_pipeline_in_place_witness :
  let run := permutation_pipeline (U:=latin1) (fixed_ranker "" (py "[2] > [1]")) 1 false
               false 0 3 (store_of ranked_hits) in
  let own := 1%positive :: 2%positive :: [3; 4; 5]%positive ++ option_list None in
  filter (λ lo : loc * obj Z text, lo.1 ∉ own) (heap (store_of ranked_hits)) ⊆ heap run.2
  ∧ (returned run.1 = true → run.1 = Ok 1%positive).
Proof.
  apply (permutation_pipeline_in_place (U:=latin1) (fixed_ranker "" (py "[2] > [1]"))
           (store_of ranked_hits) 1%positive 2%positive None [3; 4; 5]%positive ranked_hits []
           false false 0 3).
  - exact holds_store_of_ranked_hits.
  - exact trace_of_store_of_ranked_hits.
Defined.

Lemma receive_permutation_applies_ranking_witness :
  let cut_range := slice ranked_hits 0 3 in
  let answer := ranking item [2; 0; 1] in
  ∃ w' new,
    receive_permutation (U:=latin1) (fixed_ranker "" []) 1 answer 0 3 false
      (store_of ranked_hits) = (Ok 1%positive, w')
    ∧ hits_of (heap w') 1
      = Some (take (Z.to_nat 0) ranked_hits ++ new
              ++ drop (Z.to_nat 0 + length cut_range) ranked_hits)
    ∧ Forall2 (λ d x, 0 ≤ x ∧ payload <$> cut_range !! Z.to_nat x = Some (payload d))
        new [2; 0; 1]
    ∧ (λ d : gmap string Z, d !! "rank") <$> new
      = (λ d : gmap string Z, d !! "rank") <$> cut_range
    ∧ (λ d : gmap string Z, d !! "score") <$> new
      = (λ d : gmap string Z, d !! "score") <$> cut_range.
Proof.
  apply (receive_permutation_applies_ranking (U:=latin1) (fixed_ranker "" [])
           (store_of ranked_hits) 1%positive ranked_hits 0 3 [2; 0; 1] false).
  - exact store_of_ranked_hits.
  - lia.
  - apply uniform_ranked_hits. by left.
  - apply uniform_ranked_hits. by right.
  - apply (bool_decide_unpack _). by vm_compute.
  - done.
Defined.

Lemma receive_permutation_bounds_witness :
  receive_permutation (U:=latin1) (fixed_ranker "" []) 1 (py "[2] > [1]") 3 5 false
    (store_of ranked_hits) = (Ok 1%positive, store_of ranked_hits)
  ∧ ∃ w', receive_permutation (U:=latin1) (fixed_ranker "" []) 1 (py "[2] > [1]") (-4) 2
            false (store_of ranked_hits) = (Raise IndexError, w')
          ∧ hits_of (heap w') 1 = Some ranked_hits.
Proof.
  split.
  - apply (proj1 (receive_permutation_bounds (U:=latin1) (V:=Z) (Prompt:=text))
             (fixed_ranker "" []) (store_of ranked_hits) 1%positive ranked_hits
             (py "[2] > [1]") 3 5 false [1; 0]).
    + exact store_of_ranked_hits.
    + by vm_compute.
    + by vm_compute.
  - apply (proj2 (receive_permutation_bounds (U:=latin1) (V:=Z) (Prompt:=text))
             (fixed_ranker "" []) (store_of ranked_hits) 1%positive ranked_hits
             (py "[2] > [1]") (-4) 2 false [1; 0]).
    + exact store_of_ranked_hits.
    + by vm_compute.
    + simpl. lia.
    + by vm_compute.
Defined.
